(** * Topology-aware communication package (TAP) builder of raptor:
      a shallow embedding of [raptor/core/tap_comm.cpp] and the
      properties of its setup-time algorithms.

    Conventions of the embedding.
    - A C++ [int] is a [Z].  Division and remainder are the truncating
      ones of C++ ([Z.quot], [Z.rem]).  Signed overflow is undefined in
      C++; the values handled here are ranks, host ids, counts and
      positions bounded by vector sizes, and no wrap-around is modelled.
    - A [std::vector<int>] is a [list Z]; a vector that only ever holds
      positions of another vector or counts ([p], [node_to_idx],
      [on_node_to_off_proc], the [sizes] and [displs] vectors) is a
      [list nat].  Loop counters running over a vector are [nat].
    - An out-of-range [operator[]] is undefined in C++.  The embedding
      reads a default ([0]) and writes nothing there; every theorem that
      depends on such an access carries the bounds that make the source
      access defined.
    - MPI collectives over the intra-host communicator are modelled by
      passing the contributions of all the processes of the host.
    - [std::sort] is specified by its contract only (the result is a
      permutation ordered by the comparator); the functions that call it
      take the sort, or its outcome, as an argument. *)

From Stdlib Require Import ZArith Lia List Permutation Sorted.
From stdpp Require Import base numbers list strings gmap sorting.

Local Open Scope Z_scope.

(** ** Cached topology constants of a TAP package

    [PPN], [num_nodes] and [rank_ordering] are members of [TAPComm];
    [eager_cutoff], [short_cutoff] and [ideal_n_comm] come from the header
    [comm_pkg.hpp] and are kept as configuration fields. *)
Record TAPConfig := mkTAPConfig {
  rank_ordering : Z;
  PPN : Z;
  num_nodes : Z;
  eager_cutoff : Z;
  short_cutoff : Z;
  ideal_n_comm : Z
}.

(** ** Topology mapper *)
Module Topology.

(** What a call leaves on standard output. *)
Definition stdout := list string.

Definition not_supported_msg : string :=
  String.append "This MPI rank ordering is not supported!"
                (String (Ascii.ascii_of_nat 10) EmptyString).

(** The common [else] branch: rank 0 prints, everybody returns [-1]. *)
Definition not_supported (rank : Z) : Z * stdout :=
  (-1, if rank =? 0 then [not_supported_msg] else []).

(** [TAPComm::get_node]; [rank] is the result of [MPI_Comm_rank]. *)
Definition get_node (c : TAPConfig) (rank proc : Z) : Z * stdout :=
  if rank_ordering c =? 0 then
    (Z.rem proc (num_nodes c), [])
  else if rank_ordering c =? 1 then
    (Z.quot proc (PPN c), [])
  else if rank_ordering c =? 2 then
    if Z.rem (Z.quot proc (num_nodes c)) 2 =? 0 then
      (Z.rem proc (num_nodes c), [])
    else
      (num_nodes c - Z.rem proc (num_nodes c) - 1, [])
  else not_supported rank.

(** [TAPComm::get_local_proc]. *)
Definition get_local_proc (c : TAPConfig) (rank proc : Z) : Z * stdout :=
  if (rank_ordering c =? 0) || (rank_ordering c =? 2) then
    (Z.quot proc (num_nodes c), [])
  else if rank_ordering c =? 1 then
    (Z.rem proc (PPN c), [])
  else not_supported rank.

(** [TAPComm::get_global_proc]; under ordering 2 the branch is chosen by
    the caller's own [rank]. *)
Definition get_global_proc (c : TAPConfig) (rank node local_proc : Z)
  : Z * stdout :=
  if rank_ordering c =? 0 then
    (local_proc * num_nodes c + node, [])
  else if rank_ordering c =? 1 then
    (local_proc + node * PPN c, [])
  else if rank_ordering c =? 2 then
    if Z.rem (Z.quot rank (num_nodes c)) 2 =? 0 then
      (local_proc * num_nodes c + node, [])
    else
      (local_proc * num_nodes c + num_nodes c - node - 1, [])
  else not_supported rank.

(** The composition the round-trip property speaks about, as evaluated
    by the process of rank [rank]. *)
Definition round_trip (c : TAPConfig) (rank r : Z) : Z :=
  (get_global_proc c rank (get_node c rank r).1 (get_local_proc c rank r).1).1.

Definition supported (c : TAPConfig) : Prop :=
  rank_ordering c = 0 \/ rank_ordering c = 1 \/ rank_ordering c = 2.

Definition valid_rank (c : TAPConfig) (r : Z) : Prop :=
  0 <= r < PPN c * num_nodes c.

Ltac unfold_mapper :=
  unfold round_trip, get_global_proc, get_node, get_local_proc, not_supported.

(** Row-major layout: the round trip holds for every evaluating rank. *)
Lemma round_trip_ordering0 c rank r :
  rank_ordering c = 0 -> 0 < num_nodes c -> round_trip c rank r = r.
Proof.
  intros Ho Hn. unfold_mapper. rewrite Ho. simpl.
  pose proof (Z.quot_rem' r (num_nodes c)). lia.
Qed.

(** Block-major layout: likewise. *)
Lemma round_trip_ordering1 c rank r :
  rank_ordering c = 1 -> 0 < PPN c -> round_trip c rank r = r.
Proof.
  intros Ho Hn. unfold_mapper. rewrite Ho. simpl.
  pose proof (Z.quot_rem' r (PPN c)). lia.
Qed.

(** Folded layout: the round trip holds when the evaluating rank sits on
    a row of the same parity as [r]. *)
Lemma round_trip_ordering2_same_parity c rank r :
  rank_ordering c = 2 -> 0 < num_nodes c ->
  Z.rem (Z.quot rank (num_nodes c)) 2 = Z.rem (Z.quot r (num_nodes c)) 2 ->
  round_trip c rank r = r.
Proof.
  intros Ho Hn Hpar. unfold_mapper. rewrite Ho, Hpar. simpl.
  pose proof (Z.quot_rem' r (num_nodes c)).
  destruct (Z.eqb_spec (Z.rem (Z.quot r (num_nodes c)) 2) 0); simpl; lia.
Qed.

(** Folded layout, rows of different parity: the composition lands on the
    mirror image of [r] within its row. *)
Lemma round_trip_ordering2_other_parity c rank r :
  rank_ordering c = 2 -> 0 < num_nodes c ->
  Z.rem (Z.quot rank (num_nodes c)) 2 <> Z.rem (Z.quot r (num_nodes c)) 2 ->
  (Z.rem (Z.quot rank (num_nodes c)) 2 = 0 \/
   Z.rem (Z.quot r (num_nodes c)) 2 = 0) ->
  round_trip c rank r =
  Z.quot r (num_nodes c) * num_nodes c
  + (num_nodes c - Z.rem r (num_nodes c) - 1).
Proof.
  intros Ho Hn Hpar Hz. unfold_mapper. rewrite Ho. simpl.
  destruct (Z.eqb_spec (Z.rem (Z.quot r (num_nodes c)) 2) 0);
    destruct (Z.eqb_spec (Z.rem (Z.quot rank (num_nodes c)) 2) 0);
    simpl; lia.
Qed.

(** C1 (evaluation of the code at the failing input).  Folded layout,
    two hosts of two processes: rank 2 is a valid rank, yet the process of
    rank 0 maps [get_global_proc (get_node 2) (get_local_proc 2)] to 3,
    while the process of rank 2 maps it to 2: the round trip fails and its
    result depends on the evaluating rank. *)
Theorem C1_round_trip_folded_layout_depends_on_caller :
  let c := mkTAPConfig 2 2 2 1000 62 4 in
  supported c /\ valid_rank c 2 /\
  get_node c 0 2 = (1, []) /\ get_local_proc c 0 2 = (1, []) /\
  get_global_proc c 0 1 1 = (3, []) /\
  round_trip c 0 2 = 3 /\ round_trip c 2 2 = 2.
Proof.
  cbv zeta. unfold supported, valid_rank. simpl.
  repeat split; first [lia | reflexivity | auto].
Qed.

(** C4 (what the code does on an unsupported layout).  For every
    [rank_ordering] other than 0, 1 and 2, each of [get_node],
    [get_local_proc] and [get_global_proc] returns normally with the
    sentinel [-1]; the only sign of the problem is one line printed by
    rank 0.  No call fails. *)
Theorem C4_unsupported_ordering_returns_sentinel c rank proc node local_proc :
  ~ supported c ->
  get_node c rank proc = (-1, if rank =? 0 then [not_supported_msg] else []) /\
  get_local_proc c rank proc
    = (-1, if rank =? 0 then [not_supported_msg] else []) /\
  get_global_proc c rank node local_proc
    = (-1, if rank =? 0 then [not_supported_msg] else []).
Proof.
  unfold supported. intros Hns. unfold_mapper.
  destruct (Z.eqb_spec (rank_ordering c) 0); [tauto|].
  destruct (Z.eqb_spec (rank_ordering c) 1); [tauto|].
  destruct (Z.eqb_spec (rank_ordering c) 2); [tauto|].
  simpl. auto.
Qed.

Lemma C4_unsupported_ordering_witness :
  ~ supported (mkTAPConfig 3 4 2 1000 62 4) /\
  get_node (mkTAPConfig 3 4 2 1000 62 4) 0 5 = (-1, [not_supported_msg]) /\
  get_local_proc (mkTAPConfig 3 4 2 1000 62 4) 1 5 = (-1, []) /\
  get_global_proc (mkTAPConfig 3 4 2 1000 62 4) 0 1 1
    = (-1, [not_supported_msg]).
Proof.
  assert (Hns : ~ supported (mkTAPConfig 3 4 2 1000 62 4))
    by (unfold supported; simpl; lia).
  split; [exact Hns|].
  split; [exact (proj1 (C4_unsupported_ordering_returns_sentinel
                          _ 0 5 0 0 Hns))|].
  split; [exact (proj1 (proj2 (C4_unsupported_ordering_returns_sentinel
                          _ 1 5 0 0 Hns)))|].
  exact (proj2 (proj2 (C4_unsupported_ordering_returns_sentinel
                          _ 0 5 1 1 Hns))).
Defined.

End Topology.

(** ** Column classifier *)
Module Classifier.
Import Topology.

(** The eight vectors [split_off_proc_cols] is called with: two inputs
    (const references) and six outputs, all distinct objects. *)
Record SplitVectors := mkSplitVectors {
  off_proc_column_map : list Z;
  off_proc_col_to_proc : list Z;
  on_node_column_map : list Z;
  on_node_col_to_proc : list Z;
  on_node_to_off_proc : list nat;
  off_node_column_map : list Z;
  off_node_col_to_node : list Z;
  off_node_to_off_proc : list nat
}.

(** Body of the scan for position [i]. *)
Definition split_step (c : TAPConfig) (rank rank_node : Z)
    (v : SplitVectors) (i : nat) : SplitVectors :=
  let proc := off_proc_col_to_proc v !!! i in
  let node := (get_node c rank proc).1 in
  let global_col := off_proc_column_map v !!! i in
  if node =? rank_node then
    mkSplitVectors (off_proc_column_map v) (off_proc_col_to_proc v)
      (on_node_column_map v ++ [global_col])
      (on_node_col_to_proc v ++ [(get_local_proc c rank proc).1])
      (on_node_to_off_proc v ++ [i])
      (off_node_column_map v) (off_node_col_to_node v)
      (off_node_to_off_proc v)
  else
    mkSplitVectors (off_proc_column_map v) (off_proc_col_to_proc v)
      (on_node_column_map v) (on_node_col_to_proc v)
      (on_node_to_off_proc v)
      (off_node_column_map v ++ [global_col])
      (off_node_col_to_node v ++ [node])
      (off_node_to_off_proc v ++ [i]).

(** [TAPComm::split_off_proc_cols], called by the process of rank [rank]. *)
Definition split_off_proc_cols (c : TAPConfig) (rank : Z)
    (v : SplitVectors) : SplitVectors :=
  let off_proc_num_cols := length (off_proc_column_map v) in
  let rank_node := (get_node c rank rank).1 in
  fold_left (split_step c rank rank_node) (seq 0 off_proc_num_cols) v.

(** Host of the owner of position [i], and the test of the scan. *)
Definition owner_node (c : TAPConfig) (rank : Z) (v : SplitVectors)
    (i : nat) : Z :=
  (get_node c rank (off_proc_col_to_proc v !!! i)).1.

Definition owner_local (c : TAPConfig) (rank : Z) (v : SplitVectors)
    (i : nat) : Z :=
  (get_local_proc c rank (off_proc_col_to_proc v !!! i)).1.

Definition on_host (c : TAPConfig) (rank : Z) (v : SplitVectors)
    (i : nat) : Prop :=
  owner_node c rank v i = (get_node c rank rank).1.

#[global] Instance on_host_dec c rank v i : Decision (on_host c rank v i).
Proof. unfold on_host. apply _. Defined.

(** What the scan has produced after the positions of [l]. *)
Definition scanned (c : TAPConfig) (rank : Z) (v0 : SplitVectors)
    (l : list nat) : SplitVectors :=
  let on := filter (on_host c rank v0) l in
  let off := filter (fun i => ~ on_host c rank v0 i) l in
  mkSplitVectors (off_proc_column_map v0) (off_proc_col_to_proc v0)
    (on_node_column_map v0 ++ map (fun i => off_proc_column_map v0 !!! i) on)
    (on_node_col_to_proc v0 ++ map (owner_local c rank v0) on)
    (on_node_to_off_proc v0 ++ on)
    (off_node_column_map v0 ++ map (fun i => off_proc_column_map v0 !!! i) off)
    (off_node_col_to_node v0 ++ map (owner_node c rank v0) off)
    (off_node_to_off_proc v0 ++ off).

Lemma scanned_nil c rank v0 : scanned c rank v0 [] = v0.
Proof.
  unfold scanned. simpl. rewrite !app_nil_r. by destruct v0.
Qed.

Lemma scanned_snoc c rank v0 l i :
  scanned c rank v0 (l ++ [i])
  = split_step c rank (get_node c rank rank).1 (scanned c rank v0 l) i.
Proof.
  unfold scanned, split_step. simpl.
  rewrite !filter_app, !filter_cons, !filter_nil.
  fold (owner_node c rank v0 i). fold (owner_local c rank v0 i).
  destruct (Z.eqb_spec (owner_node c rank v0 i) (get_node c rank rank).1)
    as [He|He].
  - rewrite decide_True by exact He.
    rewrite decide_False by (intros Hn; apply Hn; exact He).
    rewrite !map_app, !app_nil_r, !app_assoc. reflexivity.
  - rewrite decide_False by exact He.
    rewrite decide_True by exact He.
    rewrite !map_app, !app_nil_r, !app_assoc. reflexivity.
Qed.

Lemma fold_split_step c rank v0 l :
  fold_left (split_step c rank (get_node c rank rank).1) l v0
  = scanned c rank v0 l.
Proof.
  induction l as [|i l IH] using rev_ind.
  - by rewrite scanned_nil.
  - by rewrite fold_left_app, IH, scanned_snoc.
Qed.

Lemma split_off_proc_cols_scanned c rank v :
  split_off_proc_cols c rank v
  = scanned c rank v (seq 0 (length (off_proc_column_map v))).
Proof. apply fold_split_step. Qed.

Lemma filter_seq_increasing (P : nat -> Prop) `{!forall i, Decision (P i)}
    (a n : nat) :
  StronglySorted lt (filter P (seq a n)).
Proof.
  revert a. induction n as [|n IH]; intros a; simpl.
  - constructor.
  - rewrite filter_cons. destruct (decide (P a)); [|apply IH].
    constructor; [apply IH|].
    apply Forall_forall. intros x Hx.
    apply list_elem_of_filter in Hx as [_ Hx].
    apply list_elem_of_In, in_seq in Hx. lia.
Qed.

(** C7.  [split_off_proc_cols] scans the positions [0 .. n-1] of the
    off-process column list once.  The positions whose owner lives on the
    caller's host are appended, in increasing order, to the on-node
    vectors (column, owner's intra-host rank, position); all the others
    are appended to the off-node vectors (column, owner's host id,
    position).  Both appended position lists are strictly increasing,
    together they hold every position exactly once, and the two input
    vectors come back unchanged. *)
Theorem C7_split_off_proc_cols_partition c rank v :
  (length (off_proc_column_map v) <= length (off_proc_col_to_proc v))%nat ->
  let n := length (off_proc_column_map v) in
  let v' := split_off_proc_cols c rank v in
  let on := filter (on_host c rank v) (seq 0 n) in
  let off := filter (fun i => ~ on_host c rank v i) (seq 0 n) in
  off_proc_column_map v' = off_proc_column_map v /\
  off_proc_col_to_proc v' = off_proc_col_to_proc v /\
  on_node_column_map v'
    = on_node_column_map v ++ map (fun i => off_proc_column_map v !!! i) on /\
  on_node_col_to_proc v'
    = on_node_col_to_proc v ++ map (owner_local c rank v) on /\
  on_node_to_off_proc v' = on_node_to_off_proc v ++ on /\
  off_node_column_map v'
    = off_node_column_map v ++ map (fun i => off_proc_column_map v !!! i) off /\
  off_node_col_to_node v'
    = off_node_col_to_node v ++ map (owner_node c rank v) off /\
  off_node_to_off_proc v' = off_node_to_off_proc v ++ off /\
  StronglySorted lt on /\ StronglySorted lt off /\
  Permutation (on ++ off) (seq 0 n).
Proof.
  intros _ n v' on off. subst v'.
  rewrite split_off_proc_cols_scanned. unfold scanned. simpl.
  repeat (split; [reflexivity|]).
  split; [apply filter_seq_increasing|].
  split; [apply filter_seq_increasing|].
  apply filter_app_complement.
Qed.

(** A process of host 0 (block layout, two hosts of two) needing four
    columns owned by ranks 1, 2, 3, 1. *)
Lemma C7_split_off_proc_cols_witness :
  let c := mkTAPConfig 1 2 2 1000 62 4 in
  let v := mkSplitVectors [10; 20; 30; 40] [1; 2; 3; 1] [] [] [] [] [] [] in
  split_off_proc_cols c 0 v
  = mkSplitVectors [10; 20; 30; 40] [1; 2; 3; 1]
      [10; 40] [1; 1] [0; 3]%nat [20; 30] [1; 1] [1; 2]%nat /\
  Permutation ([0; 3] ++ [1; 2])%nat (seq 0 4).
Proof.
  cbv zeta.
  pose proof (C7_split_off_proc_cols_partition
                (mkTAPConfig 1 2 2 1000 62 4) 0
                (mkSplitVectors [10; 20; 30; 40] [1; 2; 3; 1] [] [] [] [] [] [])
                ltac:(simpl; lia)) as H.
  split; [reflexivity|].
  exact (proj2 (proj2 (proj2 (proj2 (proj2 (proj2 (proj2 (proj2
          (proj2 (proj2 H)))))))))).
Defined.

End Classifier.

(** ** Host discovery and load balancer *)
Module LoadBalancer.

(** [sizeof(int)]: the source packs [int_size] host bits per word. *)
Definition int_size : Z := 4.

(** Number of words [N] of the bitmap. *)
Definition bitmap_words (c : TAPConfig) : nat :=
  Z.to_nat (if Z.rem (num_nodes c) int_size =? 0
            then Z.quot (num_nodes c) int_size
            else Z.quot (num_nodes c) int_size + 1).

(** One iteration of the marking loop over [off_node_col_to_node]. *)
Definition mark_node (st : list Z * list Z) (node : Z) : list Z * list Z :=
  let idx := Z.to_nat (Z.quot node int_size) in
  let pos := Z.rem node int_size in
  (<[idx := Z.lor (st.1 !!! idx) (Z.shiftl 1 pos)]> st.1,
   <[Z.to_nat node := st.2 !!! Z.to_nat node + 1]> st.2).

(** The pair ([tmp_recv_nodes], [node_sizes]) one process computes. *)
Definition mark_nodes (c : TAPConfig) (off_node_col_to_node : list Z)
  : list Z * list Z :=
  fold_left mark_node off_node_col_to_node
    (replicate (bitmap_words c) 0, replicate (Z.to_nat (num_nodes c)) 0).

(** [MPI_Allreduce] with [MPI_BOR] resp. [MPI_SUM] over the processes of
    the host, each contributing a vector of [n] words. *)
Definition allreduce (op : Z -> Z -> Z) (n : nat) (contribs : list (list Z))
  : list Z :=
  fold_left (fun acc v => zip_with op acc v) contribs (replicate n 0).

(** Decoding loop: the set bits of word [i], lowest first. *)
Definition decode_word (i : nat) (w : Z) : list Z :=
  concat (map (fun j : nat =>
                 if Z.land (Z.shiftr w (Z.of_nat j)) 1 =? 0 then []
                 else [Z.of_nat i * int_size + Z.of_nat j])
              (seq 0 (Z.to_nat int_size))).

(** The hosts written to [recv_nodes[0 .. ctr-1]]. *)
Definition decode_bitmap (nodal_recv_nodes : list Z) : list Z :=
  concat (imap decode_word nodal_recv_nodes).

(** The comparator of the sort: [lhs] goes before [rhs] when its volume is
    larger. *)
Definition volume_gt (nodal_off_node_sizes : list Z) (lhs rhs : nat) : bool :=
  nodal_off_node_sizes !!! lhs >? nodal_off_node_sizes !!! rhs.

(** Contract of [std::sort(first, last, comp)]: the range is permuted and
    no later element goes before an earlier one.  The order among
    elements that [comp] does not separate is left open. *)
Definition std_sort_outcome (comp : nat -> nat -> bool)
    (input output : list nat) : Prop :=
  Permutation input output /\
  forall i j x y, (i < j)%nat ->
    output !! i = Some x -> output !! j = Some y -> comp y x = false.

(** The permutation [p] of the source: [iota] sorted by [volume_gt]. *)
Definition sorted_by_volume (nodal_off_node_sizes : list Z) (p : list nat)
  : Prop :=
  std_sort_outcome (volume_gt nodal_off_node_sizes)
                   (seq 0 (length nodal_off_node_sizes)) p.

(** The fan-out loop, running over [idx = p[i]]; the last branch is the
    [break]. *)
Fixpoint assign_fanout (c : TAPConfig) (ctr : Z)
    (nodal_off_node_sizes : list Z) (p : list nat)
    (nodal_num_local : list Z) : list Z :=
  match p with
  | [] => nodal_num_local
  | idx :: p' =>
    let size := nodal_off_node_sizes !!! idx in
    if size >? eager_cutoff c then
      let n_procs := Z.quot size (eager_cutoff c) in
      let n_procs := if n_procs >=? PPN c then ideal_n_comm c else n_procs in
      assign_fanout c ctr nodal_off_node_sizes p'
                    (<[idx := n_procs]> nodal_num_local)
    else if (size >? short_cutoff c) && (ctr <? PPN c) then
      let n_procs := Z.quot size (short_cutoff c) in
      let n_procs := if n_procs >=? PPN c then PPN c else n_procs in
      assign_fanout c ctr nodal_off_node_sizes p'
                    (<[idx := n_procs]> nodal_num_local)
    else nodal_num_local
  end.

(** [std::swap(v[a], v[b])]. *)
Definition vswap (v : list Z) (a b : nat) : list Z :=
  <[b := v !!! a]> (<[a := v !!! b]> v).

(** The vectors the reordering loop works on. *)
Record Reorder := mkReorder {
  recv_nodes : list Z;
  nodal_num_local : list Z;
  done : list bool
}.

(** The inner [while (i != j)] loop; [fuel] bounds the number of tests. *)
Fixpoint follow_cycle (fuel : nat) (p : list nat) (i prev_j j : nat)
    (s : Reorder) : option Reorder :=
  match fuel with
  | O => None
  | S fuel' =>
    if (i =? j)%nat then Some s
    else follow_cycle fuel' p i j (p !!! j)
           (mkReorder (vswap (recv_nodes s) prev_j j)
                      (vswap (nodal_num_local s) prev_j j)
                      (<[j := true]> (done s)))
  end.

(** The outer [for] loop over the positions [todo]. *)
Fixpoint reorder_loop (fuel : nat) (p : list nat) (todo : list nat)
    (s : Reorder) : option Reorder :=
  match todo with
  | [] => Some s
  | i :: todo' =>
    if (done s !!! i : bool) then reorder_loop fuel p todo' s
    else
      match follow_cycle fuel p i i (p !!! i)
              (mkReorder (recv_nodes s) (nodal_num_local s)
                         (<[i := true]> (done s))) with
      | Some s' => reorder_loop fuel p todo' s'
      | None => None
      end
  end.

(** In-place reordering of two vectors of [ctr] entries along [p]. *)
Definition reorder_in_place (ctr : nat) (p : list nat)
    (hosts fanouts : list Z) : option (list Z * list Z) :=
  match reorder_loop ctr p (seq 0 ctr)
          (mkReorder hosts fanouts (replicate ctr false)) with
  | Some s => Some (recv_nodes s, nodal_num_local s)
  | None => None
  end.

(** The reference the in-place loop is compared with: sort, then copy,
    [out[i] = in[p[i]]]. *)
Definition sort_then_copy (p : list nat) (v : list Z) : list Z :=
  map (fun k => v !!! k) p.

(** Everything after the second reduction, given the outcome [p] of the
    sort. *)
Definition load_balance (c : TAPConfig) (p : list nat)
    (recv_nodes0 nodal_off_node_sizes nodal_num_local0 : list Z)
  : option (list Z * list Z) :=
  let ctr := length recv_nodes0 in
  let fan := assign_fanout c (Z.of_nat ctr) nodal_off_node_sizes p
               (resize ctr 1 nodal_num_local0) in
  reorder_in_place ctr p recv_nodes0 fan.

(** [TAPComm::gather_off_node_nodes].  [locals] holds the
    [off_node_col_to_node] of every process of the host, [sort] stands for
    [std::sort] on [iota] with the comparator [volume_gt], and
    [nodal_num_local0] is the vector passed in by the caller. *)
Definition gather_off_node_nodes (c : TAPConfig)
    (sort : list Z -> list nat) (locals : list (list Z))
    (nodal_num_local0 : list Z) : option (list Z * list Z) :=
  let marks := map (mark_nodes c) locals in
  let nodal_recv_nodes := allreduce Z.lor (bitmap_words c) (map fst marks) in
  let recv_nodes := decode_bitmap nodal_recv_nodes in
  let ctr := length recv_nodes in
  if (ctr =? 0)%nat then Some ([], nodal_num_local0)
  else
    let nodal_off_node_sizes :=
      allreduce Z.add ctr
        (map (fun m : list Z * list Z =>
                map (fun node => m.2 !!! Z.to_nat node) recv_nodes) marks) in
    load_balance c (sort nodal_off_node_sizes) recv_nodes
                 nodal_off_node_sizes nodal_num_local0.

(** The fan-out one host of aggregate volume [size] gets from one pass of
    the loop body; the third branch leaves the initial 1. *)
Definition fanout_rule (c : TAPConfig) (ctr size : Z) : Z :=
  if size >? eager_cutoff c then
    if Z.quot size (eager_cutoff c) >=? PPN c then ideal_n_comm c
    else Z.quot size (eager_cutoff c)
  else if (size >? short_cutoff c) && (ctr <? PPN c) then
    if Z.quot size (short_cutoff c) >=? PPN c then PPN c
    else Z.quot size (short_cutoff c)
  else 1.

(** The test of the [break]: the volume is below both thresholds. *)
Definition below_thresholds (c : TAPConfig) (ctr size : Z) : bool :=
  negb (size >? eager_cutoff c)
  && negb ((size >? short_cutoff c) && (ctr <? PPN c)).

(** The rule as the specification words it: the eager quotient capped at
    the ideal fan-out and at [PPN], the short-message quotient capped at
    [PPN], otherwise 1. *)
Definition fanout_as_specified (c : TAPConfig) (ctr size : Z) : Z :=
  if size >? eager_cutoff c then
    Z.min (Z.min (Z.quot size (eager_cutoff c)) (ideal_n_comm c)) (PPN c)
  else if (size >? short_cutoff c) && (ctr <? PPN c) then
    Z.min (Z.quot size (short_cutoff c)) (PPN c)
  else 1.

(** Stable descending order, as the specification words it: of two
    positions the earlier one has the larger volume, or the same volume
    and the smaller decode index. *)
Definition stable_descending (nodal_off_node_sizes : list Z) (p : list nat)
  : Prop :=
  forall i j, (i < j < length p)%nat ->
    nodal_off_node_sizes !!! (p !!! i) > nodal_off_node_sizes !!! (p !!! j) \/
    (nodal_off_node_sizes !!! (p !!! i) = nodal_off_node_sizes !!! (p !!! j) /\
     (p !!! i < p !!! j)%nat).

(** Two volumes handled by the same branch of the loop body, in the same
    regime of that branch ([vi] is the earlier, larger one). *)
Definition same_regime (c : TAPConfig) (ctr vi vj : Z) : Prop :=
  below_thresholds c ctr vj = true \/
  (vi <= eager_cutoff c /\ short_cutoff c < vj /\ ctr < PPN c) \/
  (eager_cutoff c < vj /\ Z.quot vi (eager_cutoff c) < PPN c) \/
  (eager_cutoff c < vj /\ PPN c <= Z.quot vj (eager_cutoff c)).

(** Executable form of the ordering half of the contract. *)
Fixpoint is_sorted_by (comp : nat -> nat -> bool) (l : list nat) : bool :=
  match l with
  | [] => true
  | x :: l' => forallb (fun y => negb (comp y x)) l' && is_sorted_by comp l'
  end.

(** Fan-outs that never grow along the final order. *)
Definition fanout_monotone (fanouts : list Z) : Prop :=
  forall i j, (i < j < length fanouts)%nat -> fanouts !!! j <= fanouts !!! i.

(** *** The in-place reordering follows the sort-then-copy reference *)

Lemma vswap_length v a b : length (vswap v a b) = length v.
Proof. unfold vswap. by rewrite !length_insert. Qed.

Lemma vswap_lookup v a b k :
  (a < length v)%nat -> (b < length v)%nat ->
  vswap v a b !!! k
  = if decide (k = b) then v !!! a
    else if decide (k = a) then v !!! b else v !!! k.
Proof.
  intros Ha Hb. unfold vswap.
  destruct (decide (k = b)) as [->|Hkb].
  - rewrite list_lookup_total_insert_eq; [done|by rewrite length_insert].
  - rewrite list_lookup_total_insert_ne by done.
    destruct (decide (k = a)) as [->|Hka].
    + by rewrite list_lookup_total_insert_eq.
    + by rewrite list_lookup_total_insert_ne.
Qed.

Lemma mark_lookup (d : list bool) j k :
  (j < length d)%nat ->
  <[j := true]> d !!! k = true <-> d !!! k = true \/ k = j.
Proof.
  intros Hj. destruct (decide (k = j)) as [->|Hne].
  - rewrite list_lookup_total_insert_eq by done. tauto.
  - rewrite list_lookup_total_insert_ne by done. intuition congruence.
Qed.

Lemma distinct_below_bound (n : nat) (vis : list nat) :
  NoDup vis -> (forall x, x ∈ vis -> (x < n)%nat) -> (length vis <= n)%nat.
Proof.
  intros Hnd Hlt.
  assert (Hsub : vis ⊆+ seq 0 n).
  2: { apply submseteq_length in Hsub. by rewrite length_seq in Hsub. }
  apply NoDup_submseteq; [done|].
  intros x Hx. apply list_elem_of_In, in_seq. specialize (Hlt x Hx). lia.
Qed.

Section reorder_correct.
Local Open Scope nat_scope.

Variables (n : nat) (p : list nat) (a0 b0 : list Z).
Hypothesis p_range : forall k, k < n -> p !!! k < n.
Hypothesis p_inj :
  forall k k', k < n -> k' < n -> p !!! k = p !!! k' -> k = k'.

(** Content of cell [k] once it is settled ([d = true]) or while it is
    still untouched. *)
Definition cell (d : bool) (v0 : list Z) (k : nat) : Z :=
  if d then v0 !!! (p !!! k) else v0 !!! k.

(** State of the outer loop between two cycles. *)
Definition between_cycles (s : Reorder) : Prop :=
  length (done s) = n /\ length (recv_nodes s) = n /\
  length (nodal_num_local s) = n /\
  (forall k, k < n -> done s !!! (p !!! k) = true -> done s !!! k = true) /\
  (forall k, k < n ->
     recv_nodes s !!! k = cell (done s !!! k) a0 k /\
     nodal_num_local s !!! k = cell (done s !!! k) b0 k).

(** Content of cell [k] while the cycle of [i] is being followed: the
    cell [prev_j] holds the entry that started at [i]. *)
Definition cell_in_cycle (d0 : list bool) (i prev_j : nat)
    (vis : list nat) (v0 : list Z) (k : nat) : Z :=
  if decide (k = prev_j) then v0 !!! i
  else if decide (k ∈ vis) then v0 !!! (p !!! k)
  else cell (d0 !!! k) v0 k.

(** State of the inner loop; [vis] lists the cells of the cycle seen so
    far and [d0] is [done] as it was before the cycle. *)
Definition within_cycle (d0 : list bool) (i prev_j : nat)
    (vis : list nat) (s : Reorder) : Prop :=
  length (done s) = n /\ length (recv_nodes s) = n /\
  length (nodal_num_local s) = n /\
  NoDup vis /\ i ∈ vis /\ prev_j ∈ vis /\
  (forall x, x ∈ vis -> x < n /\ d0 !!! x = false) /\
  (forall x, x ∈ vis -> x <> i ->
     exists y, y ∈ vis /\ y <> prev_j /\ p !!! y = x) /\
  (forall k, k < n -> done s !!! k = true <-> d0 !!! k = true \/ k ∈ vis) /\
  (forall k, k < n -> d0 !!! (p !!! k) = true -> d0 !!! k = true) /\
  (forall k, k < n ->
     recv_nodes s !!! k = cell_in_cycle d0 i prev_j vis a0 k /\
     nodal_num_local s !!! k = cell_in_cycle d0 i prev_j vis b0 k).

Lemma cell_settled d0 i prev_j vis (d : list bool) v0 k :
  i = p !!! prev_j ->
  (d !!! k = true <-> d0 !!! k = true \/ k ∈ vis) -> prev_j ∈ vis ->
  cell_in_cycle d0 i prev_j vis v0 k = cell (d !!! k) v0 k.
Proof.
  intros Hclose Hdone Hprev. unfold cell_in_cycle.
  destruct (decide (k = prev_j)) as [->|Hne].
  - rewrite (proj2 Hdone) by (by right). simpl. by rewrite Hclose.
  - destruct (decide (k ∈ vis)) as [Hin|Hout].
    + by rewrite (proj2 Hdone) by (by right).
    + destruct (d0 !!! k) eqn:Hd0.
      * by rewrite (proj2 Hdone) by (by left).
      * destruct (d !!! k) eqn:Hdk; [|done].
        destruct (proj1 Hdone eq_refl) as [Hold|Hin]; done.
Qed.

Lemma cycle_closed d0 i prev_j vis s :
  within_cycle d0 i prev_j vis s -> i = p !!! prev_j ->
  between_cycles s.
Proof.
  intros (Hd & Ha & Hb & Hnd & Hi & Hprev & Hvis & Hpred & Hdone & Hcl & Hcells)
         Hclose.
  split; [done|]. split; [done|]. split; [done|]. split.
  - intros k Hk Hpk.
    apply Hdone in Hpk; [|by apply p_range]. apply Hdone; [done|].
    destruct Hpk as [Hpk|Hpk]; [left; by apply Hcl|right].
    destruct (decide (p !!! k = i)) as [Heq|Hne].
    + assert (k = prev_j) as ->; [|done].
      apply p_inj; [done|by apply Hvis|congruence].
    + destruct (Hpred _ Hpk Hne) as (y & Hy & _ & Hpy).
      assert (k = y) as ->; [|done].
      apply p_inj; [done|by apply Hvis|congruence].
  - intros k Hk. destruct (Hcells k Hk) as [-> ->].
    split; apply cell_settled; auto.
Qed.

(** One swap moves the marker cell from [prev_j] to [j]. *)
Lemma cell_in_cycle_swap d0 i prev_j vis v0 v :
  let j := p !!! prev_j in
  length v = n -> prev_j < n -> prev_j ∈ vis -> j ∉ vis ->
  d0 !!! j = false ->
  (forall k, k < n -> v !!! k = cell_in_cycle d0 i prev_j vis v0 k) ->
  forall k, k < n ->
    vswap v prev_j j !!! k = cell_in_cycle d0 i j (j :: vis) v0 k.
Proof.
  intros j Hlen Hprev Hin Hout Hd0 Hcells k Hk.
  assert (Hj : j < n) by (by apply p_range).
  assert (Hne : prev_j <> j) by (intros Heq; apply Hout; by rewrite <- Heq).
  rewrite vswap_lookup by lia. unfold cell_in_cycle at 1.
  destruct (decide (k = j)) as [->|Hkj].
  - rewrite Hcells by done. unfold cell_in_cycle.
    by rewrite decide_True.
  - destruct (decide (k = prev_j)) as [->|Hkp].
    + rewrite Hcells by done. unfold cell_in_cycle.
      rewrite decide_False by done. rewrite decide_False by done.
      rewrite Hd0. simpl.
      rewrite decide_True by (by apply list_elem_of_further).
      done.
    + rewrite Hcells by done. unfold cell_in_cycle.
      rewrite decide_False by done.
      destruct (decide (k ∈ vis)) as [Hkv|Hkv].
      * by rewrite decide_True by (by apply list_elem_of_further).
      * rewrite decide_False; [done|].
        rewrite elem_of_cons. intros [?|?]; done.
Qed.

Lemma cycle_step d0 i prev_j vis s :
  within_cycle d0 i prev_j vis s -> i <> p !!! prev_j ->
  within_cycle d0 i (p !!! prev_j) (p !!! prev_j :: vis)
    (mkReorder (vswap (recv_nodes s) prev_j (p !!! prev_j))
               (vswap (nodal_num_local s) prev_j (p !!! prev_j))
               (<[p !!! prev_j := true]> (done s))).
Proof.
  intros (Hd & Ha & Hb & Hnd & Hi & Hprev & Hvis & Hpred & Hdone & Hcl & Hcells)
         Hopen.
  set (j := p !!! prev_j) in *.
  destruct (Hvis _ Hprev) as [Hprev_lt Hprev_d0].
  assert (Hj : j < n) by (by apply p_range).
  assert (Hout : j ∉ vis).
  { intros Hin. destruct (Hpred j Hin) as (y & Hy & Hny & Hpy); [done|].
    apply Hny. apply p_inj; [by apply Hvis|done|done]. }
  assert (Hd0 : d0 !!! j = false).
  { destruct (d0 !!! j) eqn:E; [|done].
    rewrite (Hcl prev_j Hprev_lt E) in Hprev_d0. done. }
  unfold within_cycle. simpl.
  rewrite length_insert, !vswap_length.
  split; [done|]. split; [done|]. split; [done|].
  split; [by apply NoDup_cons|].
  split; [by apply list_elem_of_further|].
  split; [by apply list_elem_of_here|].
  split.
  { intros x [->|Hx]%elem_of_cons; [done|by apply Hvis]. }
  split.
  { intros x [->|Hx]%elem_of_cons Hxi.
    - exists prev_j. split; [by apply list_elem_of_further|].
      split; [|done]. intros Heq. apply Hout. by rewrite <- Heq.
    - destruct (Hpred x Hx Hxi) as (y & Hy & Hny & Hpy).
      exists y. split; [by apply list_elem_of_further|].
      split; [|done]. intros Heq. apply Hout. by rewrite <- Heq. }
  split.
  { intros k Hk. rewrite mark_lookup by lia.
    rewrite (Hdone k Hk), elem_of_cons. tauto. }
  split; [done|].
  intros k Hk. split.
  - apply cell_in_cycle_swap; try done. intros k' Hk'. by apply Hcells.
  - apply cell_in_cycle_swap; try done. intros k' Hk'. by apply Hcells.
Qed.

(** The inner loop ends, with the cycle of [i] settled. *)
Lemma follow_cycle_correct fuel : forall d0 i prev_j vis s,
  within_cycle d0 i prev_j vis s -> n < fuel + length vis ->
  exists s', follow_cycle fuel p i prev_j (p !!! prev_j) s = Some s' /\
    between_cycles s' /\ done s' !!! i = true /\
    (forall k, k < n -> d0 !!! k = true -> done s' !!! k = true).
Proof.
  induction fuel as [|fuel IH]; intros d0 i prev_j vis s Hin Hfuel.
  - exfalso.
    destruct Hin as (_ & _ & _ & Hnd & _ & _ & Hvis & _).
    pose proof (distinct_below_bound n vis Hnd (fun x Hx => proj1 (Hvis x Hx))).
    simpl in Hfuel. lia.
  - simpl. destruct (Nat.eqb_spec i (p !!! prev_j)) as [Hclose|Hopen].
    + exists s. split; [done|].
      split; [by eapply cycle_closed|].
      destruct Hin as (_ & _ & _ & _ & Hi & _ & Hvis & _ & Hdone & _).
      split.
      * apply Hdone; [by apply Hvis|by right].
      * intros k Hk Hdk. apply Hdone; [done|by left].
    + apply (IH d0 i (p !!! prev_j) (p !!! prev_j :: vis));
        [by apply cycle_step|]. simpl. lia.
Qed.

Lemma cycle_start s i :
  between_cycles s -> i < n -> done s !!! i = false ->
  within_cycle (done s) i i [i]
    (mkReorder (recv_nodes s) (nodal_num_local s) (<[i := true]> (done s))).
Proof.
  intros (Hd & Ha & Hb & Hcl & Hcells) Hi Hdi.
  unfold within_cycle. simpl. rewrite length_insert.
  split; [done|]. split; [done|]. split; [done|].
  split; [apply NoDup_singleton|].
  split; [by apply list_elem_of_here|].
  split; [by apply list_elem_of_here|].
  split.
  { intros x ->%list_elem_of_singleton. done. }
  split.
  { intros x ->%list_elem_of_singleton Hne. done. }
  split.
  { intros k Hk. rewrite mark_lookup by lia.
    by rewrite list_elem_of_singleton. }
  split; [done|].
  intros k Hk. unfold cell_in_cycle.
  destruct (decide (k = i)) as [->|Hne].
  - destruct (Hcells i Hi) as [-> ->]. by rewrite Hdi.
  - destruct (decide (k ∈ [i])) as [Hin|_]; [|by apply Hcells].
    by apply list_elem_of_singleton in Hin.
Qed.

(** The outer loop ends, and settles every position it was given. *)
Lemma reorder_loop_correct todo : forall s,
  between_cycles s -> (forall i, i ∈ todo -> i < n) ->
  exists s', reorder_loop n p todo s = Some s' /\
    between_cycles s' /\
    (forall k, k < n -> done s !!! k = true -> done s' !!! k = true) /\
    (forall i, i ∈ todo -> done s' !!! i = true).
Proof.
  induction todo as [|i todo IH]; intros s Hs Hlt.
  - exists s. split; [done|]. split; [done|]. split; [done|].
    intros i Hi. by apply elem_of_nil in Hi.
  - assert (Hi : i < n) by (apply Hlt; by apply list_elem_of_here).
    assert (Hrest : forall i', i' ∈ todo -> i' < n).
    { intros i' Hi'. apply Hlt. by apply list_elem_of_further. }
    simpl. destruct (done s !!! i) eqn:Hdi.
    + destruct (IH s Hs Hrest) as (s' & Hrun & Hs' & Hmono & Hall).
      exists s'. split; [done|]. split; [done|]. split; [done|].
      intros i' [->|Hi']%elem_of_cons; [by apply Hmono|by apply Hall].
    + destruct (follow_cycle_correct n (done s) i i [i] _
                  (cycle_start s i Hs Hi Hdi))
        as (s1 & Hrun1 & Hs1 & Hi1 & Hmono1); [simpl; lia|].
      rewrite Hrun1.
      destruct (IH s1 Hs1 Hrest) as (s' & Hrun & Hs' & Hmono & Hall).
      exists s'. split; [done|]. split; [done|].
      split.
      * intros k Hk Hdk. apply Hmono; [done|]. by apply Hmono1.
      * intros i' [->|Hi']%elem_of_cons; [by apply Hmono|by apply Hall].
Qed.

Lemma all_settled (v0 v : list Z) :
  length p = n -> length v = n ->
  (forall k, k < n -> v !!! k = v0 !!! (p !!! k)) ->
  v = sort_then_copy p v0.
Proof.
  intros Hp Hv Hcells. unfold sort_then_copy.
  apply (list_eq_same_length _ _ n); [by rewrite length_map|done|].
  intros k x y Hk Hx Hy.
  apply list_lookup_total_correct in Hx.
  change (map (fun k => v0 !!! k) p) with ((fun k => v0 !!! k) <$> p) in Hy.
  rewrite list_lookup_fmap in Hy.
  destruct (p !! k) as [pk|] eqn:Hpk; [|done].
  apply list_lookup_total_correct in Hpk. simpl in Hy.
  rewrite <- Hx, Hcells by done. congruence.
Qed.

(** The in-place loop returns, and returns the two vectors of the
    sort-then-copy reference. *)
Lemma reorder_in_place_correct :
  length p = n -> length a0 = n -> length b0 = n ->
  reorder_in_place n p a0 b0
  = Some (sort_then_copy p a0, sort_then_copy p b0).
Proof.
  intros Hp Ha Hb. unfold reorder_in_place.
  destruct (reorder_loop_correct (seq 0 n)
              (mkReorder a0 b0 (replicate n false)))
    as (s' & -> & Hs' & _ & Hall).
  { unfold between_cycles. simpl. rewrite length_replicate.
    split; [done|]. split; [done|]. split; [done|]. split.
    - intros k Hk. rewrite lookup_total_replicate_2 by (by apply p_range).
      done.
    - intros k Hk. by rewrite lookup_total_replicate_2. }
  { intros i Hi%elem_of_seq. lia. }
  destruct Hs' as (Hd & Hra & Hrb & _ & Hcells).
  f_equal. f_equal.
  - apply all_settled; [done|done|]. intros k Hk.
    destruct (Hcells k Hk) as [-> _].
    rewrite Hall; [done|]. apply elem_of_seq. lia.
  - apply all_settled; [done|done|]. intros k Hk.
    destruct (Hcells k Hk) as [_ ->].
    rewrite Hall; [done|]. apply elem_of_seq. lia.
Qed.

End reorder_correct.

(** A permutation of the index range, read as a function on positions. *)
Lemma index_perm_length (n : nat) (p : list nat) :
  Permutation (seq 0 n) p -> length p = n.
Proof. intros Hp. apply Permutation_length in Hp. by rewrite length_seq in Hp. Qed.

Lemma index_perm_range (n : nat) (p : list nat) :
  Permutation (seq 0 n) p -> forall k, (k < n)%nat -> (p !!! k < n)%nat.
Proof.
  intros Hp k Hk. pose proof (index_perm_length n p Hp) as Hlen.
  assert (Hin : p !!! k ∈ p) by (apply list_elem_of_lookup_total_2; lia).
  apply list_elem_of_In in Hin.
  apply (Permutation_in _ (Permutation_sym Hp)), in_seq in Hin. lia.
Qed.

Lemma index_perm_inj (n : nat) (p : list nat) :
  Permutation (seq 0 n) p ->
  forall k k', (k < n)%nat -> (k' < n)%nat -> p !!! k = p !!! k' -> k = k'.
Proof.
  intros Hp k k' Hk Hk' Heq. pose proof (index_perm_length n p Hp) as Hlen.
  assert (Hnd : NoDup p) by (rewrite <- Hp; apply NoDup_seq).
  apply (NoDup_lookup p k k' (p !!! k) Hnd).
  - apply list_lookup_lookup_total_lt. lia.
  - rewrite Heq. apply list_lookup_lookup_total_lt. lia.
Qed.

Lemma sort_then_copy_lookup (p : list nat) (v : list Z) i :
  (i < length p)%nat -> sort_then_copy p v !!! i = v !!! (p !!! i).
Proof.
  intros Hi. unfold sort_then_copy.
  apply list_lookup_total_correct.
  change (map (fun k => v !!! k) p) with ((fun k => v !!! k) <$> p).
  by rewrite list_lookup_fmap, (list_lookup_lookup_total_lt p i Hi).
Qed.

(** C8.  For every permutation [p] of the index range and every pair of
    vectors of that length, the in-place cycle-following loop ends and
    leaves both vectors equal to the ones a sort-then-copy produces:
    [out[i] = in[p[i]]] at every index [i]. *)
Theorem C8_in_place_reorder_is_sort_then_copy (p : list nat)
    (hosts fanouts : list Z) :
  Permutation (seq 0 (length hosts)) p ->
  length fanouts = length hosts ->
  exists out_hosts out_fanouts,
    reorder_in_place (length hosts) p hosts fanouts
      = Some (out_hosts, out_fanouts) /\
    out_hosts = sort_then_copy p hosts /\
    out_fanouts = sort_then_copy p fanouts /\
    forall i, (i < length hosts)%nat ->
      out_hosts !!! i = hosts !!! (p !!! i) /\
      out_fanouts !!! i = fanouts !!! (p !!! i).
Proof.
  intros Hp Hlen.
  exists (sort_then_copy p hosts), (sort_then_copy p fanouts).
  pose proof (index_perm_length _ _ Hp) as Hpl.
  split.
  - apply reorder_in_place_correct;
      [by apply index_perm_range|by apply index_perm_inj|done|done|done].
  - split; [done|]. split; [done|].
    intros i Hi. split; apply sort_then_copy_lookup; lia.
Qed.

(** Five hosts, a permutation with a 3-cycle and a 2-cycle. *)
Lemma C8_in_place_reorder_witness :
  reorder_in_place 5 [2; 0; 1; 4; 3]%nat [10; 11; 12; 13; 14]
                   [20; 21; 22; 23; 24]
  = Some ([12; 10; 11; 14; 13], [22; 20; 21; 24; 23]).
Proof.
  assert (Hp : Permutation (seq 0 (length [10; 11; 12; 13; 14]))
                           [2; 0; 1; 4; 3]%nat).
  { apply (bool_decide_unpack _). vm_compute. exact I. }
  destruct (C8_in_place_reorder_is_sort_then_copy
              [2; 0; 1; 4; 3]%nat [10; 11; 12; 13; 14] [20; 21; 22; 23; 24]
              Hp eq_refl) as (oh & ofa & Hrun & -> & -> & _).
  exact Hrun.
Defined.

(** *** The fan-out loop *)

Lemma below_thresholds_rule c ctr size :
  below_thresholds c ctr size = true -> fanout_rule c ctr size = 1.
Proof.
  unfold below_thresholds, fanout_rule.
  destruct (size >? eager_cutoff c); [done|].
  destruct ((size >? short_cutoff c) && (ctr <? PPN c)); done.
Qed.

Lemma below_thresholds_down c ctr size size' :
  size' <= size -> below_thresholds c ctr size = true ->
  below_thresholds c ctr size' = true.
Proof.
  unfold below_thresholds. intros Hle.
  destruct (Z.gtb_spec size (eager_cutoff c)); [done|].
  destruct (Z.gtb_spec size' (eager_cutoff c)); [lia|].
  destruct (Z.ltb_spec ctr (PPN c)); simpl.
  - destruct (Z.gtb_spec size (short_cutoff c)); [done|].
    destruct (Z.gtb_spec size' (short_cutoff c)); [lia|done].
  - by rewrite !andb_false_r.
Qed.

Lemma assign_fanout_go c ctr sizes idx p v :
  below_thresholds c ctr (sizes !!! idx) = false ->
  assign_fanout c ctr sizes (idx :: p) v
  = assign_fanout c ctr sizes p
      (<[idx := fanout_rule c ctr (sizes !!! idx)]> v).
Proof.
  unfold below_thresholds, fanout_rule. simpl.
  destruct (sizes !!! idx >? eager_cutoff c); [done|].
  destruct ((sizes !!! idx >? short_cutoff c) && (ctr <? PPN c)); done.
Qed.

(** The [break]: nothing after a host below both thresholds is looked at. *)
Lemma assign_fanout_break c ctr sizes idx p v :
  below_thresholds c ctr (sizes !!! idx) = true ->
  assign_fanout c ctr sizes (idx :: p) v = v.
Proof.
  unfold below_thresholds. simpl.
  destruct (sizes !!! idx >? eager_cutoff c); [done|].
  destruct ((sizes !!! idx >? short_cutoff c) && (ctr <? PPN c)); done.
Qed.

Lemma assign_fanout_length c ctr sizes p : forall v,
  length (assign_fanout c ctr sizes p v) = length v.
Proof.
  induction p as [|idx p IH]; intros v; [done|].
  destruct (below_thresholds c ctr (sizes !!! idx)) eqn:Hb.
  - by rewrite assign_fanout_break.
  - by rewrite assign_fanout_go, IH, length_insert.
Qed.

(** Along a list of distinct indices of non-increasing volume, the loop
    gives every index the fan-out of the rule and touches nothing else. *)
Lemma assign_fanout_sorted c ctr sizes p : forall v,
  NoDup p ->
  (forall idx, idx ∈ p -> (idx < length v)%nat /\ v !!! idx = 1) ->
  StronglySorted (fun a b => sizes !!! b <= sizes !!! a) p ->
  (forall idx, idx ∈ p ->
     assign_fanout c ctr sizes p v !!! idx
     = fanout_rule c ctr (sizes !!! idx)) /\
  (forall k, k ∉ p -> assign_fanout c ctr sizes p v !!! k = v !!! k).
Proof.
  induction p as [|idx p IH]; intros v Hnd Hones Hsorted.
  - split; [|done]. intros idx Hin. by apply elem_of_nil in Hin.
  - apply NoDup_cons in Hnd as [Hfresh Hnd].
    apply StronglySorted_inv in Hsorted as [Hsorted Hle].
    rewrite Forall_forall in Hle.
    destruct (below_thresholds c ctr (sizes !!! idx)) eqn:Hb.
    + rewrite assign_fanout_break by done. split; [|done].
      intros idx' Hin. rewrite (proj2 (Hones idx' Hin)).
      symmetry. apply below_thresholds_rule.
      apply elem_of_cons in Hin as [->|Hin]; [done|].
      apply (below_thresholds_down c ctr (sizes !!! idx)); [|done].
      by apply Hle.
    + rewrite assign_fanout_go by done.
      destruct (IH (<[idx := fanout_rule c ctr (sizes !!! idx)]> v))
        as [IHin IHout]; [done| |done|].
      { intros idx' Hin. rewrite length_insert.
        assert (idx <> idx') by (intros ->; done).
        rewrite list_lookup_total_insert_ne by done.
        apply Hones. by apply list_elem_of_further. }
      split.
      * intros idx' [->|Hin]%elem_of_cons; [|by apply IHin].
        rewrite IHout by done.
        apply list_lookup_total_insert_eq.
        apply Hones. by apply list_elem_of_here.
      * intros k [Hne Hout]%not_elem_of_cons.
        rewrite IHout by done.
        by rewrite list_lookup_total_insert_ne.
Qed.

(** The contract of the sort, read as non-increasing volumes. *)
Lemma sorted_by_volume_strongly sizes (p : list nat) :
  (forall i j x y, (i < j)%nat ->
     p !! i = Some x -> p !! j = Some y -> volume_gt sizes y x = false) ->
  StronglySorted (fun a b => sizes !!! b <= sizes !!! a) p.
Proof.
  induction p as [|a p IH]; intros Hsorted; constructor.
  - apply IH. intros i j x y Hij Hx Hy.
    apply (Hsorted (S i) (S j) x y); [lia|done|done].
  - apply Forall_lookup. intros j y Hy.
    specialize (Hsorted 0%nat (S j) a y ltac:(lia) eq_refl Hy).
    unfold volume_gt in Hsorted.
    destruct (Z.gtb_spec (sizes !!! y) (sizes !!! a)); [done|lia].
Qed.

Lemma sorted_by_volume_descending sizes (p : list nat) :
  sorted_by_volume sizes p ->
  forall i j, (i < j < length p)%nat ->
    sizes !!! (p !!! j) <= sizes !!! (p !!! i).
Proof.
  intros [_ Hsorted] i j Hij.
  specialize (Hsorted i j (p !!! i) (p !!! j) ltac:(lia)).
  rewrite !list_lookup_lookup_total_lt in Hsorted by lia.
  specialize (Hsorted eq_refl eq_refl). unfold volume_gt in Hsorted.
  destruct (Z.gtb_spec (sizes !!! (p !!! j)) (sizes !!! (p !!! i)));
    [done|lia].
Qed.

Lemma sort_then_copy_permutation (p : list nat) (v : list Z) :
  Permutation (seq 0 (length v)) p -> Permutation v (sort_then_copy p v).
Proof.
  intros Hp. unfold sort_then_copy.
  rewrite <- Hp.
  assert (Hid : map (fun k => v !!! k) (seq 0 (length v)) = v);
    [|by rewrite Hid].
  apply (list_eq_same_length _ _ (length v));
    [done|by rewrite length_map, length_seq|].
  intros k x y Hk Hx Hy.
  change (map (fun k => v !!! k) (seq 0 (length v)))
    with ((fun k => v !!! k) <$> seq 0 (length v)) in Hx.
  rewrite list_lookup_fmap, lookup_seq_lt in Hx by done.
  apply list_lookup_total_correct in Hy. simpl in Hx. congruence.
Qed.

(** What [load_balance] returns for any outcome of the sort: the hosts in
    the order of [p], each with the fan-out of the rule for its volume. *)
Lemma load_balance_correct c (p : list nat) (recv_nodes0 sizes : list Z) :
  length sizes = length recv_nodes0 -> sorted_by_volume sizes p ->
  let ctr := length recv_nodes0 in
  let fan := assign_fanout c (Z.of_nat ctr) sizes p (replicate ctr 1) in
  load_balance c p recv_nodes0 sizes []
    = Some (sort_then_copy p recv_nodes0, sort_then_copy p fan) /\
  forall k, (k < ctr)%nat ->
    sort_then_copy p recv_nodes0 !!! k = recv_nodes0 !!! (p !!! k) /\
    sort_then_copy p fan !!! k
    = fanout_rule c (Z.of_nat ctr) (sizes !!! (p !!! k)).
Proof.
  intros Hlen Hsort ctr fan.
  assert (Hp : Permutation (seq 0 ctr) p).
  { destruct Hsort as [Hp _]. by rewrite Hlen in Hp. }
  pose proof (index_perm_length _ _ Hp) as Hpl.
  assert (Hfan : length fan = ctr).
  { unfold fan. by rewrite assign_fanout_length, length_replicate. }
  split.
  - unfold load_balance. fold ctr.
    assert (Hres : resize ctr 1 [] = replicate ctr 1)
      by (by rewrite resize_nil).
    rewrite Hres. fold fan.
    apply reorder_in_place_correct;
      [by apply index_perm_range|by apply index_perm_inj|done|done|done].
  - intros k Hk. rewrite !sort_then_copy_lookup by lia.
    split; [done|].
    pose proof (index_perm_range _ _ Hp k Hk) as Hpk.
    destruct (assign_fanout_sorted c (Z.of_nat ctr) sizes p (replicate ctr 1))
      as [Hin _].
    + rewrite <- Hp. apply NoDup_seq.
    + intros idx Hidx. rewrite length_replicate.
      apply list_elem_of_In in Hidx.
      apply (Permutation_in _ (Permutation_sym Hp)), in_seq in Hidx.
      split; [lia|]. apply lookup_total_replicate_2. lia.
    + apply sorted_by_volume_strongly. by destruct Hsort.
    + apply Hin. apply list_elem_of_lookup_total_2. lia.
Qed.

Lemma is_sorted_by_sound comp (l : list nat) :
  is_sorted_by comp l = true ->
  forall i j x y, (i < j)%nat ->
    l !! i = Some x -> l !! j = Some y -> comp y x = false.
Proof.
  induction l as [|a l IH]; intros Hchk i j x y Hij Hx Hy; [done|].
  simpl in Hchk. apply andb_prop in Hchk as [Hhead Htail].
  destruct j as [|j]; [lia|]. simpl in Hy.
  destruct i as [|i].
  - simpl in Hx. injection Hx as <-.
    rewrite forallb_forall in Hhead.
    apply negb_true_iff, Hhead, list_elem_of_In.
    by apply list_elem_of_lookup_2 with j.
  - simpl in Hx. apply (IH Htail i j); [lia|done|done].
Qed.

Lemma sorted_by_volume_check sizes (p : list nat) :
  bool_decide (Permutation (seq 0 (length sizes)) p)
  && is_sorted_by (volume_gt sizes) p = true ->
  sorted_by_volume sizes p.
Proof.
  intros [Hperm Hsorted]%andb_prop. split.
  - by apply bool_decide_eq_true in Hperm.
  - by apply is_sorted_by_sound.
Qed.

Lemma fanout_rule_positive c ctr size :
  0 < eager_cutoff c -> 0 < short_cutoff c ->
  1 <= ideal_n_comm c -> 1 <= PPN c ->
  1 <= fanout_rule c ctr size.
Proof.
  intros He Hs Hi Hp. unfold fanout_rule.
  destruct (Z.gtb_spec size (eager_cutoff c)).
  - destruct (Z.geb_spec (Z.quot size (eager_cutoff c)) (PPN c)); [done|].
    apply Z.quot_le_lower_bound; lia.
  - destruct (Z.gtb_spec size (short_cutoff c)); simpl; [|done].
    destruct (Z.ltb_spec ctr (PPN c)); [|done].
    destruct (Z.geb_spec (Z.quot size (short_cutoff c)) (PPN c)); [done|].
    apply Z.quot_le_lower_bound; lia.
Qed.

Lemma fanout_rule_same_regime c ctr vi vj :
  0 < eager_cutoff c -> 0 < short_cutoff c ->
  1 <= ideal_n_comm c -> 1 <= PPN c ->
  vj <= vi -> same_regime c ctr vi vj ->
  fanout_rule c ctr vj <= fanout_rule c ctr vi.
Proof.
  intros He Hs Hi Hp Hle [Hb|[(Hv & Hw & Hc)|[(Hv & Hq)|(Hv & Hq)]]].
  - rewrite (below_thresholds_rule c ctr vj Hb).
    by apply fanout_rule_positive.
  - unfold fanout_rule.
    destruct (Z.gtb_spec vi (eager_cutoff c)); [lia|].
    destruct (Z.gtb_spec vj (eager_cutoff c)); [lia|].
    destruct (Z.gtb_spec vi (short_cutoff c)); [|lia].
    destruct (Z.gtb_spec vj (short_cutoff c)); [|lia].
    destruct (Z.ltb_spec ctr (PPN c)); [|lia]. simpl.
    pose proof (Z.quot_le_mono vj vi (short_cutoff c) Hs Hle).
    destruct (Z.geb_spec (Z.quot vi (short_cutoff c)) (PPN c));
      destruct (Z.geb_spec (Z.quot vj (short_cutoff c)) (PPN c)); lia.
  - unfold fanout_rule.
    destruct (Z.gtb_spec vi (eager_cutoff c)); [|lia].
    destruct (Z.gtb_spec vj (eager_cutoff c)); [|lia].
    pose proof (Z.quot_le_mono vj vi (eager_cutoff c) He Hle).
    destruct (Z.geb_spec (Z.quot vi (eager_cutoff c)) (PPN c));
      destruct (Z.geb_spec (Z.quot vj (eager_cutoff c)) (PPN c)); lia.
  - unfold fanout_rule.
    destruct (Z.gtb_spec vi (eager_cutoff c)); [|lia].
    destruct (Z.gtb_spec vj (eager_cutoff c)); [|lia].
    pose proof (Z.quot_le_mono vj vi (eager_cutoff c) He Hle).
    destruct (Z.geb_spec (Z.quot vi (eager_cutoff c)) (PPN c));
      destruct (Z.geb_spec (Z.quot vj (eager_cutoff c)) (PPN c)); lia.
Qed.

(** *** The decoded host list is in ascending order of host id *)

Lemma strictly_increasing_app (l1 l2 : list Z) (bound : Z) :
  StronglySorted Z.lt l1 -> StronglySorted Z.lt l2 ->
  (forall x, x ∈ l1 -> x < bound) -> (forall y, y ∈ l2 -> bound <= y) ->
  StronglySorted Z.lt (l1 ++ l2).
Proof.
  intros H1 H2 Hlow Hhigh. induction H1 as [|a l1 Hs IH Hall]; [done|].
  simpl. constructor.
  - apply IH. intros x Hx. apply Hlow. by apply list_elem_of_further.
  - apply Forall_app. split; [done|].
    apply Forall_forall. intros y Hy.
    pose proof (Hlow a ltac:(apply list_elem_of_here)).
    pose proof (Hhigh y Hy). lia.
Qed.

Lemma decode_word_increasing (i : nat) (w : Z) :
  StronglySorted Z.lt (decode_word i w) /\
  forall x, x ∈ decode_word i w ->
    Z.of_nat i * int_size <= x < Z.of_nat (S i) * int_size.
Proof.
  unfold decode_word, int_size. change (Z.to_nat 4) with 4%nat.
  cbn [seq map concat].
  destruct (Z.land (Z.shiftr w (Z.of_nat 0)) 1 =? 0);
    destruct (Z.land (Z.shiftr w (Z.of_nat 1)) 1 =? 0);
    destruct (Z.land (Z.shiftr w (Z.of_nat 2)) 1 =? 0);
    destruct (Z.land (Z.shiftr w (Z.of_nat 3)) 1 =? 0);
    cbn [app];
    (split;
     [repeat (constructor; [|repeat (constructor; [lia|])]); constructor
     |intros x Hx; repeat (apply elem_of_cons in Hx as [->|Hx]; [lia|]);
      by apply elem_of_nil in Hx]).
Qed.

Lemma decode_from_increasing (ws : list Z) : forall first : nat,
  StronglySorted Z.lt (concat (imap (fun i => decode_word (first + i)) ws)) /\
  forall x, x ∈ concat (imap (fun i => decode_word (first + i)) ws) ->
    Z.of_nat first * int_size <= x.
Proof.
  induction ws as [|w ws IH]; intros first.
  - split; [constructor|]. intros x Hx. by apply elem_of_nil in Hx.
  - rewrite imap_cons, concat_cons, Nat.add_0_r.
    destruct (decode_word_increasing first w) as [Hw Hrange].
    assert (Hshift :
      imap ((fun i => decode_word (first + i)) ∘ S) ws
      = imap (fun i => decode_word (S first + i)) ws).
    { apply imap_ext. intros i x _. simpl. f_equal. lia. }
    rewrite Hshift. destruct (IH (S first)) as [Hrest Hlow].
    split.
    + apply (strictly_increasing_app _ _ (Z.of_nat (S first) * int_size));
        [done|done| |done].
      intros x Hx. by apply Hrange.
    + intros x [Hx|Hx]%elem_of_app.
      * by apply Hrange.
      * specialize (Hlow x Hx). unfold int_size in *. lia.
Qed.

(** The decoding loop lists the marked hosts by strictly increasing id;
    no host appears twice. *)
Lemma decode_bitmap_increasing (nodal_recv_nodes : list Z) :
  StronglySorted Z.lt (decode_bitmap nodal_recv_nodes).
Proof. apply (decode_from_increasing nodal_recv_nodes 0). Qed.

(** When some host was marked, [gather_off_node_nodes] is [load_balance]
    on the decoded host list and the summed volumes. *)
Lemma gather_off_node_nodes_balance c (sort : list Z -> list nat)
    (locals : list (list Z)) (nodal_num_local0 : list Z) :
  let marks := map (mark_nodes c) locals in
  let hosts := decode_bitmap (allreduce Z.lor (bitmap_words c)
                                        (map fst marks)) in
  let sizes := allreduce Z.add (length hosts)
                 (map (fun m : list Z * list Z =>
                         map (fun node => m.2 !!! Z.to_nat node) hosts)
                      marks) in
  hosts <> [] ->
  gather_off_node_nodes c sort locals nodal_num_local0
  = load_balance c (sort sizes) hosts sizes nodal_num_local0.
Proof.
  intros marks hosts sizes Hne. unfold gather_off_node_nodes.
  fold marks. fold hosts. fold sizes.
  destruct hosts; [done|]. reflexivity.
Qed.

(** Two processes of one host, eight hosts in all: the hosts 1, 5 and 7
    are marked, with summed volumes 1, 3 and 5. *)
Example gather_off_node_nodes_run :
  gather_off_node_nodes (mkTAPConfig 1 4 8 1000 62 4)
    (fun _ => [2; 1; 0]%nat) [[1; 5; 5; 7]; [5; 7; 7; 7; 7]] []
  = Some ([7; 5; 1], [1; 1; 1]) /\
  sorted_by_volume [1; 3; 5] [2; 1; 0]%nat.
Proof. split; [reflexivity|by apply sorted_by_volume_check]. Qed.

(** *** Claims on the load balancer *)

(** With an ideal fan-out above [PPN] the eager rule hands out more
    receiving processes than the host has: [PPN = 2], ideal fan-out 4 and
    a host of volume 5000 (eager threshold 1000) end with fan-out 4.  The
    short-message rule caps at [PPN]; the eager rule has no such cap. *)
Lemma fanout_above_PPN :
  sorted_by_volume [5000] [0%nat] /\
  load_balance (mkTAPConfig 1 2 8 1000 62 4) [0%nat] [3] [5000] []
    = Some ([3], [4]) /\
  PPN (mkTAPConfig 1 2 8 1000 62 4) < 4.
Proof.
  split; [by apply sorted_by_volume_check|].
  split; [reflexivity|simpl; lia].
Qed.

(** C3 (as stated, refuted).  With [PPN = 16] and an ideal fan-out of 4,
    which is within [PPN], a host of volume 10000 (eager threshold 1000)
    ends with fan-out 10: the quotient, above the ideal fan-out 4 at
    which the specification caps it. *)
Lemma C3_counterexample_fanout_caps :
  sorted_by_volume [10000] [0%nat] /\
  ideal_n_comm (mkTAPConfig 1 16 8 1000 62 4)
    <= PPN (mkTAPConfig 1 16 8 1000 62 4) /\
  load_balance (mkTAPConfig 1 16 8 1000 62 4) [0%nat] [3] [10000] []
    = Some ([3], [10]) /\
  fanout_as_specified (mkTAPConfig 1 16 8 1000 62 4) 1 10000 = 4.
Proof.
  split; [by apply sorted_by_volume_check|].
  split; [simpl; lia|]. split; reflexivity.
Qed.

(** C3 (amended).  [load_balance] returns the hosts in the order of the
    sort, and the host at position [k], of aggregate volume [v], has this
    fan-out: above the eager threshold, [v / eager_cutoff] when that
    quotient is below [PPN] and the ideal fan-out otherwise; else, above
    the short-message threshold and with fewer hosts than [PPN],
    [v / short_cutoff] capped at [PPN]; else exactly 1, as has every host
    after it.  With [PPN] at least 1 and an ideal fan-out within [PPN],
    no fan-out exceeds [PPN]. *)
Theorem C3_fanout_rule_of_the_code c (p : list nat)
    (recv_nodes0 sizes : list Z) :
  length sizes = length recv_nodes0 -> sorted_by_volume sizes p ->
  exists hosts fanouts,
    load_balance c p recv_nodes0 sizes [] = Some (hosts, fanouts) /\
    forall k, (k < length recv_nodes0)%nat ->
      let v := sizes !!! (p !!! k) in
      let ctr := Z.of_nat (length recv_nodes0) in
      hosts !!! k = recv_nodes0 !!! (p !!! k) /\
      (eager_cutoff c < v ->
         fanouts !!! k = if Z.quot v (eager_cutoff c) >=? PPN c
                         then ideal_n_comm c
                         else Z.quot v (eager_cutoff c)) /\
      (v <= eager_cutoff c -> short_cutoff c < v -> ctr < PPN c ->
         fanouts !!! k = Z.min (Z.quot v (short_cutoff c)) (PPN c)) /\
      (v <= eager_cutoff c -> v <= short_cutoff c \/ PPN c <= ctr ->
         forall k', (k <= k' < length recv_nodes0)%nat -> fanouts !!! k' = 1) /\
      (1 <= PPN c -> ideal_n_comm c <= PPN c -> fanouts !!! k <= PPN c).
Proof.
  intros Hlen Hsort.
  destruct (load_balance_correct c p recv_nodes0 sizes Hlen Hsort)
    as [Hrun Hcells].
  eexists _, _. split; [exact Hrun|].
  intros k Hk. cbv zeta. destruct (Hcells k Hk) as [Hhost Hfan].
  split; [done|]. rewrite Hfan.
  set (v := sizes !!! (p !!! k)).
  set (ctr := Z.of_nat (length recv_nodes0)).
  split; [|split; [|split]].
  - intros Hv. unfold fanout_rule.
    by destruct (Z.gtb_spec v (eager_cutoff c)); [|lia].
  - intros Hv Hw Hc. unfold fanout_rule.
    destruct (Z.gtb_spec v (eager_cutoff c)); [lia|].
    destruct (Z.gtb_spec v (short_cutoff c)); [|lia].
    destruct (Z.ltb_spec ctr (PPN c)); [|lia]. simpl.
    destruct (Z.geb_spec (Z.quot v (short_cutoff c)) (PPN c)); lia.
  - intros Hv Hw k' Hk'. subst ctr.
    destruct (Hcells k' ltac:(lia)) as [_ ->].
    set (ctr := Z.of_nat (length recv_nodes0)) in *.
    apply below_thresholds_rule.
    apply (below_thresholds_down c _ v).
    + destruct (decide (k = k')) as [->|Hne]; [done|].
      apply sorted_by_volume_descending; [done|].
      destruct Hsort as [Hp _]. apply Permutation_length in Hp.
      rewrite length_seq in Hp. lia.
    + unfold below_thresholds.
      destruct (Z.gtb_spec v (eager_cutoff c)); [lia|].
      destruct (Z.gtb_spec v (short_cutoff c));
        destruct (Z.ltb_spec ctr (PPN c)); simpl; try done; lia.
  - intros Hp Hideal. unfold fanout_rule.
    destruct (v >? eager_cutoff c).
    + destruct (Z.geb_spec (Z.quot v (eager_cutoff c)) (PPN c)); lia.
    + destruct ((v >? short_cutoff c) && (ctr <? PPN c)); [|lia].
      destruct (Z.geb_spec (Z.quot v (short_cutoff c)) (PPN c)); lia.
Qed.

(** Three hosts of volumes 70, 2500 and 40 with the thresholds 1000 and
    62, [PPN = 4]: fan-outs 2, 1 and 1 in the order of the volumes. *)
Lemma C3_fanout_rule_witness :
  load_balance (mkTAPConfig 1 4 8 1000 62 4) [1; 0; 2]%nat [3; 5; 6]
               [70; 2500; 40] []
  = Some ([5; 3; 6], [2; 1; 1]).
Proof.
  destruct (C3_fanout_rule_of_the_code (mkTAPConfig 1 4 8 1000 62 4)
              [1; 0; 2]%nat [3; 5; 6] [70; 2500; 40] eq_refl
              (sorted_by_volume_check [70; 2500; 40] [1; 0; 2]%nat eq_refl))
    as (hosts & fanouts & Hrun & _).
  rewrite Hrun. vm_compute in Hrun. by injection Hrun as <- <-.
Defined.

(** C2 (as stated, refuted).  Two hosts of volumes 1001 and 1000 with the
    thresholds 1000 and 62 and [PPN = 4]: the first gets
    [1001 / 1000 = 1], the second [1000 / 62] capped at 4. *)
Lemma C2_counterexample_fanout_not_monotone :
  sorted_by_volume [1001; 1000] [0; 1]%nat /\
  load_balance (mkTAPConfig 1 4 8 1000 62 4) [0; 1]%nat [3; 5]
               [1001; 1000] []
    = Some ([3; 5], [1; 4]) /\
  ~ fanout_monotone [1; 4].
Proof.
  split; [by apply sorted_by_volume_check|]. split; [reflexivity|].
  intros Hmono. specialize (Hmono 0%nat 1%nat ltac:(simpl; lia)).
  vm_compute in Hmono. by apply Hmono.
Qed.

(** C2 (amended).  With positive thresholds, ideal fan-out and [PPN], the
    host at position [i] of the final order has at least the fan-out of
    the host at a later position [j] whenever [j] is below both
    thresholds, or both are handled by the short-message branch, or both
    by the eager branch on the same side of its [PPN] test. *)
Theorem C2_fanout_monotone_within_regime c (p : list nat)
    (recv_nodes0 sizes : list Z) :
  0 < eager_cutoff c -> 0 < short_cutoff c ->
  1 <= ideal_n_comm c -> 1 <= PPN c ->
  length sizes = length recv_nodes0 -> sorted_by_volume sizes p ->
  exists hosts fanouts,
    load_balance c p recv_nodes0 sizes [] = Some (hosts, fanouts) /\
    forall i j, (i < j < length recv_nodes0)%nat ->
      same_regime c (Z.of_nat (length recv_nodes0))
                  (sizes !!! (p !!! i)) (sizes !!! (p !!! j)) ->
      fanouts !!! j <= fanouts !!! i.
Proof.
  intros He Hs Hi Hp Hlen Hsort.
  destruct (load_balance_correct c p recv_nodes0 sizes Hlen Hsort)
    as [Hrun Hcells].
  eexists _, _. split; [exact Hrun|].
  intros i j Hij Hsame.
  destruct (Hcells i ltac:(lia)) as [_ ->].
  destruct (Hcells j ltac:(lia)) as [_ ->].
  apply fanout_rule_same_regime; try done.
  apply sorted_by_volume_descending; [done|].
  destruct Hsort as [Hperm _]. apply Permutation_length in Hperm.
  rewrite length_seq in Hperm. lia.
Qed.

(** Volumes 3000, 2000 and 50: both eager hosts stay below [PPN = 4], the
    third is below both thresholds. *)
Lemma C2_fanout_monotone_witness :
  load_balance (mkTAPConfig 1 4 8 1000 62 4) [0; 1; 2]%nat [3; 5; 6]
               [3000; 2000; 50] []
  = Some ([3; 5; 6], [3; 2; 1]) /\ fanout_monotone [3; 2; 1].
Proof.
  destruct (C2_fanout_monotone_within_regime (mkTAPConfig 1 4 8 1000 62 4)
              [0; 1; 2]%nat [3; 5; 6] [3000; 2000; 50]
              ltac:(simpl; lia) ltac:(simpl; lia) ltac:(simpl; lia)
              ltac:(simpl; lia) eq_refl
              (sorted_by_volume_check [3000; 2000; 50] [0; 1; 2]%nat eq_refl))
    as (hosts & fanouts & Hrun & Hmono).
  vm_compute in Hrun. injection Hrun as <- <-.
  split; [reflexivity|].
  intros i j Hij. apply Hmono; [simpl in *; lia|].
  simpl in Hij.
  destruct j as [|[|[|j]]]; [lia| | |lia].
  - destruct i as [|i]; [|lia]. right. right. left. vm_compute. done.
  - left. destruct i as [|[|i]]; [done|done|lia].
Defined.

(** C9 (as stated, refuted).  For two hosts of equal volume 5 the
    contract of [std::sort] admits the order [1; 0]; [load_balance] then
    returns host 6 before host 2, against their decode order.  For
    seventeen hosts of equal volume it admits the order that moving the
    middle entry to the front and partitioning by swaps from both ends
    leaves, which is far from the decode order. *)
Lemma C9_counterexample_ties_not_stable :
  sorted_by_volume [5; 5] [1; 0]%nat /\
  load_balance (mkTAPConfig 1 4 8 1000 62 4) [1; 0]%nat [2; 6] [5; 5] []
    = Some ([6; 2], [1; 1]) /\
  ~ stable_descending [5; 5] [1; 0]%nat /\
  let p17 := [8; 16; 15; 14; 13; 12; 11; 10; 9; 0; 7; 6; 5; 4; 3; 2; 1]%nat in
  sorted_by_volume (replicate 17 5) p17 /\
  load_balance (mkTAPConfig 1 4 32 1000 62 4) p17
               (map Z.of_nat (seq 0 17)) (replicate 17 5) []
    = Some (map Z.of_nat p17, replicate 17 1) /\
  ~ stable_descending (replicate 17 5) p17.
Proof.
  split; [by apply sorted_by_volume_check|]. split; [reflexivity|].
  split.
  { intros Hst.
    destruct (Hst 0%nat 1%nat ltac:(simpl; lia)) as [Hgt|[_ Hlt]].
    - vm_compute in Hgt. done.
    - vm_compute in Hlt. lia. }
  cbv zeta. split; [by apply sorted_by_volume_check|].
  split; [by vm_compute|].
  intros Hst. destruct (Hst 1%nat 2%nat) as [Hgt|[_ Hlt]].
  - simpl. lia.
  - vm_compute in Hgt. done.
  - vm_compute in Hlt. lia.
Qed.

(** C9 (amended).  For every outcome of the sort, the host order returned
    by [load_balance] is a permutation of the decoded host list in which
    no host has a smaller aggregate volume than a later one; hosts of
    different volumes are therefore in strictly descending order, and
    nothing is said on the relative order of hosts of equal volume. *)
Theorem C9_hosts_sorted_by_descending_volume c (p : list nat)
    (recv_nodes0 sizes : list Z) :
  length sizes = length recv_nodes0 -> sorted_by_volume sizes p ->
  exists hosts fanouts,
    load_balance c p recv_nodes0 sizes [] = Some (hosts, fanouts) /\
    Permutation recv_nodes0 hosts /\
    (forall k, (k < length recv_nodes0)%nat ->
       hosts !!! k = recv_nodes0 !!! (p !!! k)) /\
    (forall i j, (i < j < length recv_nodes0)%nat ->
       sizes !!! (p !!! j) <= sizes !!! (p !!! i)) /\
    (forall i j, (i < j < length recv_nodes0)%nat ->
       sizes !!! (p !!! i) <> sizes !!! (p !!! j) ->
       sizes !!! (p !!! j) < sizes !!! (p !!! i)).
Proof.
  intros Hlen Hsort.
  destruct (load_balance_correct c p recv_nodes0 sizes Hlen Hsort)
    as [Hrun Hcells].
  assert (Hp : Permutation (seq 0 (length recv_nodes0)) p).
  { destruct Hsort as [Hp _]. by rewrite Hlen in Hp. }
  pose proof (index_perm_length _ _ Hp) as Hpl.
  eexists _, _. split; [exact Hrun|].
  split; [by apply sort_then_copy_permutation|].
  split; [intros k Hk; by apply Hcells|].
  split.
  - intros i j Hij. apply sorted_by_volume_descending; [done|lia].
  - intros i j Hij Hne.
    pose proof (sorted_by_volume_descending sizes p Hsort i j ltac:(lia)).
    lia.
Qed.

(** Three hosts, two of them of equal volume, in one of the admitted
    orders. *)
Lemma C9_hosts_sorted_witness :
  load_balance (mkTAPConfig 1 4 8 1000 62 4) [1; 2; 0]%nat [2; 6; 7]
               [5; 9; 5] []
  = Some ([6; 7; 2], [1; 1; 1]).
Proof.
  destruct (C9_hosts_sorted_by_descending_volume
              (mkTAPConfig 1 4 8 1000 62 4) [1; 2; 0]%nat [2; 6; 7] [5; 9; 5]
              eq_refl
              (sorted_by_volume_check [5; 9; 5] [1; 2; 0]%nat eq_refl))
    as (hosts & fanouts & Hrun & _).
  rewrite Hrun. vm_compute in Hrun. by injection Hrun as <- <-.
Defined.

End LoadBalancer.

(** ** Message ledger *)
Module Ledger.

(** One recorded message: the partner and the buffer positions. *)
Record Message := mkMessage {
  partner : Z;
  positions : list Z
}.

(** Modelled from the spec: the [CommData] class behind [send_data] and
    [recv_data] is declared in [comm_pkg.hpp], which is not part of the
    sources at hand.  Following section 4.2, a ledger records messages in
    the order of the [add_msg] calls and is sealed by one [finalize], which
    computes the prefix offsets [indptr] and the flattened [indices].
    Only the form of [add_msg] that passes the positions is modelled; the
    functions embedded below use no other. *)
Record CommData := mkCommData {
  messages : list Message;
  sealed : bool;
  indptr : list nat;
  indices : list Z
}.

Definition fresh : CommData := mkCommData [] false [] [].

Definition num_msgs (d : CommData) : nat := length (messages d).

Definition size_msgs (d : CommData) : nat :=
  length (concat (map positions (messages d))).

Definition procs (d : CommData) : list Z := map partner (messages d).

(** Modelled from the spec: [add_msg(proc, msg_size, msg_indices)] records
    a message of [msg_size] positions read from [msg_indices]. *)
Definition add_msg (d : CommData) (proc : Z) (msg_size : nat)
    (msg_indices : list Z) : CommData :=
  mkCommData (messages d ++ [mkMessage proc (take msg_size msg_indices)])
             (sealed d) (indptr d) (indices d).

(** Prefix offsets of a list of message lengths, starting at [from]. *)
Fixpoint prefix_offsets (from : nat) (lens : list nat) : list nat :=
  match lens with
  | [] => [from]
  | n :: lens' => from :: prefix_offsets (from + n) lens'
  end.

(** Modelled from the spec: [finalize()] computes the prefix offsets and
    the flattened index array; it fails when called a second time. *)
Definition finalize (d : CommData) : option CommData :=
  if sealed d then None
  else Some (mkCommData (messages d) true
               (prefix_offsets 0 (map (fun m => length (positions m))
                                      (messages d)))
               (concat (map positions (messages d)))).

(** A ledger pair and the four stages of a package. *)
Record ParComm := mkParComm {
  send_data : CommData;
  recv_data : CommData
}.

Record TAPComm := mkTAPComm {
  local_L_par_comm : ParComm;
  local_S_par_comm : ParComm;
  local_R_par_comm : ParComm;
  global_par_comm : ParComm
}.

End Ledger.

(** ** Index rewrite *)
Module IndexRewrite.
Import Ledger.

(** [m[key]] of a [std::map<int, int>]: a missing key is inserted with the
    value 0, which is returned. *)
Definition map_at (m : gmap Z Z) (key : Z) : Z * gmap Z Z :=
  match m !! key with
  | Some v => (v, m)
  | None => (0, <[key := 0]> m)
  end.

(** The loop [for (i < size) m[buffer[i]] = i]. *)
Definition index_buffer (size : nat) (buffer : list Z) : gmap Z Z :=
  fold_left (fun m i => <[buffer !!! i := Z.of_nat i]> m) (seq 0 size) ∅.

(** The loop [for (i < size) v[i] = m[v[i]]] over the entries [v]. *)
Fixpoint rewrite_entries (m : gmap Z Z) (v : list Z) : list Z * gmap Z Z :=
  match v with
  | [] => ([], m)
  | idx :: v' =>
    let r := map_at m idx in
    let rest := rewrite_entries r.2 v' in
    (r.1 :: rest.1, rest.2)
  end.

(** Rewriting the first [size_msgs] entries of the index array of ledger
    [d] through the map built from the first [size] entries of [buffer]. *)
Definition rewrite_indices (size : nat) (buffer : list Z) (d : CommData)
  : CommData :=
  let m := index_buffer size buffer in
  mkCommData (messages d) (sealed d) (indptr d)
    ((rewrite_entries m (take (size_msgs d) (indices d))).1
     ++ drop (size_msgs d) (indices d)).

(** The loop [for (i < size_msgs) indices[i] -= first_local_row]. *)
Definition shift_indices (first_local_row : Z) (d : CommData) : CommData :=
  mkCommData (messages d) (sealed d) (indptr d)
    (map (fun idx => idx - first_local_row) (take (size_msgs d) (indices d))
     ++ drop (size_msgs d) (indices d)).

(** [TAPComm::adjust_send_indices]. *)
Definition adjust_send_indices (first_local_row : Z) (t : TAPComm) : TAPComm :=
  let S_send := shift_indices first_local_row (send_data (local_S_par_comm t)) in
  let S_recv := recv_data (local_S_par_comm t) in
  let G_send := rewrite_indices (size_msgs S_recv) (indices S_recv)
                  (send_data (global_par_comm t)) in
  let G_recv := recv_data (global_par_comm t) in
  let R_send := rewrite_indices (size_msgs G_recv) (indices G_recv)
                  (send_data (local_R_par_comm t)) in
  mkTAPComm (local_L_par_comm t)
            (mkParComm S_send S_recv)
            (mkParComm R_send (recv_data (local_R_par_comm t)))
            (mkParComm G_send G_recv).

(** A sealed ledger whose index array has the recorded total length. *)
Definition well_sealed (d : CommData) : Prop :=
  sealed d = true /\ length (indices d) = size_msgs d.

(** The value [m[key]] reads, whether or not the key is present. *)
Definition value_at (m : gmap Z Z) (key : Z) : Z := default 0 (m !! key).

Lemma map_at_value m key : (map_at m key).1 = value_at m key.
Proof. unfold map_at, value_at. by destruct (m !! key). Qed.

Lemma map_at_keeps_values m key k :
  value_at (map_at m key).2 k = value_at m k.
Proof.
  unfold map_at, value_at. destruct (m !! key) eqn:Hm; simpl; [done|].
  destruct (decide (key = k)) as [->|Hne].
  - by rewrite lookup_insert_eq, Hm.
  - by rewrite lookup_insert_ne.
Qed.

Lemma rewrite_entries_values v : forall m,
  (rewrite_entries m v).1 = map (value_at m) v.
Proof.
  induction v as [|idx v IH]; intros m; [done|].
  simpl. rewrite map_at_value, IH. f_equal.
  apply map_ext. intros k. apply map_at_keeps_values.
Qed.

Lemma index_buffer_S size buffer :
  index_buffer (S size) buffer
  = <[buffer !!! size := Z.of_nat size]> (index_buffer size buffer).
Proof. unfold index_buffer. by rewrite seq_S, fold_left_app. Qed.

(** Keys of the map are the entries of the buffer, each mapped to one of
    its positions. *)
Lemma index_buffer_lookup buffer key : forall size,
  (size <= length buffer)%nat ->
  match index_buffer size buffer !! key with
  | Some v => 0 <= v < Z.of_nat size /\ buffer !! Z.to_nat v = Some key
  | None => key ∉ take size buffer
  end.
Proof.
  induction size as [|size IH]; intros Hsize.
  - unfold index_buffer. simpl. rewrite lookup_empty, take_0.
    apply not_elem_of_nil.
  - rewrite index_buffer_S. specialize (IH ltac:(lia)).
    assert (Hcur : buffer !! size = Some (buffer !!! size))
      by (apply list_lookup_lookup_total_lt; lia).
    destruct (decide (buffer !!! size = key)) as [Heq|Hne].
    + rewrite Heq, lookup_insert_eq. split; [lia|].
      by rewrite Nat2Z.id, Hcur, Heq.
    + rewrite lookup_insert_ne by done.
      destruct (index_buffer size buffer !! key) as [v|].
      * split; [lia|tauto].
      * rewrite (take_S_r _ _ _ Hcur), elem_of_app, list_elem_of_singleton.
        intros [Hin|Hin]; [done|congruence].
Qed.

(** What the rewrite leaves at position [i] for the identifier [id] that
    was recorded there. *)
Lemma rewrite_indices_lookup (buffer : list Z) (d : CommData) i id :
  length (indices d) = size_msgs d ->
  indices d !! i = Some id ->
  exists pos,
    indices (rewrite_indices (length buffer) buffer d) !! i = Some pos /\
    (id ∉ buffer -> pos = 0) /\
    (id ∈ buffer -> 0 <= pos /\ buffer !! Z.to_nat pos = Some id).
Proof.
  intros Hlen Hid. unfold rewrite_indices. simpl.
  rewrite <- Hlen, firstn_all, drop_all, app_nil_r, rewrite_entries_values.
  exists (value_at (index_buffer (length buffer) buffer) id).
  split.
  - change (map ?f ?l) with (f <$> l). by rewrite list_lookup_fmap, Hid.
  - pose proof (index_buffer_lookup buffer id (length buffer) ltac:(lia))
      as Hkey.
    unfold value_at.
    destruct (index_buffer (length buffer) buffer !! id) as [v|]; simpl.
    + destruct Hkey as [Hv Hl]. split; [|intros _; split; [lia|done]].
      intros Hout. exfalso. apply Hout.
      by apply list_elem_of_lookup_2 with (Z.to_nat v).
    + rewrite firstn_all in Hkey. split; [done|]. intros Hin. done.
Qed.

(** C10.  [adjust_send_indices] is total, and on sealed ledgers it
    rewrites every identifier [id] recorded in the global-stage send
    ledger to a position of [id] in the S-stage receive buffer when [id]
    occurs there, and to position 0 when it does not; likewise for the
    R-stage send ledger and the global-stage receive buffer.  Hence the
    rewritten entry is a position of [id] exactly when [id] occurs in the
    buffer. *)
Theorem C10_missing_identifier_rewritten_to_zero (first_local_row : Z)
    (t : TAPComm) :
  well_sealed (recv_data (local_S_par_comm t)) ->
  well_sealed (send_data (global_par_comm t)) ->
  well_sealed (recv_data (global_par_comm t)) ->
  well_sealed (send_data (local_R_par_comm t)) ->
  let t' := adjust_send_indices first_local_row t in
  let S_recv := indices (recv_data (local_S_par_comm t)) in
  let G_recv := indices (recv_data (global_par_comm t)) in
  (forall i id,
     indices (send_data (global_par_comm t)) !! i = Some id ->
     exists pos,
       indices (send_data (global_par_comm t')) !! i = Some pos /\
       (id ∉ S_recv -> pos = 0) /\
       (id ∈ S_recv -> 0 <= pos /\ S_recv !! Z.to_nat pos = Some id) /\
       (S_recv !! Z.to_nat pos = Some id <-> id ∈ S_recv)) /\
  (forall i id,
     indices (send_data (local_R_par_comm t)) !! i = Some id ->
     exists pos,
       indices (send_data (local_R_par_comm t')) !! i = Some pos /\
       (id ∉ G_recv -> pos = 0) /\
       (id ∈ G_recv -> 0 <= pos /\ G_recv !! Z.to_nat pos = Some id) /\
       (G_recv !! Z.to_nat pos = Some id <-> id ∈ G_recv)) /\
  indices (recv_data (local_S_par_comm t')) = S_recv /\
  indices (recv_data (global_par_comm t')) = G_recv.
Proof.
  intros [_ HS] [_ HGs] [_ HG] [_ HR] t' S_recv G_recv.
  split; [|split; [|done]].
  - intros i id Hid. subst t'. simpl. rewrite <- HS.
    destruct (rewrite_indices_lookup S_recv _ i id HGs Hid)
      as (pos & Hpos & Hout & Hin).
    exists pos. split; [done|]. split; [done|]. split; [done|].
    split; [intros Hl; by apply list_elem_of_lookup_2 with (Z.to_nat pos)|].
    intros Hmem. by apply Hin.
  - intros i id Hid. subst t'. simpl. rewrite <- HG.
    destruct (rewrite_indices_lookup G_recv _ i id HR Hid)
      as (pos & Hpos & Hout & Hin).
    exists pos. split; [done|]. split; [done|]. split; [done|].
    split; [intros Hl; by apply list_elem_of_lookup_2 with (Z.to_nat pos)|].
    intros Hmem. by apply Hin.
Qed.

(** Two identifiers recorded at the global stage, of which 8 does not
    occur in the S-stage receive buffer [7; 9]. *)
Lemma C10_missing_identifier_witness :
  let sealed_with l := mkCommData [mkMessage 0 l] true [0; 2]%nat l in
  let t := mkTAPComm (mkParComm fresh fresh)
             (mkParComm (sealed_with [20; 21]) (sealed_with [7; 9]))
             (mkParComm (sealed_with [5; 6]) (sealed_with [0; 1]))
             (mkParComm (sealed_with [9; 8]) (sealed_with [3; 5])) in
  indices (send_data (global_par_comm (adjust_send_indices 20 t))) !! 1%nat
  = Some 0.
Proof.
  intros sealed_with t.
  destruct (proj1 (C10_missing_identifier_rewritten_to_zero 20 t
                     ltac:(by split) ltac:(by split)
                     ltac:(by split) ltac:(by split)) 1%nat 8 eq_refl)
    as (pos & Hpos & Hout & _).
  rewrite Hpos. f_equal. apply Hout.
  simpl. rewrite !not_elem_of_cons. split; [lia|]. split; [lia|].
  apply not_elem_of_nil.
Defined.

End IndexRewrite.

(** ** Placement of entries into per-bucket slices

    [form_local_R_par_comm], [form_global_par_comm] and
    [form_local_S_par_comm] all place entry [i] at
    [displs[b] + sizes[b]++], where [b] is the bucket of [i]. *)
Module Buckets.

Section placement.
Local Open Scope nat_scope.

Variables (B n : nat) (key : nat -> nat) (val : nat -> Z).
Variable displs : list nat.

(** The entries [i < m] of bucket [b], in increasing order. *)
Definition bucket (b m : nat) : list nat :=
  filter (fun i => key i = b) (seq 0 m).

(** Start of the slice of bucket [b]: the buckets before it, end to end. *)
Definition offset (b : nat) : nat :=
  length (concat (map (fun b' => bucket b' n) (seq 0 b))).

(** One iteration of the placement loop. *)
Definition place (st : list nat * list Z) (i : nat) : list nat * list Z :=
  let b := key i in
  let idx := displs !!! b + st.1 !!! b in
  (<[b := S (st.1 !!! b)]> st.1, <[idx := val i]> st.2).

(** The slice [start, stop) of a vector. *)
Definition slice {A} (v : list A) (start stop : nat) : list A :=
  take (stop - start) (drop start v).

Hypothesis key_lt : forall i, i < n -> key i < B.
Hypothesis displs_ok : forall b, b <= B -> displs !!! b = offset b.

Lemma bucket_S b m :
  bucket b (S m) = bucket b m ++ (if decide (key m = b) then [m] else []).
Proof.
  unfold bucket. rewrite seq_S, filter_app, filter_cons, filter_nil.
  change (0 + m) with m. by destruct (decide (key m = b)).
Qed.

Lemma bucket_grows b m m' :
  m <= m' -> length (bucket b m) <= length (bucket b m').
Proof.
  induction 1 as [|m' _ IH]; [done|].
  rewrite bucket_S, length_app. lia.
Qed.

Lemma bucket_not_full m :
  m < n -> length (bucket (key m) m) < length (bucket (key m) n).
Proof.
  intros Hm. pose proof (bucket_grows (key m) (S m) n Hm) as Hle.
  rewrite bucket_S, length_app, decide_True in Hle by done.
  simpl in Hle. lia.
Qed.

Lemma offset_S b : offset (S b) = offset b + length (bucket b n).
Proof.
  unfold offset. rewrite seq_S, map_app, concat_app, length_app. simpl.
  by rewrite app_nil_r.
Qed.

Lemma offset_mono b b' : b <= b' -> offset b <= offset b'.
Proof. induction 1 as [|b' _ IH]; [done|]. rewrite offset_S. lia. Qed.

Lemma filter_none (P : nat -> Prop) `{!forall i, Decision (P i)}
    (l : list nat) :
  (forall i, i ∈ l -> ~ P i) -> filter P l = [].
Proof.
  induction l as [|a l IH]; intros Hnone; [done|].
  rewrite filter_cons, decide_False by (apply Hnone; apply list_elem_of_here).
  apply IH. intros i Hi. apply Hnone. by apply list_elem_of_further.
Qed.

Lemma filter_all (P : nat -> Prop) `{!forall i, Decision (P i)}
    (l : list nat) :
  (forall i, i ∈ l -> P i) -> filter P l = l.
Proof.
  induction l as [|a l IH]; intros Hall; [done|].
  rewrite filter_cons, decide_True by (apply Hall; apply list_elem_of_here).
  f_equal. apply IH. intros i Hi. apply Hall. by apply list_elem_of_further.
Qed.

Lemma filter_below_S (l : list nat) b :
  Permutation (filter (fun i => key i < b) l ++ filter (fun i => key i = b) l)
              (filter (fun i => key i < S b) l).
Proof.
  induction l as [|a l IH]; [done|].
  rewrite !filter_cons.
  destruct (decide (key a < b)); destruct (decide (key a = b));
    destruct (decide (key a < S b)); try lia; simpl.
  - by constructor.
  - rewrite <- IH. symmetry. apply Permutation_middle.
  - done.
Qed.

Lemma buckets_below (l : list nat) b :
  Permutation (concat (map (fun b' => filter (fun i => key i = b') l)
                           (seq 0 b)))
              (filter (fun i => key i < b) l).
Proof.
  induction b as [|b IH].
  - simpl. rewrite filter_none; [done|]. intros i _. lia.
  - rewrite seq_S, map_app, concat_app. simpl. rewrite app_nil_r, IH.
    apply filter_below_S.
Qed.

(** The buckets, end to end, hold every entry exactly once. *)
Lemma buckets_partition :
  Permutation (concat (map (fun b => bucket b n) (seq 0 B))) (seq 0 n).
Proof.
  unfold bucket. rewrite buckets_below, filter_all; [done|].
  intros i Hi%elem_of_seq. apply key_lt. lia.
Qed.

Lemma offset_end : offset B = n.
Proof.
  unfold offset. rewrite buckets_partition. apply length_seq.
Qed.

(** State of the placement loop after the entries [i < m]. *)
Definition placed (sizes0 : list nat) (m : nat) (st : list nat * list Z)
  : Prop :=
  length st.1 = length sizes0 /\ length st.2 = n /\
  (forall b, b < B -> st.1 !!! b = length (bucket b m)) /\
  (forall b t i, b < B -> bucket b m !! t = Some i ->
     st.2 !! (offset b + t) = Some (val i)).

Lemma place_preserves sizes0 m st :
  B <= length sizes0 -> m < n ->
  placed sizes0 m st -> placed sizes0 (S m) (place st m).
Proof.
  intros HB Hm (Hsizes & Hbuf & Hcount & Hcells).
  pose proof (key_lt m Hm) as Hkey.
  pose proof (bucket_not_full m Hm) as Hroom.
  pose proof (offset_S (key m)) as HoffS.
  pose proof (offset_mono (S (key m)) B ltac:(lia)) as Hend.
  rewrite offset_end in Hend.
  unfold place, placed. simpl.
  rewrite displs_ok, (Hcount (key m) Hkey) by lia.
  rewrite !length_insert.
  split; [done|]. split; [done|]. split.
  - intros b Hb. rewrite bucket_S, length_app.
    destruct (decide (key m = b)) as [<-|Hne]; simpl.
    + rewrite list_lookup_total_insert_eq by lia. lia.
    + rewrite list_lookup_total_insert_ne by done.
      rewrite (Hcount b Hb). lia.
  - intros b t i Hb Hi. rewrite bucket_S in Hi.
    destruct (decide (t < length (bucket b m))) as [Hold|Hnew].
    + rewrite lookup_app_l in Hi by done.
      rewrite list_lookup_insert_ne; [by apply Hcells|].
      destruct (decide (b = key m)) as [->|Hne]; [lia|].
      pose proof (bucket_grows b m n ltac:(lia)) as Hgrow.
      pose proof (offset_S b) as HoffSb.
      destruct (decide (b < key m)) as [Hlt|Hge].
      * pose proof (offset_mono (S b) (key m) ltac:(lia)). lia.
      * pose proof (offset_mono (S (key m)) b ltac:(lia)). lia.
    + rewrite lookup_app_r in Hi by lia.
      destruct (decide (key m = b)) as [<-|Hne];
        [|by rewrite lookup_nil in Hi].
      apply list_lookup_singleton_Some in Hi as [Ht <-].
      assert (t = length (bucket (key m) m)) as -> by lia.
      apply list_lookup_insert_eq. lia.
Qed.

Lemma place_all sizes0 buf0 m :
  B <= length sizes0 -> (forall b, b < B -> sizes0 !!! b = 0) ->
  length buf0 = n -> m <= n ->
  placed sizes0 m (fold_left place (seq 0 m) (sizes0, buf0)).
Proof.
  intros HB Hzero Hbuf. induction m as [|m IH]; intros Hm.
  - simpl. split; [done|]. split; [done|]. split; [by apply Hzero|].
    intros b t i _ Hi. unfold bucket in Hi. simpl in Hi.
    by rewrite filter_nil, lookup_nil in Hi.
  - rewrite seq_S, fold_left_app. simpl.
    apply place_preserves; [done|lia|]. apply IH. lia.
Qed.

(** After the loop, the slice of every bucket holds the values of its
    entries, in increasing order of the entries. *)
Lemma placement_slices sizes0 buf0 :
  B <= length sizes0 -> (forall b, b < B -> sizes0 !!! b = 0) ->
  length buf0 = n ->
  let buf := (fold_left place (seq 0 n) (sizes0, buf0)).2 in
  length buf = n /\
  forall b, b < B ->
    slice buf (displs !!! b) (displs !!! S b) = map val (bucket b n).
Proof.
  intros HB Hzero Hbuf buf.
  destruct (place_all sizes0 buf0 n HB Hzero Hbuf ltac:(lia))
    as (_ & Hlen & _ & Hcells).
  split; [done|]. intros b Hb.
  rewrite !displs_ok, offset_S by lia. unfold slice.
  replace (offset b + length (bucket b n) - offset b)
    with (length (bucket b n)) by lia.
  pose proof (offset_mono (S b) B ltac:(lia)) as Hend.
  rewrite offset_end, offset_S in Hend.
  apply list_eq. intros t.
  change (map val (bucket b n)) with (val <$> bucket b n).
  rewrite list_lookup_fmap.
  destruct (bucket b n !! t) as [i|] eqn:Hi; simpl.
  - pose proof (lookup_lt_Some _ _ _ Hi).
    rewrite lookup_take_lt, lookup_drop by done. by apply Hcells.
  - apply lookup_ge_None in Hi. apply lookup_ge_None.
    rewrite length_take. lia.
Qed.

End placement.

Lemma filter_ext_in (P Q : nat -> Prop) `{!forall i, Decision (P i)}
    `{!forall i, Decision (Q i)} (l : list nat) :
  (forall i, i ∈ l -> P i <-> Q i) -> filter P l = filter Q l.
Proof.
  induction l as [|a l IH]; intros Hext; [done|].
  rewrite !filter_cons.
  pose proof (Hext a ltac:(apply list_elem_of_here)) as Ha.
  rewrite IH by (intros i Hi; apply Hext; by apply list_elem_of_further).
  destruct (decide (P a)); destruct (decide (Q a)); tauto.
Qed.

Lemma fold_left_ext_in {S} (f g : S -> nat -> S) (l : list nat) : forall s,
  (forall s i, i ∈ l -> f s i = g s i) -> fold_left f l s = fold_left g l s.
Proof.
  induction l as [|a l IH]; intros s Hext; [done|].
  simpl. rewrite (Hext s a) by apply list_elem_of_here.
  apply IH. intros s' i Hi. apply Hext. by apply list_elem_of_further.
Qed.

Lemma map_lookup_seq {A} `{!Inhabited A} (v : list A) :
  map (fun k => v !!! k) (seq 0 (length v)) = v.
Proof.
  apply (list_eq_same_length _ _ (length v));
    [done|by rewrite length_map, length_seq|].
  intros k x y Hk Hx Hy.
  change (map (fun k => v !!! k) (seq 0 (length v)))
    with ((fun k => v !!! k) <$> seq 0 (length v)) in Hx.
  rewrite list_lookup_fmap, lookup_seq_lt in Hx by done.
  apply list_lookup_total_correct in Hy. simpl in Hx. congruence.
Qed.

End Buckets.

(** ** R stage: slots of the off-node columns and the recv ledger *)
Module RStage.
Import Ledger Buckets.

(** Scratch vectors of the loop that maps hosts to slots. *)
Record NodeMap := mkNodeMap {
  node_to_idx : list nat;
  node_to_proc : list Z;
  ctr : Z
}.

(** "Map nodes to procs": iteration [i] over [recv_nodes]. *)
Definition map_node (c : TAPConfig) (recv_nodes nodal_num_local : list Z)
    (s : NodeMap) (i : nat) : NodeMap :=
  let node := recv_nodes !!! i in
  let local_proc := Z.rem (ctr s) (PPN c) in
  mkNodeMap (<[Z.to_nat node := i]> (node_to_idx s))
            (<[i := local_proc]> (node_to_proc s))
            (ctr s + nodal_num_local !!! i).

Definition map_nodes (c : TAPConfig) (recv_nodes nodal_num_local : list Z)
  : NodeMap :=
  let num_recv_nodes := length recv_nodes in
  fold_left (map_node c recv_nodes nodal_num_local) (seq 0 num_recv_nodes)
    (mkNodeMap (replicate (Z.to_nat (num_nodes c)) 0%nat)
               (replicate num_recv_nodes 0) 0).

(** Scratch vectors of the loop that gives every column its slot. *)
Record Assign := mkAssign {
  proc_idx : list Z;
  local_recv_sizes : list nat;
  off_node_col_to_lcl_proc : list Z
}.

(** "Find number of recvd indices per local proc": iteration [i] over the
    off-node columns. *)
Definition assign_col (c : TAPConfig) (nm : NodeMap)
    (nodal_num_local off_node_col_to_node : list Z)
    (s : Assign) (i : nat) : Assign :=
  let node := off_node_col_to_node !!! i in
  let idx := node_to_idx nm !!! Z.to_nat node in
  let local_proc :=
    Z.rem (node_to_proc nm !!! idx + proc_idx s !!! idx) (PPN c) in
  mkAssign
    (if proc_idx s !!! idx + 1 <? nodal_num_local !!! idx
     then <[idx := proc_idx s !!! idx + 1]> (proc_idx s)
     else <[idx := 0]> (proc_idx s))
    (<[Z.to_nat local_proc := S (local_recv_sizes s !!! Z.to_nat local_proc)]>
       (local_recv_sizes s))
    (<[i := local_proc]> (off_node_col_to_lcl_proc s)).

Definition assign_cols (c : TAPConfig) (nm : NodeMap)
    (num_recv_nodes off_node_num_cols : nat)
    (nodal_num_local off_node_col_to_node : list Z) : Assign :=
  fold_left (assign_col c nm nodal_num_local off_node_col_to_node)
    (seq 0 off_node_num_cols)
    (mkAssign (replicate num_recv_nodes 0)
              (replicate (Z.to_nat (PPN c)) 0%nat)
              (replicate off_node_num_cols 0)).

(** "Create displs based on local_recv_sizes": iteration [i]; the state is
    ([local_recv_displs], [local_recv_sizes]). *)
Definition displs_step (st : list nat * list nat) (i : nat)
  : list nat * list nat :=
  (<[S i := (st.1 !!! i + st.2 !!! i)%nat]> st.1, <[i := 0%nat]> st.2).

Definition make_displs (c : TAPConfig) (local_recv_sizes : list nat)
  : list nat * list nat :=
  fold_left displs_step (seq 0 (Z.to_nat (PPN c)))
    (replicate (S (Z.to_nat (PPN c))) 0%nat, local_recv_sizes).

(** "Add columns to local_recv_indices": iteration [i]; the state is
    ([local_recv_sizes], [local_recv_indices]). *)
Definition add_col (local_recv_displs : list nat)
    (off_node_col_to_lcl_proc : list Z)
    (st : list nat * list Z) (i : nat) : list nat * list Z :=
  let local_proc := Z.to_nat (off_node_col_to_lcl_proc !!! i) in
  let idx := (local_recv_displs !!! local_proc + st.1 !!! local_proc)%nat in
  (<[local_proc := S (st.1 !!! local_proc)]> st.1,
   <[idx := Z.of_nat i]> st.2).

(** "Add recv_data for local_R_par_comm": iteration [i]; the state is the
    ledger and [local_recv_procs]. *)
Definition add_recv (local_recv_displs : list nat)
    (local_recv_indices : list Z)
    (st : CommData * list Z) (i : nat) : CommData * list Z :=
  let recv_start := local_recv_displs !!! i in
  let recv_size := (local_recv_displs !!! S i - recv_start)%nat in
  if (recv_size =? 0)%nat then st
  else (add_msg st.1 (Z.of_nat i) recv_size
                (drop recv_start local_recv_indices),
        <[i := 1]> st.2).

(** [TAPComm::form_local_R_par_comm] up to the [finalize] of the recv
    ledger [recv_data0]; the result is the sealed ledger and
    [local_recv_procs].  Only the length of [off_node_column_map] is
    used in this part. *)
Definition form_local_R_recv (c : TAPConfig)
    (off_node_num_cols : nat) (off_node_col_to_node : list Z)
    (recv_nodes nodal_num_local : list Z) (recv_data0 : CommData)
  : option (CommData * list Z) :=
  let num_recv_nodes := length recv_nodes in
  let nm := map_nodes c recv_nodes nodal_num_local in
  let a := assign_cols c nm num_recv_nodes off_node_num_cols
             nodal_num_local off_node_col_to_node in
  let d := make_displs c (local_recv_sizes a) in
  let local_recv_displs := d.1 in
  let placed :=
    fold_left (add_col local_recv_displs (off_node_col_to_lcl_proc a))
      (seq 0 off_node_num_cols) (d.2, replicate off_node_num_cols 0) in
  let local_recv_indices := placed.2 in
  let r :=
    fold_left (add_recv local_recv_displs local_recv_indices)
      (seq 0 (Z.to_nat (PPN c)))
      (recv_data0, replicate (Z.to_nat (PPN c)) 0) in
  match finalize r.1 with
  | Some sealed_ledger => Some (sealed_ledger, r.2)
  | None => None
  end.

(** *** The assignment in the words of the specification *)

(** Position of the host [node] in the discovered host list. *)
Fixpoint host_index (node : Z) (recv_nodes : list Z) : nat :=
  match recv_nodes with
  | [] => 0
  | x :: l => if decide (x = node) then 0 else S (host_index node l)
  end.

(** Base slot of the host at position [h]: the running sum of the
    fan-outs of the hosts before it, modulo [PPN]. *)
Definition base_slot (c : TAPConfig) (nodal_num_local : list Z) (h : nat)
  : Z :=
  Z.rem (foldr Z.add 0 (take h nodal_num_local)) (PPN c).

(** Number of columns before [i] owned by the host of column [i]. *)
Definition earlier_same_host (off_node_col_to_node : list Z) (i : nat)
  : nat :=
  length (filter (fun i' => off_node_col_to_node !!! i'
                            = off_node_col_to_node !!! i) (seq 0 i)).

(** Round-robin slot of column [i]: the base slot of its host plus the
    column's turn among the host's fan-out slots, wrapping at the fan-out
    and at [PPN]. *)
Definition slot_of (c : TAPConfig) (recv_nodes nodal_num_local : list Z)
    (off_node_col_to_node : list Z) (i : nat) : Z :=
  let h := host_index (off_node_col_to_node !!! i) recv_nodes in
  Z.rem (base_slot c nodal_num_local h
         + Z.of_nat (earlier_same_host off_node_col_to_node i)
           mod nodal_num_local !!! h)
        (PPN c).

(** The columns given to the local rank [d], in increasing order. *)
Definition columns_of_slot (c : TAPConfig)
    (recv_nodes nodal_num_local off_node_col_to_node : list Z)
    (n d : nat) : list nat :=
  filter (fun i => Z.to_nat (slot_of c recv_nodes nodal_num_local
                               off_node_col_to_node i) = d) (seq 0 n).

(** The message of local rank [d]: none when it was given no column. *)
Definition slot_message (d : nat) (columns : list nat) : list Message :=
  match columns with
  | [] => []
  | _ => [mkMessage (Z.of_nat d) (map Z.of_nat columns)]
  end.

(** The recv ledger in the words of the specification: the columns
    grouped by destination local rank, in increasing rank order. *)
Definition slot_messages (c : TAPConfig)
    (recv_nodes nodal_num_local off_node_col_to_node : list Z) (n : nat)
  : list Message :=
  concat (map (fun d => slot_message d
                          (columns_of_slot c recv_nodes nodal_num_local
                                           off_node_col_to_node n d))
              (seq 0 (Z.to_nat (PPN c)))).

Lemma sum_snoc (l : list Z) (x : Z) :
  foldr Z.add 0 (l ++ [x]) = foldr Z.add 0 l + x.
Proof. induction l as [|a l IH]; simpl; lia. Qed.

Lemma sum_nonneg (l : list Z) :
  (forall x, x ∈ l -> 1 <= x) -> 0 <= foldr Z.add 0 l.
Proof.
  induction l as [|a l IH]; intros Hpos; simpl; [lia|].
  pose proof (Hpos a ltac:(apply list_elem_of_here)).
  assert (0 <= foldr Z.add 0 l);
    [apply IH; intros x Hx; apply Hpos; by apply list_elem_of_further|lia].
Qed.

Lemma host_index_lookup (node : Z) (l : list Z) :
  node ∈ l -> l !! host_index node l = Some node.
Proof.
  induction l as [|x l IH]; intros Hin; [by apply elem_of_nil in Hin|].
  simpl. destruct (decide (x = node)) as [->|Hne]; [done|].
  apply elem_of_cons in Hin as [->|Hin]; [done|]. by apply IH.
Qed.

Lemma host_index_of_lookup (l : list Z) (h : nat) (node : Z) :
  NoDup l -> l !! h = Some node -> host_index node l = h.
Proof.
  intros Hnd Hh.
  apply (NoDup_lookup l _ _ node Hnd); [|done].
  apply host_index_lookup. by apply list_elem_of_lookup_2 with h.
Qed.

Section r_stage_correct.

Variables (c : TAPConfig) (recv_nodes nodal_num_local cols : list Z).
Variable n : nat.

Hypothesis PPN_pos : 0 < PPN c.
Hypothesis nodes_nodup : NoDup recv_nodes.
Hypothesis nodes_range :
  forall node, node ∈ recv_nodes -> 0 <= node < num_nodes c.
Hypothesis cols_len : length cols = n.
Hypothesis cols_known : forall node, node ∈ cols -> node ∈ recv_nodes.
Hypothesis fan_len : length nodal_num_local = length recv_nodes.
Hypothesis fan_pos : forall f, f ∈ nodal_num_local -> 1 <= f.

(** State of the host loop after the hosts [h < m]. *)
Definition mapped (m : nat) (s : NodeMap) : Prop :=
  length (node_to_idx s) = Z.to_nat (num_nodes c) /\
  length (node_to_proc s) = length recv_nodes /\
  ctr s = foldr Z.add 0 (take m nodal_num_local) /\
  (forall h, (h < m)%nat ->
     node_to_proc s !!! h = base_slot c nodal_num_local h) /\
  (forall h, (h < m)%nat ->
     node_to_idx s !!! Z.to_nat (recv_nodes !!! h) = h).

Lemma map_node_preserves m s :
  (m < length recv_nodes)%nat -> mapped m s ->
  mapped (S m) (map_node c recv_nodes nodal_num_local s m).
Proof.
  intros Hm (Hidx & Hproc & Hctr & Hbase & Hback).
  assert (Hnode : recv_nodes !! m = Some (recv_nodes !!! m))
    by (by apply list_lookup_lookup_total_lt).
  assert (Hfan : nodal_num_local !! m = Some (nodal_num_local !!! m))
    by (apply list_lookup_lookup_total_lt; lia).
  pose proof (nodes_range _ (list_elem_of_lookup_2 _ _ _ Hnode)) as Hrange.
  unfold mapped, map_node. simpl. rewrite !length_insert.
  split; [done|]. split; [done|]. split.
  { by rewrite (take_S_r _ _ _ Hfan), sum_snoc, Hctr. }
  split.
  - intros h Hh. destruct (decide (h = m)) as [->|Hne].
    + rewrite list_lookup_total_insert_eq by lia.
      unfold base_slot. by rewrite Hctr.
    + rewrite list_lookup_total_insert_ne by done. apply Hbase. lia.
  - intros h Hh. destruct (decide (h = m)) as [->|Hne].
    + rewrite list_lookup_total_insert_eq; [done|lia].
    + assert (Hh' : recv_nodes !! h = Some (recv_nodes !!! h))
        by (apply list_lookup_lookup_total_lt; lia).
      pose proof (nodes_range _ (list_elem_of_lookup_2 _ _ _ Hh')) as Hr.
      rewrite list_lookup_total_insert_ne; [apply Hback; lia|].
      intros Heq. apply Hne.
      apply (NoDup_lookup recv_nodes h m (recv_nodes !!! h) nodes_nodup);
        [done|].
      rewrite Hnode. f_equal. lia.
Qed.

Lemma map_nodes_mapped :
  mapped (length recv_nodes) (map_nodes c recv_nodes nodal_num_local).
Proof.
  unfold map_nodes.
  assert (Hall : forall m, (m <= length recv_nodes)%nat ->
    mapped m (fold_left (map_node c recv_nodes nodal_num_local) (seq 0 m)
      (mkNodeMap (replicate (Z.to_nat (num_nodes c)) 0%nat)
                 (replicate (length recv_nodes) 0) 0))).
  { induction m as [|m IH]; intros Hm.
    - unfold mapped. simpl. rewrite !length_replicate.
      repeat split; try done; intros h Hh; lia.
    - rewrite seq_S, fold_left_app. simpl.
      apply map_node_preserves; [lia|]. apply IH. lia. }
  by apply Hall.
Qed.

(** Host position, slot and bucket of column [i]. *)
Definition hidx (i : nat) : nat := host_index (cols !!! i) recv_nodes.

Definition slot (i : nat) : Z :=
  slot_of c recv_nodes nodal_num_local cols i.

Definition key (i : nat) : nat := Z.to_nat (slot i).

Lemma hidx_spec i :
  (i < n)%nat ->
  (hidx i < length recv_nodes)%nat /\ recv_nodes !!! hidx i = cols !!! i.
Proof.
  intros Hi.
  assert (Hin : cols !!! i ∈ recv_nodes).
  { apply cols_known, list_elem_of_lookup_total_2. lia. }
  pose proof (host_index_lookup _ _ Hin) as Hl. fold (hidx i) in Hl.
  split; [by apply lookup_lt_Some in Hl|].
  by apply list_lookup_total_correct.
Qed.

Lemma fan_at_least_1 h :
  (h < length recv_nodes)%nat -> 1 <= nodal_num_local !!! h.
Proof.
  intros Hh. apply fan_pos, list_elem_of_lookup_total_2. lia.
Qed.

Lemma earlier_same_host_hidx i :
  (i < n)%nat ->
  earlier_same_host cols i
  = length (filter (fun i' => hidx i' = hidx i) (seq 0 i)).
Proof.
  intros Hi. unfold earlier_same_host. f_equal.
  apply filter_ext_in. intros i' Hi'%elem_of_seq.
  destruct (hidx_spec i Hi) as [_ Hback].
  destruct (hidx_spec i' ltac:(lia)) as [_ Hback'].
  split; [unfold hidx; by intros ->|].
  intros Heq. by rewrite <- Hback, <- Hback', Heq.
Qed.

Lemma base_slot_range h : 0 <= base_slot c nodal_num_local h < PPN c.
Proof.
  unfold base_slot. apply Z.rem_bound_pos; [|done].
  apply sum_nonneg. intros x Hx. apply fan_pos.
  by apply (subseteq_take h nodal_num_local).
Qed.

Lemma slot_range i : (i < n)%nat -> 0 <= slot i < PPN c.
Proof.
  intros Hi. unfold slot, slot_of. fold (hidx i).
  destruct (hidx_spec i Hi) as [Hh _].
  pose proof (fan_at_least_1 _ Hh) as Hf.
  pose proof (base_slot_range (hidx i)).
  assert (Hpos : 0 < nodal_num_local !!! hidx i) by lia.
  pose proof (Z.mod_pos_bound (Z.of_nat (earlier_same_host cols i)) _ Hpos).
  apply Z.rem_bound_pos; lia.
Qed.

Lemma slot_key_lt i : (i < n)%nat -> (key i < Z.to_nat (PPN c))%nat.
Proof. intros Hi. unfold key. pose proof (slot_range i Hi). lia. Qed.

(** Advancing a round-robin counter that wraps at [f]. *)
Lemma round_robin_next (a f : Z) :
  1 <= f -> 0 <= a ->
  (if a mod f + 1 <? f then a mod f + 1 else 0) = (a + 1) mod f.
Proof.
  intros Hf Ha. pose proof (Z.mod_pos_bound a f ltac:(lia)) as Hr.
  pose proof (Z.div_mod a f ltac:(lia)) as Hdm.
  destruct (Z.ltb_spec (a mod f + 1) f).
  - apply (Z.mod_unique_pos _ _ (a / f)); lia.
  - apply (Z.mod_unique_pos _ _ (a / f + 1)); lia.
Qed.

(** State of the column loop after the columns [i < m]. *)
Definition assigned (m : nat) (s : Assign) : Prop :=
  length (proc_idx s) = length recv_nodes /\
  length (local_recv_sizes s) = Z.to_nat (PPN c) /\
  length (off_node_col_to_lcl_proc s) = n /\
  (forall h, (h < length recv_nodes)%nat ->
     proc_idx s !!! h
     = Z.of_nat (length (filter (fun i => hidx i = h) (seq 0 m)))
       mod nodal_num_local !!! h) /\
  (forall d, (d < Z.to_nat (PPN c))%nat ->
     local_recv_sizes s !!! d = length (bucket key d m)) /\
  (forall i, (i < m)%nat -> off_node_col_to_lcl_proc s !!! i = slot i).

Lemma assign_col_preserves nm m s :
  mapped (length recv_nodes) nm -> (m < n)%nat -> assigned m s ->
  assigned (S m) (assign_col c nm nodal_num_local cols s m).
Proof.
  intros (_ & _ & _ & Hbase & Hback) Hm
         (Hpi & Hsz & Hcl & Hturn & Hcount & Hslots).
  destruct (hidx_spec m Hm) as [Hh Hnode].
  pose proof (fan_at_least_1 _ Hh) as Hf.
  assert (Hidx : node_to_idx nm !!! Z.to_nat (cols !!! m) = hidx m).
  { rewrite <- Hnode. by apply Hback. }
  assert (Hslot :
    Z.rem (node_to_proc nm !!! hidx m + proc_idx s !!! hidx m) (PPN c)
    = slot m).
  { rewrite (Hbase _ Hh), (Hturn _ Hh).
    unfold slot, slot_of. fold (hidx m).
    by rewrite (earlier_same_host_hidx m Hm). }
  pose proof (slot_key_lt m Hm) as Hkey. unfold key in Hkey.
  unfold assigned, assign_col.
  cbn [proc_idx local_recv_sizes off_node_col_to_lcl_proc].
  rewrite Hidx, Hslot.
  split.
  { destruct (_ <? _); by rewrite length_insert. }
  rewrite !length_insert.
  split; [done|]. split; [done|]. split; [|split].
  - intros h Hh'.
    rewrite seq_S, filter_app, filter_cons, filter_nil, length_app.
    change (0 + m)%nat with m.
    destruct (decide (hidx m = h)) as [<-|Hne]; simpl.
    + rewrite (Hturn _ Hh).
      assert (Hnext :
        (if Z.of_nat (length (filter (fun i => hidx i = hidx m) (seq 0 m)))
              mod nodal_num_local !!! hidx m + 1
            <? nodal_num_local !!! hidx m
         then <[hidx m :=
                 Z.of_nat (length (filter (fun i => hidx i = hidx m)
                                          (seq 0 m)))
                 mod nodal_num_local !!! hidx m + 1]> (proc_idx s)
         else <[hidx m := 0]> (proc_idx s)) !!! hidx m
        = (Z.of_nat (length (filter (fun i => hidx i = hidx m) (seq 0 m)))
           + 1) mod nodal_num_local !!! hidx m).
      { rewrite <- round_robin_next by lia.
        destruct (_ <? _); by rewrite list_lookup_total_insert_eq by lia. }
      rewrite Hnext. f_equal. lia.
    + rewrite Nat.add_0_r, <- (Hturn h Hh').
      destruct (_ <? _); by rewrite list_lookup_total_insert_ne.
  - intros d Hd. rewrite bucket_S. fold (key m). rewrite length_app.
    destruct (decide (key m = d)) as [<-|Hne]; simpl.
    + rewrite list_lookup_total_insert_eq by (unfold key; lia).
      rewrite Hcount by done. lia.
    + rewrite list_lookup_total_insert_ne by done.
      rewrite Hcount by done. lia.
  - intros i Hi. destruct (decide (i = m)) as [->|Hne].
    + by rewrite list_lookup_total_insert_eq by lia.
    + rewrite list_lookup_total_insert_ne by done. apply Hslots. lia.
Qed.

Lemma assign_cols_assigned :
  assigned n
    (assign_cols c (map_nodes c recv_nodes nodal_num_local)
                 (length recv_nodes) n nodal_num_local cols).
Proof.
  unfold assign_cols.
  assert (Hall : forall m, (m <= n)%nat ->
    assigned m
      (fold_left (assign_col c (map_nodes c recv_nodes nodal_num_local)
                             nodal_num_local cols) (seq 0 m)
         (mkAssign (replicate (length recv_nodes) 0)
                   (replicate (Z.to_nat (PPN c)) 0%nat)
                   (replicate n 0)))).
  { induction m as [|m IH]; intros Hm.
    - unfold assigned. simpl. rewrite !length_replicate.
      split; [done|]. split; [done|]. split; [done|].
      split; [|split].
      + intros h Hh. by rewrite lookup_total_replicate_2.
      + intros d Hd. by rewrite lookup_total_replicate_2.
      + intros i Hi. lia.
    - rewrite seq_S, fold_left_app.
      apply assign_col_preserves; [apply map_nodes_mapped|lia|].
      apply IH. lia. }
  by apply Hall.
Qed.

(** State of the displacement loop after the ranks [b < m]. *)
Definition displaced (m : nat) (st : list nat * list nat) : Prop :=
  length st.1 = S (Z.to_nat (PPN c)) /\
  length st.2 = Z.to_nat (PPN c) /\
  (forall b, (b <= m)%nat -> st.1 !!! b = offset n key b) /\
  (forall b, (b < m)%nat -> st.2 !!! b = 0%nat) /\
  (forall b, (m <= b < Z.to_nat (PPN c))%nat ->
     st.2 !!! b = length (bucket key b n)).

Lemma make_displs_displaced sizes :
  length sizes = Z.to_nat (PPN c) ->
  (forall d, (d < Z.to_nat (PPN c))%nat ->
     sizes !!! d = length (bucket key d n)) ->
  displaced (Z.to_nat (PPN c)) (make_displs c sizes).
Proof.
  intros Hlen Hcount. unfold make_displs.
  assert (Hall : forall m, (m <= Z.to_nat (PPN c))%nat ->
    displaced m (fold_left displs_step (seq 0 m)
                   (replicate (S (Z.to_nat (PPN c))) 0%nat, sizes))).
  { induction m as [|m IH]; intros Hm.
    - unfold displaced. cbn [fold_left seq fst snd].
      rewrite length_replicate.
      split; [done|]. split; [done|]. split; [|split].
      + intros b Hb. assert (b = 0)%nat as -> by lia. done.
      + intros b Hb. lia.
      + intros b Hb. apply Hcount. lia.
    - rewrite seq_S, fold_left_app.
      destruct (IH ltac:(lia)) as (Hd & Hs & Hoff & Hzero & Hrest).
      set (st := fold_left displs_step (seq 0 m) _) in *.
      unfold displaced, displs_step. cbn [fold_left fst snd].
      change (0 + m)%nat with m. rewrite !length_insert.
      split; [done|]. split; [done|]. split; [|split].
      + intros b Hb. destruct (decide (b = S m)) as [->|Hne].
        * rewrite list_lookup_total_insert_eq by lia.
          rewrite Hoff, Hrest, offset_S by lia. done.
        * rewrite list_lookup_total_insert_ne by done. apply Hoff. lia.
      + intros b Hb. destruct (decide (b = m)) as [->|Hne].
        * by rewrite list_lookup_total_insert_eq by lia.
        * rewrite list_lookup_total_insert_ne by done. apply Hzero. lia.
      + intros b Hb. rewrite list_lookup_total_insert_ne by lia.
        apply Hrest. lia. }
  by apply Hall.
Qed.

(** State of the ledger loop after the ranks [d < m]. *)
Lemma add_recv_messages displs buf (d0 : CommData) (flags0 : list Z) :
  (forall b, (b <= Z.to_nat (PPN c))%nat -> displs !!! b = offset n key b) ->
  (forall b, (b < Z.to_nat (PPN c))%nat ->
     slice buf (displs !!! b) (displs !!! S b)
     = map Z.of_nat (bucket key b n)) ->
  forall m, (m <= Z.to_nat (PPN c))%nat ->
    messages (fold_left (add_recv displs buf) (seq 0 m) (d0, flags0)).1
    = messages d0
      ++ concat (map (fun d => slot_message d (bucket key d n)) (seq 0 m))
    /\ sealed (fold_left (add_recv displs buf) (seq 0 m) (d0, flags0)).1
       = sealed d0.
Proof.
  intros Hdispls Hslices. induction m as [|m IH]; intros Hm.
  - simpl. by rewrite app_nil_r.
  - destruct (IH ltac:(lia)) as [IHm IHs].
    rewrite seq_S, fold_left_app, map_app, concat_app.
    cbn [fold_left map concat]. change (0 + m)%nat with m.
    set (st := fold_left (add_recv displs buf) (seq 0 m) (d0, flags0)) in *.
    assert (Hstep :
      messages (add_recv displs buf st m).1
      = messages st.1 ++ slot_message m (bucket key m n) /\
      sealed (add_recv displs buf st m).1 = sealed st.1).
    { pose proof (Hslices m ltac:(lia)) as Hslice. unfold slice in Hslice.
      unfold add_recv.
      rewrite !Hdispls, offset_S in * by lia.
      replace (offset n key m + length (bucket key m n) - offset n key m)%nat
        with (length (bucket key m n)) in * by lia.
      destruct (bucket key m n) as [|i g] eqn:Hb.
      - simpl. by rewrite app_nil_r.
      - cbn [length] in Hslice.
        cbn [length Nat.eqb slot_message add_msg messages sealed fst snd].
        by rewrite Hslice. }
    destruct Hstep as [-> ->].
    by rewrite IHm, IHs, app_nil_r, app_assoc.
Qed.

Lemma slot_message_positions (G : nat -> list nat) (ds : list nat) :
  concat (map positions (concat (map (fun d => slot_message d (G d)) ds)))
  = map Z.of_nat (concat (map G ds)).
Proof.
  induction ds as [|d ds IH]; [done|].
  cbn [map concat]. rewrite map_app, concat_app, map_app, IH. f_equal.
  destruct (G d); simpl; [done|by rewrite app_nil_r].
Qed.

Lemma slot_message_elem (G : nat -> list nat) (ds : list nat) d i :
  d ∈ ds -> i ∈ G d ->
  exists m, m ∈ concat (map (fun d => slot_message d (G d)) ds) /\
            partner m = Z.of_nat d /\ Z.of_nat i ∈ positions m.
Proof.
  intros Hd Hi. exists (mkMessage (Z.of_nat d) (map Z.of_nat (G d))).
  split; [|split; [done|]].
  - apply list_elem_of_In, in_concat.
    exists (slot_message d (G d)). split.
    + apply in_map_iff. exists d. split; [done|by apply list_elem_of_In].
    + destruct (G d); [by apply elem_of_nil in Hi|by left].
  - simpl. change (map ?f ?l) with (f <$> l). by apply list_elem_of_fmap_2.
Qed.

(** What the first part of [form_local_R_par_comm] returns. *)
Lemma form_local_R_recv_correct :
  exists flags,
    form_local_R_recv c n cols recv_nodes nodal_num_local fresh
    = Some (mkCommData
              (slot_messages c recv_nodes nodal_num_local cols n) true
              (prefix_offsets 0
                 (map (fun m => length (positions m))
                      (slot_messages c recv_nodes nodal_num_local cols n)))
              (map Z.of_nat
                 (concat (map (fun d => bucket key d n)
                              (seq 0 (Z.to_nat (PPN c)))))),
            flags).
Proof.
  unfold form_local_R_recv.
  destruct assign_cols_assigned as (Hpi & Hsz & Hcl & _ & Hcount & Hslots).
  set (a := assign_cols _ _ _ _ _ _) in *.
  destruct (make_displs_displaced (local_recv_sizes a) Hsz Hcount)
    as (Hd1 & Hd2 & Hoff & Hzero & _).
  set (d := make_displs _ _) in *.
  rewrite (fold_left_ext_in (add_col d.1 (off_node_col_to_lcl_proc a))
                            (place key Z.of_nat d.1)).
  2: { intros st i Hi%elem_of_seq. unfold add_col, place.
       rewrite Hslots by lia. done. }
  destruct (placement_slices (Z.to_nat (PPN c)) n key Z.of_nat d.1
              slot_key_lt Hoff d.2 (replicate n 0) ltac:(lia) Hzero
              ltac:(apply length_replicate)) as [_ Hslices].
  set (buf := (fold_left (place key Z.of_nat d.1) (seq 0 n) _).2) in *.
  destruct (add_recv_messages d.1 buf fresh
              (replicate (Z.to_nat (PPN c)) 0) Hoff Hslices
              (Z.to_nat (PPN c)) ltac:(lia)) as [Hmsgs Hsealed].
  set (r := fold_left (add_recv d.1 buf) _ _) in *.
  exists r.2. unfold finalize. rewrite Hsealed, Hmsgs. simpl.
  by rewrite slot_message_positions.
Qed.

(** C5.  With [PPN] positive, distinct hosts within [0, num_nodes), every
    column owned by a discovered host and fan-outs of at least 1, the
    first part of [form_local_R_par_comm] seals a recv ledger with one
    message per local rank that was given a column, in rank order; the
    message of rank [d] lists, in increasing order, the columns whose
    round-robin slot ([slot_of]: base slot of the host plus the column's
    turn modulo the host's fan-out, modulo [PPN]; the base slot being the
    running sum of the preceding fan-outs modulo [PPN]) is [d].  Every
    column is in the message of its slot, and the messages together hold
    every column index exactly once. *)
Theorem C5_recv_ledger_groups_columns_by_slot :
  exists ledger flags,
    form_local_R_recv c n cols recv_nodes nodal_num_local fresh
      = Some (ledger, flags) /\
    messages ledger = slot_messages c recv_nodes nodal_num_local cols n /\
    indices ledger = concat (map positions (messages ledger)) /\
    Permutation (indices ledger) (map Z.of_nat (seq 0 n)) /\
    (forall h, (h < length recv_nodes)%nat ->
       node_to_proc (map_nodes c recv_nodes nodal_num_local) !!! h
       = Z.rem (foldr Z.add 0 (take h nodal_num_local)) (PPN c)) /\
    (forall i, (i < n)%nat ->
       let s := slot_of c recv_nodes nodal_num_local cols i in
       off_node_col_to_lcl_proc
         (assign_cols c (map_nodes c recv_nodes nodal_num_local)
                      (length recv_nodes) n nodal_num_local cols) !!! i = s /\
       0 <= s < PPN c /\
       exists m, m ∈ messages ledger /\ partner m = s /\
                 Z.of_nat i ∈ positions m).
Proof.
  destruct form_local_R_recv_correct as [flags Hrun].
  eexists _, flags. split; [exact Hrun|].
  cbn [messages indices].
  split; [done|]. split.
  { unfold slot_messages.
    by rewrite (slot_message_positions (fun d => bucket key d n)). }
  split.
  { apply Permutation_map.
    apply (buckets_partition (Z.to_nat (PPN c)) n key slot_key_lt). }
  split.
  { destruct map_nodes_mapped as (_ & _ & _ & Hbase & _).
    intros h Hh. by rewrite Hbase. }
  intros i Hi. cbv zeta. fold (slot i).
  destruct assign_cols_assigned as (_ & _ & _ & _ & _ & Hslots).
  split; [by apply Hslots|].
  pose proof (slot_range i Hi) as Hrange. split; [done|].
  destruct (slot_message_elem (fun d => bucket key d n)
              (seq 0 (Z.to_nat (PPN c))) (key i) i) as (m & Hm & Hp & Hpos).
  - apply elem_of_seq. pose proof (slot_key_lt i Hi). lia.
  - unfold bucket. apply list_elem_of_filter. split; [done|].
    apply elem_of_seq. lia.
  - exists m. split; [done|]. split; [|done].
    rewrite Hp. unfold key. lia.
Qed.

End r_stage_correct.

(** Three hosts with fan-outs 1, 2 and 1 on a host of four processes, and
    seven columns. *)
Lemma C5_recv_ledger_witness :
  exists flags,
    form_local_R_recv (mkTAPConfig 1 4 8 1000 62 4) 7 [5; 3; 5; 5; 3; 5; 6]
                      [3; 5; 6] [1; 2; 1] fresh
    = Some (mkCommData [mkMessage 0 [1; 4]; mkMessage 1 [0; 3];
                        mkMessage 2 [2; 5]; mkMessage 3 [6]]
                       true [0; 2; 4; 6; 7]%nat [1; 4; 0; 3; 2; 5; 6],
            flags).
Proof.
  destruct (C5_recv_ledger_groups_columns_by_slot
              (mkTAPConfig 1 4 8 1000 62 4) [3; 5; 6] [1; 2; 1]
              [5; 3; 5; 5; 3; 5; 6] 7)
    as (ledger & flags & Hrun & _).
  - simpl. lia.
  - apply (bool_decide_unpack _). vm_compute. exact I.
  - apply Forall_forall. apply (bool_decide_unpack _). vm_compute. exact I.
  - reflexivity.
  - apply Forall_forall. apply (bool_decide_unpack _). vm_compute. exact I.
  - reflexivity.
  - apply Forall_forall. apply (bool_decide_unpack _). vm_compute. exact I.
  - exists flags. rewrite Hrun. vm_compute in Hrun.
    injection Hrun as <- <-. reflexivity.
Defined.

End RStage.

(** ** Global stage: the recv ledger of the inter-host exchange *)
Module GlobalStage.
Import Ledger Buckets.

(** "Find how many values are sent to local processes from each node":
    iteration [i] over [orig_nodes]. *)
Definition count_node (orig_nodes : list Z) (node_sizes : list nat) (i : nat)
  : list nat :=
  let node := orig_nodes !!! i in
  <[Z.to_nat node := S (node_sizes !!! Z.to_nat node)]> node_sizes.

(** "Create temporary displs from recv node sizes": iteration [i] over
    [recv_procs]; the state is ([node_recv_idx], [node_recv_displs]). *)
Definition peer_displs (c : TAPConfig) (rank : Z) (recv_procs : list Z)
    (node_sizes : list nat) (st : list nat * list nat) (i : nat)
  : list nat * list nat :=
  let proc := recv_procs !!! i in
  let node := (Topology.get_node c rank proc).1 in
  (<[Z.to_nat node := i]> st.1,
   <[S i := (st.2 !!! i + node_sizes !!! Z.to_nat node)%nat]> st.2).

(** "Sort global indices by node from which they are recvd":
    iteration [i]; the state is ([node_recv_sizes], [node_recv_indices]). *)
Definition add_index (orig_nodes : list Z) (node_recv_idx : list nat)
    (node_recv_displs : list nat) (R_send_indices : list Z)
    (st : list nat * list Z) (i : nat) : list nat * list Z :=
  let node := orig_nodes !!! i in
  let node_idx := node_recv_idx !!! Z.to_nat node in
  let idx := (node_recv_displs !!! node_idx + st.1 !!! node_idx)%nat in
  (<[node_idx := S (st.1 !!! node_idx)]> st.1,
   <[idx := R_send_indices !!! i]> st.2).

(** The copy loop over a sorted range [x :: l]: an entry is kept when it
    differs from the one before it. *)
Fixpoint skip_repeats (prev : Z) (l : list Z) : list Z :=
  match l with
  | [] => []
  | x :: l' =>
    if x =? prev then skip_repeats x l' else x :: skip_repeats x l'
  end.

Definition unique_sorted (l : list Z) : list Z :=
  match l with
  | [] => []
  | x :: l' => x :: skip_repeats x l'
  end.

(** The last loop, iteration [i] over [recv_procs]: sort the range of peer
    [i] in place, copy it without repeats, record the message.  The state
    is ([node_recv_indices], the ledger). *)
Definition add_peer (sort : list Z -> list Z) (recv_procs : list Z)
    (node_recv_displs : list nat)
    (st : list Z * CommData) (i : nat) : list Z * CommData :=
  let proc := recv_procs !!! i in
  let start := node_recv_displs !!! i in
  let stop := node_recv_displs !!! S i in
  let size := (stop - start)%nat in
  if (size =? 0)%nat then st
  else
    let node_recv_indices :=
      take start st.1 ++ sort (slice st.1 start stop) ++ drop stop st.1 in
    let recv_buffer := unique_sorted (slice node_recv_indices start stop) in
    (node_recv_indices,
     add_msg st.2 proc (length recv_buffer) recv_buffer).

(** [TAPComm::form_global_par_comm] up to the [finalize] of the recv
    ledger [recv_data0].  [R_send] is the send ledger of the R stage and
    [sort] stands for [std::sort] on a range of [int]. *)
Definition form_global_recv (c : TAPConfig) (rank : Z)
    (sort : list Z -> list Z)
    (recv_procs orig_nodes : list Z) (R_send recv_data0 : CommData)
  : option CommData :=
  let n_recv_procs := length recv_procs in
  let node_sizes :=
    fold_left (count_node orig_nodes) (seq 0 (size_msgs R_send))
      (replicate (Z.to_nat (num_nodes c)) 0%nat) in
  let peers :=
    fold_left (peer_displs c rank recv_procs node_sizes)
      (seq 0 n_recv_procs)
      (replicate (Z.to_nat (num_nodes c)) 0%nat,
       replicate (S n_recv_procs) 0%nat) in
  let node_recv_idx := peers.1 in
  let node_recv_displs := peers.2 in
  let filled :=
    fold_left (add_index orig_nodes node_recv_idx node_recv_displs
                         (indices R_send))
      (seq 0 (size_msgs R_send))
      (replicate n_recv_procs 0%nat, replicate (size_msgs R_send) 0) in
  let r :=
    fold_left (add_peer sort recv_procs node_recv_displs)
      (seq 0 n_recv_procs) (filled.2, recv_data0) in
  finalize r.2.

(** The duplicate-bearing list gathered from the R stage for the host of
    the peer [proc]: the recorded identifiers whose origin is that host. *)
Definition gathered (c : TAPConfig) (rank : Z) (orig_nodes : list Z)
    (R_send : CommData) (proc : Z) : list Z :=
  map (fun k => indices R_send !!! k)
      (filter (fun k => orig_nodes !!! k = (Topology.get_node c rank proc).1)
              (seq 0 (size_msgs R_send))).

(** The message of one peer in the words of the specification: the
    gathered list sorted and stripped of duplicates; none when nothing
    was gathered for the peer's host. *)
Definition peer_message (sort : list Z -> list Z) (proc : Z)
    (g : list Z) : list Message :=
  match g with
  | [] => []
  | _ => [mkMessage proc (unique_sorted (sort g))]
  end.

Lemma skip_repeats_spec l : forall prev,
  Sorted Z.le (prev :: l) ->
  StronglySorted Z.lt (prev :: skip_repeats prev l) /\
  (forall x, x ∈ prev :: skip_repeats prev l <-> x ∈ prev :: l).
Proof.
  induction l as [|a l IH]; intros prev Hsorted.
  - simpl. split; [|done]. repeat constructor.
  - apply Sorted_inv in Hsorted as [Hsorted Hhd].
    apply HdRel_inv in Hhd. destruct (IH a Hsorted) as [IHs IHe].
    simpl. destruct (Z.eqb_spec a prev) as [->|Hne].
    + split; [done|]. intros x. rewrite IHe, !elem_of_cons. tauto.
    + split.
      * constructor; [done|]. apply Forall_forall. intros x Hx.
        apply elem_of_cons in Hx as [->|Hx]; [lia|].
        apply StronglySorted_inv in IHs as [_ Hall].
        rewrite Forall_forall in Hall. specialize (Hall x Hx). lia.
      * intros x. rewrite (elem_of_cons (a :: skip_repeats a l)).
        rewrite IHe, !elem_of_cons. tauto.
Qed.

(** Sorting and skipping repeats gives a strictly increasing list with
    the elements of the original one. *)
Lemma unique_sorted_spec (l : list Z) :
  Sorted Z.le l ->
  StronglySorted Z.lt (unique_sorted l) /\
  (forall x, x ∈ unique_sorted l <-> x ∈ l).
Proof.
  destruct l as [|a l]; intros Hsorted; [split; [constructor|done]|].
  by apply skip_repeats_spec.
Qed.

(** Sorting the range [start, stop) in place leaves the later ranges
    alone. *)
Lemma sort_range_in_place (sort : list Z -> list Z) (buf : list Z)
    (start stop : nat) :
  (forall l, Permutation (sort l) l) ->
  (start <= stop <= length buf)%nat ->
  let buf' := take start buf ++ sort (slice buf start stop) ++ drop stop buf in
  length buf' = length buf /\
  slice buf' start stop = sort (slice buf start stop) /\
  forall s e, (stop <= s)%nat -> slice buf' s e = slice buf s e.
Proof.
  intros Hperm Hrange buf'.
  assert (Hlen : length (sort (slice buf start stop)) = (stop - start)%nat).
  { rewrite (Permutation_length (Hperm _)). unfold slice.
    rewrite length_take, length_drop. lia. }
  assert (Htake : length (take start buf) = start)
    by (rewrite length_take; lia).
  split; [|split].
  - unfold buf'. rewrite !length_app, Hlen, Htake, length_drop. lia.
  - unfold slice at 1, buf'.
    rewrite drop_app_length' by done.
    by rewrite take_app_length' by done.
  - intros s e Hs. unfold slice, buf'. f_equal.
    rewrite app_assoc, drop_app_ge by (rewrite length_app; lia).
    rewrite length_app, Hlen, Htake, drop_drop. f_equal. lia.
Qed.

Section global_stage_correct.

Variables (c : TAPConfig) (rank : Z) (sort : list Z -> list Z).
Variables (recv_procs orig_nodes : list Z) (R_send : CommData).

(** Hosts of the recv peers, in the order of [recv_procs]. *)
Definition peer_nodes : list Z :=
  map (fun proc => (Topology.get_node c rank proc).1) recv_procs.

Hypothesis sort_perm : forall l, Permutation (sort l) l.
Hypothesis sort_sorted : forall l, Sorted Z.le (sort l).
Hypothesis peers_nodup : NoDup peer_nodes.
Hypothesis peers_range :
  forall node, node ∈ peer_nodes -> 0 <= node < num_nodes c.
Hypothesis orig_len : length orig_nodes = size_msgs R_send.
Hypothesis orig_known : forall node, node ∈ orig_nodes -> node ∈ peer_nodes.
Hypothesis indices_len : length (indices R_send) = size_msgs R_send.

(** Peer and value of the recorded identifier at position [k]. *)
Definition key (k : nat) : nat :=
  RStage.host_index (orig_nodes !!! k) peer_nodes.

Definition val (k : nat) : Z := indices R_send !!! k.

Lemma peer_nodes_length : length peer_nodes = length recv_procs.
Proof. unfold peer_nodes. by rewrite length_map. Qed.

Lemma peer_nodes_lookup b :
  (b < length recv_procs)%nat ->
  peer_nodes !! b = Some (Topology.get_node c rank (recv_procs !!! b)).1.
Proof.
  intros Hb. unfold peer_nodes.
  change (map ?f ?l) with (f <$> l).
  by rewrite list_lookup_fmap, (list_lookup_lookup_total_lt recv_procs b Hb).
Qed.

Lemma key_spec k :
  (k < size_msgs R_send)%nat ->
  (key k < length recv_procs)%nat /\
  peer_nodes !! key k = Some (orig_nodes !!! k).
Proof.
  intros Hk.
  assert (Hin : orig_nodes !!! k ∈ peer_nodes).
  { apply orig_known, list_elem_of_lookup_total_2. lia. }
  pose proof (RStage.host_index_lookup _ _ Hin) as Hl. fold (key k) in Hl.
  split; [|done]. apply lookup_lt_Some in Hl.
  by rewrite peer_nodes_length in Hl.
Qed.

(** The columns recorded from the host of peer [b] are its bucket. *)
Lemma bucket_of_peer b m :
  (b < length recv_procs)%nat -> (m <= size_msgs R_send)%nat ->
  filter (fun k => orig_nodes !!! k
                   = (Topology.get_node c rank (recv_procs !!! b)).1)
         (seq 0 m)
  = bucket key b m.
Proof.
  intros Hb Hm. unfold bucket. apply filter_ext_in.
  intros k Hk%elem_of_seq.
  destruct (key_spec k ltac:(lia)) as [Hkey Hnode].
  pose proof (peer_nodes_lookup b Hb) as Hpeer.
  split.
  - intros Heq. rewrite <- Heq in Hpeer.
    by apply (NoDup_lookup peer_nodes _ _ (orig_nodes !!! k) peers_nodup).
  - intros Heq. rewrite Heq in Hnode. congruence.
Qed.

(** State of the counting loop after the positions [k < m]. *)
Definition counted (m : nat) (node_sizes : list nat) : Prop :=
  length node_sizes = Z.to_nat (num_nodes c) /\
  forall node, 0 <= node < num_nodes c ->
    node_sizes !!! Z.to_nat node
    = length (filter (fun k => orig_nodes !!! k = node) (seq 0 m)).

Lemma count_nodes_counted m :
  (m <= size_msgs R_send)%nat ->
  counted m (fold_left (count_node orig_nodes) (seq 0 m)
               (replicate (Z.to_nat (num_nodes c)) 0%nat)).
Proof.
  induction m as [|m IH]; intros Hm.
  - cbn [fold_left seq].
    split; [by rewrite length_replicate|]. intros node Hnode.
    rewrite lookup_total_replicate_2 by lia. done.
  - destruct (IH ltac:(lia)) as [Hlen Hcount].
    rewrite seq_S, fold_left_app. cbn [fold_left].
    change (0 + m)%nat with m.
    set (sizes := fold_left (count_node orig_nodes) (seq 0 m) _) in *.
    destruct (key_spec m ltac:(lia)) as [_ Hnode].
    pose proof (peers_range _ (list_elem_of_lookup_2 _ _ _ Hnode)) as Hr.
    unfold counted, count_node. rewrite length_insert.
    split; [done|]. intros node Hrange.
    rewrite seq_S, filter_app, filter_cons, filter_nil, length_app.
    change (0 + m)%nat with m.
    destruct (decide (orig_nodes !!! m = node)) as [<-|Hne]; simpl.
    + rewrite list_lookup_total_insert_eq by lia.
      rewrite Hcount by done. lia.
    + rewrite list_lookup_total_insert_ne by lia.
      rewrite Hcount by done. lia.
Qed.

(** State of the peer loop after the peers [b < m]. *)
Definition peered (m : nat) (st : list nat * list nat) : Prop :=
  length st.1 = Z.to_nat (num_nodes c) /\
  length st.2 = S (length recv_procs) /\
  (forall b node, (b < m)%nat -> peer_nodes !! b = Some node ->
     st.1 !!! Z.to_nat node = b) /\
  (forall b, (b <= m)%nat -> st.2 !!! b = offset (size_msgs R_send) key b).

Lemma peer_displs_peered node_sizes m :
  counted (size_msgs R_send) node_sizes ->
  (m <= length recv_procs)%nat ->
  peered m (fold_left (peer_displs c rank recv_procs node_sizes) (seq 0 m)
              (replicate (Z.to_nat (num_nodes c)) 0%nat,
               replicate (S (length recv_procs)) 0%nat)).
Proof.
  intros [_ Hcount]. induction m as [|m IH]; intros Hm.
  - unfold peered. cbn [fold_left seq fst snd]. rewrite !length_replicate.
    split; [done|]. split; [done|]. split; [intros b node Hb; lia|].
    intros b Hb. assert (b = 0)%nat as -> by lia. done.
  - destruct (IH ltac:(lia)) as (Hidx & Hdis & Hback & Hoff).
    rewrite seq_S, fold_left_app. cbn [fold_left].
    change (0 + m)%nat with m.
    set (st := fold_left (peer_displs c rank recv_procs node_sizes)
                         (seq 0 m) _) in *.
    pose proof (peer_nodes_lookup m ltac:(lia)) as Hpeer.
    pose proof (peers_range _ (list_elem_of_lookup_2 _ _ _ Hpeer)) as Hr.
    unfold peered, peer_displs. cbn [fst snd]. rewrite !length_insert.
    split; [done|]. split; [done|]. split.
    + intros b node Hb Hnode.
      destruct (decide (b = m)) as [->|Hne].
      * assert (node = (Topology.get_node c rank (recv_procs !!! m)).1)
          as -> by congruence.
        apply list_lookup_total_insert_eq. lia.
      * pose proof (peers_range _ (list_elem_of_lookup_2 _ _ _ Hnode)).
        rewrite list_lookup_total_insert_ne; [apply Hback; [lia|done]|].
        intros Heq. apply Hne. symmetry.
        apply (NoDup_lookup peer_nodes _ _ node peers_nodup); [|done].
        rewrite Hpeer. f_equal. lia.
    + intros b Hb. destruct (decide (b = S m)) as [->|Hne].
      * rewrite list_lookup_total_insert_eq by lia.
        rewrite Hoff, Hcount, offset_S by lia.
        by rewrite bucket_of_peer by lia.
      * rewrite list_lookup_total_insert_ne by done. apply Hoff. lia.
Qed.

Lemma peer_key_lt k :
  (k < size_msgs R_send)%nat -> (key k < length recv_procs)%nat.
Proof. intros Hk. by apply key_spec. Qed.

(** The last loop after the peers [b < m]: their messages are recorded,
    the ranges of the other peers are as the placement left them. *)
Lemma add_peer_messages displs (buf0 : list Z) (d0 : CommData) :
  (forall b, (b <= length recv_procs)%nat ->
     displs !!! b = offset (size_msgs R_send) key b) ->
  length buf0 = size_msgs R_send ->
  (forall b, (b < length recv_procs)%nat ->
     slice buf0 (displs !!! b) (displs !!! S b)
     = map val (bucket key b (size_msgs R_send))) ->
  forall m, (m <= length recv_procs)%nat ->
    let st := fold_left (add_peer sort recv_procs displs) (seq 0 m)
                        (buf0, d0) in
    length st.1 = size_msgs R_send /\
    (forall b, (m <= b < length recv_procs)%nat ->
       slice st.1 (displs !!! b) (displs !!! S b)
       = map val (bucket key b (size_msgs R_send))) /\
    messages st.2
    = messages d0
      ++ concat (map (fun b => peer_message sort (recv_procs !!! b)
                                 (map val (bucket key b (size_msgs R_send))))
                     (seq 0 m)) /\
    sealed st.2 = sealed d0.
Proof.
  intros Hdispls Hlen0 Hslices0. induction m as [|m IH]; intros Hm.
  - cbn [fold_left seq map concat fst snd]. rewrite app_nil_r.
    split; [done|]. split; [|done]. intros b Hb. apply Hslices0. lia.
  - destruct (IH ltac:(lia)) as (Hlen & Hslices & Hmsgs & Hsealed).
    cbv zeta. rewrite seq_S, fold_left_app, map_app, concat_app.
    cbn [fold_left map concat]. change (0 + m)%nat with m.
    set (st := fold_left (add_peer sort recv_procs displs) (seq 0 m)
                         (buf0, d0)) in *.
    pose proof (Hslices m ltac:(lia)) as Hslice.
    pose proof (offset_S (size_msgs R_send) key m) as HoffS.
    pose proof (offset_mono (size_msgs R_send) key (S m) (length recv_procs)
                  ltac:(lia)) as Hend.
    rewrite (offset_end (length recv_procs) (size_msgs R_send) key peer_key_lt)
      in Hend.
    rewrite !Hdispls in Hslice by lia. rewrite HoffS in Hslice, Hend.
    set (start := offset (size_msgs R_send) key m) in *.
    set (G := bucket key m (size_msgs R_send)) in *.
    assert (Hstep :
      let st' := add_peer sort recv_procs displs st m in
      length st'.1 = size_msgs R_send /\
      (forall s e, (start + length G <= s)%nat ->
         slice st'.1 s e = slice st.1 s e) /\
      messages st'.2
      = messages st.2 ++ peer_message sort (recv_procs !!! m) (map val G) /\
      sealed st'.2 = sealed st.2).
    { unfold add_peer. rewrite !Hdispls by lia. rewrite HoffS.
      fold start G.
      replace (start + length G - start)%nat with (length G) by lia.
      destruct (Nat.eqb_spec (length G) 0) as [Hz|Hnz].
      - apply nil_length_inv in Hz. rewrite Hz. simpl.
        by rewrite app_nil_r.
      - destruct (sort_range_in_place sort st.1 start (start + length G)
                    sort_perm ltac:(lia)) as (Hl' & Hs' & Hother).
        cbn [fst snd add_msg messages sealed].
        split; [lia|]. split; [done|]. split; [|done].
        rewrite Hs', Hslice, firstn_all.
        f_equal. destruct G; [done|]. done. }
    destruct Hstep as (Hl' & Hother & Hm' & Hs').
    split; [done|]. split; [|split].
    + intros b Hb'.
      pose proof (offset_mono (size_msgs R_send) key (S m) b ltac:(lia)).
      rewrite Hother by (rewrite Hdispls by lia; lia).
      apply Hslices. lia.
    + by rewrite Hm', Hmsgs, app_nil_r, app_assoc.
    + by rewrite Hs'.
Qed.

Lemma messages_by_peer :
  concat (map (fun b => peer_message sort (recv_procs !!! b)
                          (map val (bucket key b (size_msgs R_send))))
              (seq 0 (length recv_procs)))
  = concat (map (fun proc => peer_message sort proc
                               (gathered c rank orig_nodes R_send proc))
                recv_procs).
Proof.
  f_equal.
  transitivity
    (map (fun proc => peer_message sort proc
                        (gathered c rank orig_nodes R_send proc))
         (map (fun b => recv_procs !!! b) (seq 0 (length recv_procs))));
    [|by rewrite map_lookup_seq].
  rewrite map_map. apply map_ext_in. intros b Hb%in_seq. unfold gathered.
  by rewrite bucket_of_peer by lia.
Qed.

Lemma peer_message_spec proc m :
  m ∈ peer_message sort proc (gathered c rank orig_nodes R_send proc) ->
  partner m = proc /\ StronglySorted Z.lt (positions m) /\
  forall x, x ∈ positions m
            <-> x ∈ gathered c rank orig_nodes R_send proc.
Proof.
  unfold peer_message.
  destruct (gathered c rank orig_nodes R_send proc) as [|a g] eqn:Hg;
    [by intros ?%elem_of_nil|].
  intros ->%list_elem_of_singleton. simpl.
  destruct (unique_sorted_spec (sort (a :: g)) (sort_sorted _))
    as [Hsorted Helems].
  split; [done|]. split; [done|]. intros x.
  rewrite Helems. by rewrite (sort_perm (a :: g)).
Qed.

(** C6.  With a sort meeting the contract of [std::sort], recv peers on
    pairwise distinct hosts within [0, num_nodes), every origin host among
    the hosts of the peers, and the origin list as long as the R-stage
    send ledger, [form_global_par_comm] seals a recv ledger with one
    message per peer for whose host something was gathered, in the order
    of [recv_procs].  The index list of each message is strictly
    increasing and has exactly the elements of the duplicate-bearing list
    gathered from the R stage for that peer's host. *)
Theorem C6_global_recv_messages_sorted_unique :
  exists ledger,
    form_global_recv c rank sort recv_procs orig_nodes R_send fresh
      = Some ledger /\
    messages ledger
    = concat (map (fun proc => peer_message sort proc
                                 (gathered c rank orig_nodes R_send proc))
                  recv_procs) /\
    indices ledger = concat (map positions (messages ledger)) /\
    (forall m, m ∈ messages ledger ->
       partner m ∈ recv_procs /\ StronglySorted Z.lt (positions m) /\
       forall x, x ∈ positions m
                 <-> x ∈ gathered c rank orig_nodes R_send (partner m)) /\
    (forall proc, proc ∈ recv_procs ->
       gathered c rank orig_nodes R_send proc <> [] ->
       exists m, m ∈ messages ledger /\ partner m = proc).
Proof.
  unfold form_global_recv.
  pose proof (count_nodes_counted (size_msgs R_send) ltac:(lia)) as Hcounted.
  set (node_sizes := fold_left (count_node orig_nodes) _ _) in *.
  destruct (peer_displs_peered node_sizes (length recv_procs) Hcounted
              ltac:(lia)) as (Hidx & Hdis & Hback & Hoff).
  set (peers := fold_left (peer_displs c rank recv_procs node_sizes) _ _)
    in *.
  rewrite (fold_left_ext_in
             (add_index orig_nodes peers.1 peers.2 (indices R_send))
             (place key val peers.2)).
  2: { intros st k Hk%elem_of_seq. unfold add_index, place.
       destruct (key_spec k ltac:(lia)) as [Hkey Hnode].
       by rewrite (Hback (key k) _ Hkey Hnode). }
  destruct (placement_slices (length recv_procs) (size_msgs R_send) key val
              peers.2 peer_key_lt Hoff (replicate (length recv_procs) 0%nat)
              (replicate (size_msgs R_send) 0)
              ltac:(by rewrite length_replicate)
              ltac:(intros b Hb; by apply lookup_total_replicate_2)
              ltac:(apply length_replicate)) as [Hlen Hslices].
  set (buf := (fold_left (place key val peers.2) _ _).2) in *.
  destruct (add_peer_messages peers.2 buf fresh Hoff Hlen Hslices
              (length recv_procs) ltac:(lia))
    as (_ & _ & Hmsgs & Hsealed).
  set (r := fold_left (add_peer sort recv_procs peers.2) _ _) in *.
  unfold finalize. rewrite Hsealed. cbn [sealed fresh].
  eexists. split; [reflexivity|]. cbn [messages indices].
  rewrite Hmsgs, messages_by_peer. cbn [messages fresh app].
  split; [done|]. split; [done|]. split.
  - intros m Hm. apply list_elem_of_In, in_concat in Hm as (l & Hl & Hm).
    apply in_map_iff in Hl as (proc & <- & Hproc).
    apply list_elem_of_In in Hm, Hproc.
    destruct (peer_message_spec proc m Hm) as (Hp & Hsorted & Helems).
    rewrite Hp. done.
  - intros proc Hproc Hne.
    exists (mkMessage proc
              (unique_sorted (sort (gathered c rank orig_nodes R_send proc)))).
    split; [|done]. apply list_elem_of_In, in_concat.
    exists (peer_message sort proc (gathered c rank orig_nodes R_send proc)).
    split.
    + apply in_map_iff. exists proc. split; [done|by apply list_elem_of_In].
    + unfold peer_message.
      destruct (gathered c rank orig_nodes R_send proc); [done|by left].
Qed.

End global_stage_correct.

(** Three peers on the hosts 2, 5 and 3 (block layout, four processes
    per host) and six identifiers gathered from the R stage, with
    repeats. *)
Lemma C6_global_recv_witness :
  let R_send := mkCommData [mkMessage 1 [30; 10; 30; 20; 10; 40]] true
                           [0; 6]%nat [30; 10; 30; 20; 10; 40] in
  form_global_recv (mkTAPConfig 1 4 8 1000 62 4) 0 (merge_sort Z.le)
                   [9; 21; 14] [2; 5; 2; 3; 5; 2] R_send fresh
  = Some (mkCommData [mkMessage 9 [30; 40]; mkMessage 21 [10];
                      mkMessage 14 [20]]
                     true [0; 2; 3; 4]%nat [30; 40; 10; 20]).
Proof.
  intros R_send.
  destruct (C6_global_recv_messages_sorted_unique
              (mkTAPConfig 1 4 8 1000 62 4) 0 (merge_sort Z.le)
              [9; 21; 14] [2; 5; 2; 3; 5; 2] R_send)
    as (ledger & Hrun & _).
  - intros l. apply merge_sort_Permutation.
  - intros l. apply (Sorted_merge_sort Z.le).
  - apply (bool_decide_unpack _). vm_compute. exact I.
  - apply Forall_forall. apply (bool_decide_unpack _). vm_compute. exact I.
  - reflexivity.
  - apply Forall_forall. apply (bool_decide_unpack _). vm_compute. exact I.
  - reflexivity.
  - rewrite Hrun. vm_compute in Hrun. by injection Hrun as <-.
Defined.

End GlobalStage.

(** ** Further properties of the topology mapper *)
Module TopologyFacts.
Import Topology.

(** Truncating division and remainder of [lp * d + x] with [0 <= x < d]. *)
Lemma quot_rem_of_row (d lp x : Z) :
  0 <= lp -> 0 <= x < d ->
  Z.quot (lp * d + x) d = lp /\ Z.rem (lp * d + x) d = x.
Proof.
  intros Hlp Hx.
  rewrite Z.quot_div_nonneg, Z.rem_mod_nonneg by nia.
  split.
  - symmetry. apply (Z.div_unique_pos _ _ _ x); lia.
  - symmetry. apply (Z.mod_unique_pos _ _ lp); lia.
Qed.

Lemma quot_lt_of_valid (r a b : Z) :
  0 < b -> 0 <= r < a * b -> 0 <= Z.quot r b < a.
Proof.
  intros Hb Hr. rewrite Z.quot_div_nonneg by lia. split.
  - apply Z.div_pos; lia.
  - apply Z.div_lt_upper_bound; lia.
Qed.

Lemma rem_range (r b : Z) : 0 < b -> 0 <= r -> 0 <= Z.rem r b < b.
Proof. intros Hb Hr. apply Z.rem_bound_pos; lia. Qed.

(** X1.  Under the row-major and the block-major layout the mapper
    round-trips every rank, whichever process evaluates it, and prints
    nothing. *)
Theorem X1_round_trip_row_and_block_layout c rank r :
  (rank_ordering c = 0 /\ 0 < num_nodes c) \/
  (rank_ordering c = 1 /\ 0 < PPN c) ->
  get_global_proc c rank (get_node c rank r).1 (get_local_proc c rank r).1
  = (r, []).
Proof.
  intros [[Ho Hn]|[Ho Hn]]; unfold get_global_proc, get_node, get_local_proc;
    rewrite Ho; simpl; f_equal.
  - pose proof (Z.quot_rem' r (num_nodes c)). lia.
  - pose proof (Z.quot_rem' r (PPN c)). lia.
Qed.

Lemma X1_round_trip_witness :
  get_global_proc (mkTAPConfig 1 4 2 1000 62 4) 3
    (get_node (mkTAPConfig 1 4 2 1000 62 4) 3 6).1
    (get_local_proc (mkTAPConfig 1 4 2 1000 62 4) 3 6).1
  = (6, []).
Proof.
  apply (X1_round_trip_row_and_block_layout (mkTAPConfig 1 4 2 1000 62 4)).
  right. simpl. lia.
Defined.

(** X2.  Under the folded layout the composition evaluated by the process
    of rank [rank] returns [r] when [rank] and [r] lie on rows of the same
    parity, in particular when a process maps its own rank, and the mirror
    image of [r] within its row otherwise. *)
Theorem X2_round_trip_folded_layout c rank r :
  rank_ordering c = 2 -> 0 < num_nodes c -> 0 <= rank -> 0 <= r ->
  round_trip c r r = r /\
  round_trip c rank r
  = if Z.rem (Z.quot rank (num_nodes c)) 2
       =? Z.rem (Z.quot r (num_nodes c)) 2
    then r
    else Z.quot r (num_nodes c) * num_nodes c
         + (num_nodes c - Z.rem r (num_nodes c) - 1).
Proof.
  intros Ho Hn Hrank Hr. split.
  - by apply round_trip_ordering2_same_parity.
  - destruct (Z.eqb_spec (Z.rem (Z.quot rank (num_nodes c)) 2)
                         (Z.rem (Z.quot r (num_nodes c)) 2)) as [Heq|Hne].
    + by apply round_trip_ordering2_same_parity.
    + apply round_trip_ordering2_other_parity; try done.
      pose proof (rem_range (Z.quot rank (num_nodes c)) 2 ltac:(lia)
                    ltac:(apply Z.quot_pos; lia)).
      pose proof (rem_range (Z.quot r (num_nodes c)) 2 ltac:(lia)
                    ltac:(apply Z.quot_pos; lia)).
      lia.
Qed.

Lemma X2_round_trip_folded_witness :
  round_trip (mkTAPConfig 2 4 3 1000 62 4) 4 4 = 4 /\
  round_trip (mkTAPConfig 2 4 3 1000 62 4) 0 4 = 4 /\
  round_trip (mkTAPConfig 2 4 3 1000 62 4) 0 3 = 5.
Proof.
  destruct (X2_round_trip_folded_layout (mkTAPConfig 2 4 3 1000 62 4) 0 4
              eq_refl ltac:(simpl; lia) ltac:(lia) ltac:(lia)) as [Hown Hmid].
  destruct (X2_round_trip_folded_layout (mkTAPConfig 2 4 3 1000 62 4) 0 3
              eq_refl ltac:(simpl; lia) ltac:(lia) ltac:(lia)) as [_ Hmirror].
  split; [exact Hown|]. split; [exact Hmid|exact Hmirror].
Defined.

(** X3.  For a supported layout and a valid rank, [get_node] returns a
    host id within [0, num_nodes) and [get_local_proc] an intra-host rank
    within [0, PPN); neither prints. *)
Theorem X3_mapper_results_in_range c rank r :
  supported c -> 0 < PPN c -> 0 < num_nodes c -> valid_rank c r ->
  0 <= (get_node c rank r).1 < num_nodes c /\
  0 <= (get_local_proc c rank r).1 < PPN c /\
  (get_node c rank r).2 = [] /\ (get_local_proc c rank r).2 = [].
Proof.
  unfold supported, valid_rank. intros Hs Hp Hn Hr.
  pose proof (rem_range r (num_nodes c) Hn ltac:(lia)) as Hrem_n.
  pose proof (rem_range r (PPN c) Hp ltac:(lia)) as Hrem_p.
  pose proof (quot_lt_of_valid r (PPN c) (num_nodes c) Hn Hr) as Hq_n.
  pose proof (quot_lt_of_valid r (num_nodes c) (PPN c) Hp ltac:(lia))
    as Hq_p.
  unfold get_node, get_local_proc.
  destruct Hs as [Ho|[Ho|Ho]]; rewrite Ho; simpl; try done.
  destruct (Z.rem (Z.quot r (num_nodes c)) 2 =? 0); simpl;
    repeat split; lia.
Qed.

Lemma X3_mapper_range_witness :
  0 <= (get_node (mkTAPConfig 2 4 3 1000 62 4) 0 5).1 < 3 /\
  0 <= (get_local_proc (mkTAPConfig 2 4 3 1000 62 4) 0 5).1 < 4.
Proof.
  destruct (X3_mapper_results_in_range (mkTAPConfig 2 4 3 1000 62 4) 0 5)
    as (Hnode & Hlocal & _).
  - right. right. reflexivity.
  - simpl. lia.
  - simpl. lia.
  - unfold valid_rank. simpl. lia.
  - split; [exact Hnode|exact Hlocal].
Defined.

(** X4.  For a host id within [0, num_nodes) and an intra-host rank
    within [0, PPN), [get_global_proc] returns a valid rank that
    [get_node] and [get_local_proc] map back to that host and that
    intra-host rank: for every caller under the row-major and the
    block-major layout, and under the folded layout for a caller on a row
    of the parity of the intra-host rank it asks for (as when it asks for
    its own intra-host rank). *)
Theorem X4_global_proc_maps_back c rank node local_proc :
  0 < PPN c -> 0 < num_nodes c ->
  0 <= node < num_nodes c -> 0 <= local_proc < PPN c ->
  rank_ordering c = 0 \/ rank_ordering c = 1 \/
  (rank_ordering c = 2 /\
   Z.rem (Z.quot rank (num_nodes c)) 2 = Z.rem local_proc 2) ->
  let g := (get_global_proc c rank node local_proc).1 in
  valid_rank c g /\
  (get_node c rank g).1 = node /\ (get_local_proc c rank g).1 = local_proc.
Proof.
  intros Hp Hn Hnode Hlp Hs. unfold valid_rank.
  unfold get_global_proc, get_node, get_local_proc.
  destruct Hs as [Ho|[Ho|[Ho Hpar]]]; rewrite Ho; simpl.
  - destruct (quot_rem_of_row (num_nodes c) local_proc node) as [-> ->];
      [lia|lia|]. split; [nia|done].
  - replace (local_proc + node * PPN c) with (node * PPN c + local_proc)
      by lia.
    destruct (quot_rem_of_row (PPN c) node local_proc) as [-> ->];
      [lia|lia|]. split; [nia|done].
  - rewrite Hpar.
    destruct (Z.eqb_spec (Z.rem local_proc 2) 0) as [He|Hodd]; simpl.
    + destruct (quot_rem_of_row (num_nodes c) local_proc node) as [-> ->];
        [lia|lia|]. rewrite He. simpl. split; [nia|done].
    + replace (local_proc * num_nodes c + num_nodes c - node - 1)
        with (local_proc * num_nodes c + (num_nodes c - node - 1)) by lia.
      destruct (quot_rem_of_row (num_nodes c) local_proc
                  (num_nodes c - node - 1)) as [-> ->]; [lia|lia|].
      destruct (Z.eqb_spec (Z.rem local_proc 2) 0); [done|]. simpl.
      split; [nia|]. split; [lia|done].
Qed.

Lemma X4_global_proc_maps_back_witness :
  (get_global_proc (mkTAPConfig 2 4 3 1000 62 4) 5 2 1).1 = 3 /\
  (get_node (mkTAPConfig 2 4 3 1000 62 4) 5 3).1 = 2 /\
  (get_local_proc (mkTAPConfig 2 4 3 1000 62 4) 5 3).1 = 1.
Proof.
  destruct (X4_global_proc_maps_back (mkTAPConfig 2 4 3 1000 62 4) 5 2 1)
    as (_ & Hnode & Hlocal).
  - simpl. lia.
  - simpl. lia.
  - simpl. lia.
  - simpl. lia.
  - right. right. split; reflexivity.
  - split; [reflexivity|]. split; [exact Hnode|exact Hlocal].
Defined.

End TopologyFacts.

(** ** Further properties of the column classifier *)
Module ClassifierFacts.
Import Topology Classifier.

(** X5.  Called with empty output vectors, [split_off_proc_cols] returns
    parallel vectors whose correspondence entries lead back to the
    original list: entry [k] of the on-node vectors is the column at the
    position [on_node_to_off_proc[k]], with the intra-host rank of its
    owner, and that owner is on the caller's host; entry [k] of the
    off-node vectors is the column at [off_node_to_off_proc[k]], with the
    host of its owner, which is not the caller's host.  The two groups
    have [n] entries together. *)
Theorem X5_split_correspondence_leads_back c rank (cols owners : list Z) :
  (length cols <= length owners)%nat ->
  let v := mkSplitVectors cols owners [] [] [] [] [] [] in
  let v' := split_off_proc_cols c rank v in
  let rank_node := (get_node c rank rank).1 in
  length (on_node_column_map v') = length (on_node_to_off_proc v') /\
  length (on_node_col_to_proc v') = length (on_node_to_off_proc v') /\
  length (off_node_column_map v') = length (off_node_to_off_proc v') /\
  length (off_node_col_to_node v') = length (off_node_to_off_proc v') /\
  (length (on_node_to_off_proc v') + length (off_node_to_off_proc v')
   = length cols)%nat /\
  (forall k i, on_node_to_off_proc v' !! k = Some i ->
     (i < length cols)%nat /\
     on_node_column_map v' !! k = Some (cols !!! i) /\
     on_node_col_to_proc v' !! k
       = Some (get_local_proc c rank (owners !!! i)).1 /\
     (get_node c rank (owners !!! i)).1 = rank_node) /\
  (forall k i, off_node_to_off_proc v' !! k = Some i ->
     (i < length cols)%nat /\
     off_node_column_map v' !! k = Some (cols !!! i) /\
     off_node_col_to_node v' !! k
       = Some (get_node c rank (owners !!! i)).1 /\
     (get_node c rank (owners !!! i)).1 <> rank_node).
Proof.
  intros _ v v' rank_node. subst v'.
  rewrite split_off_proc_cols_scanned. unfold scanned.
  cbn [off_proc_column_map off_proc_col_to_proc on_node_column_map
       on_node_col_to_proc on_node_to_off_proc off_node_column_map
       off_node_col_to_node off_node_to_off_proc v app].
  set (on := filter (on_host c rank v) (seq 0 (length cols))).
  set (off := filter (fun i => ~ on_host c rank v i) (seq 0 (length cols))).
  rewrite !length_map.
  split; [done|]. split; [done|]. split; [done|]. split; [done|].
  split.
  { unfold on, off. rewrite <- length_app.
    rewrite (Permutation_length (filter_app_complement _ _)).
    apply length_seq. }
  split.
  - intros k i Hk.
    assert (Hin : i ∈ on) by (by apply list_elem_of_lookup_2 with k).
    apply list_elem_of_filter in Hin as [Hhost Hin].
    apply elem_of_seq in Hin.
    change (map ?f ?l) with (f <$> l). rewrite !list_lookup_fmap, Hk.
    split; [lia|]. split; [done|]. split; [done|]. exact Hhost.
  - intros k i Hk.
    assert (Hin : i ∈ off) by (by apply list_elem_of_lookup_2 with k).
    apply list_elem_of_filter in Hin as [Hhost Hin].
    apply elem_of_seq in Hin.
    change (map ?f ?l) with (f <$> l). rewrite !list_lookup_fmap, Hk.
    split; [lia|]. split; [done|]. split; [done|]. exact Hhost.
Qed.

Lemma X5_split_correspondence_witness :
  let v' := split_off_proc_cols (mkTAPConfig 1 2 2 1000 62 4) 0
              (mkSplitVectors [10; 20; 30; 40] [1; 2; 3; 1]
                              [] [] [] [] [] []) in
  off_node_column_map v' !! 1%nat = Some 30 /\
  off_node_col_to_node v' !! 1%nat = Some 1.
Proof.
  intros v'.
  pose proof (X5_split_correspondence_leads_back
                (mkTAPConfig 1 2 2 1000 62 4) 0
                [10; 20; 30; 40] [1; 2; 3; 1] ltac:(simpl; lia)) as H.
  destruct H as (_ & _ & _ & _ & _ & _ & Hoff).
  destruct (Hoff 1%nat 2%nat eq_refl) as (_ & Hcol & Hnode & _).
  split; [exact Hcol|exact Hnode].
Defined.

End ClassifierFacts.

(** ** Host discovery: the bitmap and the volumes *)
Module HostDiscovery.
Import LoadBalancer.

(** Number of entries of [l] equal to [node]. *)
Definition occurrences (node : Z) (l : list Z) : nat :=
  length (filter (fun x => x = node) l).

(** The test of the decoding loop reads bit [j] of the word. *)
Lemma decode_test (w j : Z) :
  (Z.land (Z.shiftr w j) 1 =? 0) = negb (Z.testbit w j).
Proof.
  rewrite Z.testbit_odd. change 1 with (Z.ones 1) at 1.
  rewrite Z.land_ones by lia. change (2 ^ 1) with 2. rewrite Zmod_odd.
  by destruct (Z.odd _).
Qed.

Lemma elem_of_decode_word (i : nat) (w x : Z) :
  x ∈ decode_word i w <->
  exists pos, 0 <= pos < int_size /\ Z.testbit w pos = true /\
              x = Z.of_nat i * int_size + pos.
Proof.
  unfold decode_word. rewrite list_elem_of_In, in_concat. split.
  - intros (l & Hl & Hx). apply in_map_iff in Hl as (j & <- & Hj).
    apply in_seq in Hj. rewrite decode_test in Hx.
    destruct (Z.testbit w (Z.of_nat j)) eqn:Hbit; simpl in Hx; [|done].
    destruct Hx as [<-|[]]. exists (Z.of_nat j).
    unfold int_size in *. split; [lia|done].
  - intros (pos & Hpos & Hbit & ->).
    exists [Z.of_nat i * int_size + pos]. split; [|by left].
    apply in_map_iff. exists (Z.to_nat pos).
    rewrite Z2Nat.id, decode_test, Hbit by lia. split; [done|].
    apply in_seq. unfold int_size in *. lia.
Qed.

Lemma elem_of_decode_from (ws : list Z) (x : Z) : forall first : nat,
  x ∈ concat (imap (fun i => decode_word (first + i)) ws) <->
  exists (idx : nat) pos,
    (idx < length ws)%nat /\ 0 <= pos < int_size /\
    Z.testbit (ws !!! idx) pos = true /\
    x = Z.of_nat (first + idx) * int_size + pos.
Proof.
  induction ws as [|w ws IH]; intros first.
  - simpl. split; [by intros ?%elem_of_nil|].
    intros (idx & pos & Hidx & _). simpl in Hidx. lia.
  - rewrite imap_cons, concat_cons, elem_of_app, Nat.add_0_r.
    assert (Hshift :
      imap ((fun i => decode_word (first + i)) ∘ S) ws
      = imap (fun i => decode_word (S first + i)) ws).
    { apply imap_ext. intros i y _. simpl. f_equal. lia. }
    rewrite Hshift, (IH (S first)), elem_of_decode_word. split.
    + intros [(pos & Hpos & Hbit & ->)|(idx & pos & Hidx & Hpos & Hbit & ->)].
      * exists 0%nat, pos. rewrite Nat.add_0_r. simpl. split; [lia|done].
      * exists (S idx), pos. simpl. split; [lia|]. split; [done|].
        split; [done|]. f_equal. f_equal. lia.
    + intros (idx & pos & Hidx & Hpos & Hbit & ->).
      destruct idx as [|idx].
      * left. exists pos. by rewrite Nat.add_0_r in *.
      * right. exists idx, pos. simpl in *. split; [lia|]. split; [done|].
        split; [done|]. f_equal. f_equal. lia.
Qed.

(** What the decoding loop lists: the positions of the set bits. *)
Lemma elem_of_decode_bitmap (ws : list Z) (x : Z) :
  x ∈ decode_bitmap ws <->
  exists (idx : nat) pos,
    (idx < length ws)%nat /\ 0 <= pos < int_size /\
    Z.testbit (ws !!! idx) pos = true /\
    x = Z.of_nat idx * int_size + pos.
Proof. apply (elem_of_decode_from ws x 0). Qed.

(** Word and bit of a host id. *)
Lemma word_and_bit (node : Z) (idx : nat) (pos : Z) :
  0 <= node -> 0 <= pos < int_size ->
  Z.of_nat idx * int_size + pos = node <->
  idx = Z.to_nat (Z.quot node int_size) /\ pos = Z.rem node int_size.
Proof.
  unfold int_size. intros Hnode Hpos.
  rewrite Z.quot_div_nonneg, Z.rem_mod_nonneg by lia.
  pose proof (Z.div_mod node 4 ltac:(lia)).
  pose proof (Z.mod_pos_bound node 4 ltac:(lia)).
  assert (0 <= node / 4) by (apply Z.div_pos; lia).
  split.
  - intros <-. split.
    + rewrite <- (Z.div_unique_pos (Z.of_nat idx * 4 + pos) 4
                                   (Z.of_nat idx) pos) by lia. lia.
    + apply (Z.mod_unique_pos _ _ (Z.of_nat idx)); lia.
  - intros [-> ->]. lia.
Qed.

Lemma bitmap_words_cover c (node : Z) :
  0 <= node < num_nodes c ->
  (Z.to_nat (Z.quot node int_size) < bitmap_words c)%nat.
Proof.
  unfold bitmap_words, int_size. intros Hnode.
  rewrite !Z.quot_div_nonneg, Z.rem_mod_nonneg by lia.
  pose proof (Z.div_mod node 4 ltac:(lia)).
  pose proof (Z.mod_pos_bound node 4 ltac:(lia)).
  pose proof (Z.div_mod (num_nodes c) 4 ltac:(lia)).
  pose proof (Z.mod_pos_bound (num_nodes c) 4 ltac:(lia)).
  assert (0 <= node / 4) by (apply Z.div_pos; lia).
  destruct (Z.eqb_spec (num_nodes c mod 4) 0); lia.
Qed.

(** State of the marking loop of one process after the entries [l]. *)
Definition marked (c : TAPConfig) (l : list Z) (st : list Z * list Z)
  : Prop :=
  length st.1 = bitmap_words c /\
  length st.2 = Z.to_nat (num_nodes c) /\
  (forall (idx : nat) pos, (idx < bitmap_words c)%nat ->
     0 <= pos < int_size ->
     Z.testbit (st.1 !!! idx) pos = true
     <-> Z.of_nat idx * int_size + pos ∈ l) /\
  (forall node, 0 <= node < num_nodes c ->
     st.2 !!! Z.to_nat node = Z.of_nat (occurrences node l)).

Lemma mark_node_marked c l st node :
  0 <= node < num_nodes c -> marked c l st ->
  marked c (l ++ [node]) (mark_node st node).
Proof.
  intros Hnode (Hbm & Hsz & Hbits & Hcount).
  pose proof (bitmap_words_cover c node Hnode) as Hidx.
  assert (Hpos : 0 <= Z.rem node int_size < int_size)
    by (apply Z.rem_bound_pos; unfold int_size; lia).
  unfold marked, mark_node. cbn [fst snd]. rewrite !length_insert.
  split; [done|]. split; [done|]. split.
  - intros idx pos Hi Hp. rewrite elem_of_app, list_elem_of_singleton.
    rewrite (word_and_bit node idx pos) by lia.
    destruct (decide (idx = Z.to_nat (Z.quot node int_size))) as [->|Hne].
    + rewrite list_lookup_total_insert_eq by lia.
      rewrite Z.lor_spec, Z.shiftl_1_l, Z.pow2_bits_eqb by lia.
      rewrite orb_true_iff, (Hbits _ pos Hi Hp), Z.eqb_eq. intuition.
    + rewrite list_lookup_total_insert_ne by done.
      rewrite (Hbits idx pos Hi Hp). intuition.
  - intros node' Hnode'. unfold occurrences.
    rewrite filter_app, filter_cons, filter_nil, length_app.
    destruct (decide (node = node')) as [->|Hne].
    + rewrite list_lookup_total_insert_eq by lia.
      rewrite (Hcount node' Hnode'). unfold occurrences. simpl. lia.
    + rewrite list_lookup_total_insert_ne by lia.
      rewrite (Hcount node' Hnode'). unfold occurrences. simpl. lia.
Qed.

Lemma mark_nodes_marked c (l : list Z) :
  (forall node, node ∈ l -> 0 <= node < num_nodes c) ->
  marked c l (mark_nodes c l).
Proof.
  unfold mark_nodes. induction l as [|node l IH] using rev_ind; intros Hl.
  - unfold marked. cbn [fold_left fst snd]. rewrite !length_replicate.
    split; [done|]. split; [done|]. split.
    + intros idx pos Hi Hp. rewrite lookup_total_replicate_2 by done.
      rewrite Z.bits_0. split; [done|by intros ?%elem_of_nil].
    + intros node Hnode. rewrite lookup_total_replicate_2 by lia. done.
  - rewrite fold_left_app. cbn [fold_left]. apply mark_node_marked.
    + apply Hl. apply elem_of_app. right. by apply list_elem_of_singleton.
    + apply IH. intros x Hx. apply Hl. apply elem_of_app. by left.
Qed.

(** The reduction over the processes of the host, entry by entry. *)
Lemma allreduce_fold (op : Z -> Z -> Z) (contribs : list (list Z)) :
  forall acc : list Z,
  (forall v, v ∈ contribs -> length v = length acc) ->
  length (fold_left (fun a v => zip_with op a v) contribs acc) = length acc /\
  forall i, (i < length acc)%nat ->
    fold_left (fun a v => zip_with op a v) contribs acc !!! i
    = fold_left op (map (fun v => v !!! i) contribs) (acc !!! i).
Proof.
  induction contribs as [|v contribs IH]; intros acc Hlen; [done|].
  pose proof (Hlen v ltac:(apply list_elem_of_here)) as Hv.
  assert (Hz : length (zip_with op acc v) = length acc)
    by (rewrite length_zip_with; lia).
  destruct (IH (zip_with op acc v)) as [IHlen IHget].
  { intros w Hw. rewrite Hz. apply Hlen. by apply list_elem_of_further. }
  cbn [fold_left map]. split; [by rewrite IHlen|].
  intros i Hi. rewrite IHget by lia.
  rewrite !list_lookup_total_alt.
  rewrite lookup_zip_with.
  destruct (lookup_lt_is_Some_2 acc i ltac:(lia)) as [a ->].
  destruct (lookup_lt_is_Some_2 v i ltac:(lia)) as [b ->].
  done.
Qed.

Lemma allreduce_lookup (op : Z -> Z -> Z) (n : nat)
    (contribs : list (list Z)) :
  (forall v, v ∈ contribs -> length v = n) ->
  length (allreduce op n contribs) = n /\
  forall i, (i < n)%nat ->
    allreduce op n contribs !!! i
    = fold_left op (map (fun v => v !!! i) contribs) 0.
Proof.
  intros Hlen. unfold allreduce.
  destruct (allreduce_fold op contribs (replicate n 0)) as [Hl Hget].
  { intros v Hv. rewrite length_replicate. by apply Hlen. }
  rewrite length_replicate in *. split; [done|].
  intros i Hi. rewrite Hget by done.
  by rewrite lookup_total_replicate_2.
Qed.

Lemma testbit_fold_lor (ws : list Z) (pos : Z) : forall a,
  Z.testbit (fold_left Z.lor ws a) pos = true <->
  Z.testbit a pos = true \/ exists w, w ∈ ws /\ Z.testbit w pos = true.
Proof.
  induction ws as [|w ws IH]; intros a.
  - simpl. split; [by left|]. intros [?|(w & Hw%elem_of_nil & _)]; done.
  - cbn [fold_left]. rewrite IH, Z.lor_spec, orb_true_iff. split.
    + intros [[Ha|Hw]|(w' & Hw' & Hbit)].
      * by left.
      * right. exists w. split; [apply list_elem_of_here|done].
      * right. exists w'. split; [by apply list_elem_of_further|done].
    + intros [Ha|(w' & Hw' & Hbit)]; [by left; left|].
      apply elem_of_cons in Hw' as [->|Hw'].
      * left. by right.
      * right. by exists w'.
Qed.

Lemma fold_add_occurrences (node : Z) (locals : list (list Z)) : forall a,
  fold_left Z.add (map (fun l => Z.of_nat (occurrences node l)) locals) a
  = a + Z.of_nat (occurrences node (concat locals)).
Proof.
  induction locals as [|l locals IH]; intros a.
  - unfold occurrences. simpl. lia.
  - cbn [map fold_left concat]. rewrite IH. unfold occurrences.
    rewrite filter_app, length_app. lia.
Qed.

(** The hosts decoded from the reduced bitmap are the hosts some process
    of the host marked. *)
Lemma elem_of_decoded_hosts c (locals : list (list Z)) :
  (forall l node, l ∈ locals -> node ∈ l -> 0 <= node < num_nodes c) ->
  forall x,
    x ∈ decode_bitmap (allreduce Z.lor (bitmap_words c)
                                 (map fst (map (mark_nodes c) locals)))
    <-> exists l, l ∈ locals /\ x ∈ l.
Proof.
  intros Hrange.
  assert (Hmarks : forall l, l ∈ locals -> marked c l (mark_nodes c l)).
  { intros l Hl. apply mark_nodes_marked. intros node. by apply Hrange. }
  destruct (allreduce_lookup Z.lor (bitmap_words c)
              (map fst (map (mark_nodes c) locals))) as [Hlen Hget].
  { intros v Hv. apply list_elem_of_In in Hv.
    rewrite map_map in Hv. apply in_map_iff in Hv as (l & <- & Hl).
    apply list_elem_of_In in Hl. by destruct (Hmarks l Hl) as [-> _]. }
  assert (Hbit : forall (idx : nat) pos,
    (idx < bitmap_words c)%nat -> 0 <= pos < int_size ->
    Z.testbit (allreduce Z.lor (bitmap_words c)
                 (map fst (map (mark_nodes c) locals)) !!! idx) pos = true
    <-> exists l, l ∈ locals /\ Z.of_nat idx * int_size + pos ∈ l).
  { intros idx pos Hidx Hpos. rewrite Hget, testbit_fold_lor by done.
    rewrite Z.bits_0. split.
    - intros [?|(w & Hw & Hb)]; [done|].
      apply list_elem_of_In in Hw. rewrite !map_map in Hw.
      apply in_map_iff in Hw as (l & <- & Hl). apply list_elem_of_In in Hl.
      exists l. split; [done|].
      destruct (Hmarks l Hl) as (_ & _ & Hbits & _). by apply Hbits.
    - intros (l & Hl & Hin). right.
      exists ((mark_nodes c l).1 !!! idx). split.
      + apply list_elem_of_In. rewrite !map_map. apply in_map_iff.
        exists l. split; [done|by apply list_elem_of_In].
      + destruct (Hmarks l Hl) as (_ & _ & Hbits & _). by apply Hbits. }
  intros x. rewrite elem_of_decode_bitmap, Hlen. split.
  - intros (idx & pos & Hidx & Hpos & Hb & ->). by apply Hbit.
  - intros (l & Hl & Hx). pose proof (Hrange l x Hl Hx) as Hr.
    exists (Z.to_nat (Z.quot x int_size)), (Z.rem x int_size).
    pose proof (bitmap_words_cover c x Hr) as Hidx.
    assert (Hpos : 0 <= Z.rem x int_size < int_size)
      by (apply Z.rem_bound_pos; unfold int_size; lia).
    assert (Hx' : Z.of_nat (Z.to_nat (Z.quot x int_size)) * int_size
                  + Z.rem x int_size = x)
      by (apply word_and_bit; [lia|done|done]).
    split; [done|]. split; [done|]. split; [|done].
    apply Hbit; [done|done|]. exists l. by rewrite Hx'.
Qed.

Lemma strictly_increasing_NoDup (l : list Z) :
  StronglySorted Z.lt l -> NoDup l.
Proof.
  induction 1 as [|a l Hs IH Hall]; constructor; [|done].
  intros Hin. rewrite Forall_forall in Hall. specialize (Hall a Hin). lia.
Qed.

Lemma fanout_rule_upper c ctr size :
  1 <= PPN c -> fanout_rule c ctr size <= Z.max (PPN c) (ideal_n_comm c).
Proof.
  intros Hp. unfold fanout_rule.
  destruct (Z.gtb_spec size (eager_cutoff c)).
  - destruct (Z.geb_spec (Z.quot size (eager_cutoff c)) (PPN c)); lia.
  - destruct ((size >? short_cutoff c) && (ctr <? PPN c)); [|lia].
    destruct (Z.geb_spec (Z.quot size (short_cutoff c)) (PPN c)); lia.
Qed.

(** X6.  With all host ids within [0, num_nodes), the host list decoded
    from the OR-reduced bitmap is in strictly increasing order, so no
    host is listed twice, and its entries are exactly the hosts some
    process of the host has an off-node column on. *)
Theorem X6_decoded_hosts_are_the_marked_hosts c (locals : list (list Z)) :
  (forall l node, l ∈ locals -> node ∈ l -> 0 <= node < num_nodes c) ->
  let hosts :=
    decode_bitmap (allreduce Z.lor (bitmap_words c)
                             (map fst (map (mark_nodes c) locals))) in
  StronglySorted Z.lt hosts /\ NoDup hosts /\
  forall x, x ∈ hosts <-> exists l, l ∈ locals /\ x ∈ l.
Proof.
  intros Hrange hosts.
  pose proof (decode_bitmap_increasing
                (allreduce Z.lor (bitmap_words c)
                           (map fst (map (mark_nodes c) locals)))) as Hs.
  split; [exact Hs|]. split.
  - by apply strictly_increasing_NoDup.
  - by apply elem_of_decoded_hosts.
Qed.

Lemma X6_decoded_hosts_witness :
  decode_bitmap (allreduce Z.lor (bitmap_words (mkTAPConfig 1 4 8 1000 62 4))
                   (map fst (map (mark_nodes (mkTAPConfig 1 4 8 1000 62 4))
                                 [[5; 1; 5; 7]; [7; 5; 7]])))
  = [1; 5; 7] /\
  1 ∈ [1; 5; 7].
Proof.
  destruct (X6_decoded_hosts_are_the_marked_hosts
              (mkTAPConfig 1 4 8 1000 62 4) [[5; 1; 5; 7]; [7; 5; 7]])
    as (_ & _ & Hmem).
  - intros l node Hl Hn.
    assert (H : Forall (Forall (fun node => 0 <= node < 8))
                       [[5; 1; 5; 7]; [7; 5; 7]])
      by (apply (bool_decide_unpack _); vm_compute; exact I).
    rewrite Forall_forall in H. specialize (H l Hl).
    rewrite Forall_forall in H. exact (H node Hn).
  - split; [reflexivity|].
    change [1; 5; 7] with
      (decode_bitmap (allreduce Z.lor
                        (bitmap_words (mkTAPConfig 1 4 8 1000 62 4))
                        (map fst (map (mark_nodes
                                         (mkTAPConfig 1 4 8 1000 62 4))
                                      [[5; 1; 5; 7]; [7; 5; 7]])))).
    apply Hmem. exists [5; 1; 5; 7].
    split; [apply list_elem_of_here|].
    apply list_elem_of_further, list_elem_of_here.
Defined.

(** X7.  For host ids within [0, num_nodes), the sum-reduced volume
    vector holds, for every listed host, the number of off-node columns
    the processes of the host have on it, all processes together. *)
Theorem X7_volumes_count_columns_per_host c (locals : list (list Z))
    (hosts : list Z) :
  (forall l node, l ∈ locals -> node ∈ l -> 0 <= node < num_nodes c) ->
  (forall node, node ∈ hosts -> 0 <= node < num_nodes c) ->
  allreduce Z.add (length hosts)
    (map (fun m : list Z * list Z =>
            map (fun node => m.2 !!! Z.to_nat node) hosts)
         (map (mark_nodes c) locals))
  = map (fun node => Z.of_nat (occurrences node (concat locals))) hosts.
Proof.
  intros Hrange Hhosts.
  destruct (allreduce_lookup Z.add (length hosts)
              (map (fun m : list Z * list Z =>
                      map (fun node => m.2 !!! Z.to_nat node) hosts)
                   (map (mark_nodes c) locals))) as [Hlen Hget].
  { intros v Hv. apply list_elem_of_In in Hv.
    apply in_map_iff in Hv as (m & <- & _). by rewrite length_map. }
  apply (list_eq_same_length _ _ (length hosts));
    [by rewrite length_map|done|].
  intros k x y Hk Hx Hy.
  apply list_lookup_total_correct in Hx. rewrite Hget in Hx by done.
  change (map ?f hosts) with (f <$> hosts) in Hy.
  rewrite list_lookup_fmap in Hy.
  rewrite (list_lookup_lookup_total_lt hosts k Hk) in Hy.
  injection Hy as <-. rewrite <- Hx. rewrite !map_map.
  pose proof (Hhosts (hosts !!! k)
                ltac:(apply list_elem_of_lookup_total_2; lia)) as Hr.
  rewrite (map_ext_in _ (fun l => Z.of_nat (occurrences (hosts !!! k) l))).
  - by rewrite fold_add_occurrences.
  - intros l Hl%list_elem_of_In.
    destruct (mark_nodes_marked c l ltac:(intros node; by apply Hrange))
      as (_ & _ & _ & Hcount).
    apply list_lookup_total_correct.
    change (map ?f hosts) with (f <$> hosts).
    rewrite list_lookup_fmap, (list_lookup_lookup_total_lt hosts k Hk).
    simpl. by rewrite Hcount.
Qed.

Lemma X7_volumes_witness :
  allreduce Z.add 3
    (map (fun m : list Z * list Z =>
            map (fun node => m.2 !!! Z.to_nat node) [1; 5; 7])
         (map (mark_nodes (mkTAPConfig 1 4 8 1000 62 4))
              [[5; 1; 5; 7]; [7; 5; 7]]))
  = [1; 3; 3].
Proof.
  apply (X7_volumes_count_columns_per_host (mkTAPConfig 1 4 8 1000 62 4)
           [[5; 1; 5; 7]; [7; 5; 7]] [1; 5; 7]).
  - intros l node Hl Hn.
    assert (H : Forall (Forall (fun node => 0 <= node < 8))
                       [[5; 1; 5; 7]; [7; 5; 7]])
      by (apply (bool_decide_unpack _); vm_compute; exact I).
    rewrite Forall_forall in H. specialize (H l Hl).
    rewrite Forall_forall in H. exact (H node Hn).
  - apply Forall_forall. apply (bool_decide_unpack _). vm_compute. exact I.
Defined.

(** X8.  With positive thresholds, ideal fan-out and [PPN], host ids
    within [0, num_nodes) and a sort that honours its contract on the
    summed volumes, [gather_off_node_nodes] started on an empty fan-out
    vector returns every marked host exactly once, nothing else, and one
    fan-out per host, each between 1 and the larger of [PPN] and the
    ideal fan-out. *)
Theorem X8_gather_lists_marked_hosts_once c (sort : list Z -> list nat)
    (locals : list (list Z)) :
  0 < eager_cutoff c -> 0 < short_cutoff c ->
  1 <= ideal_n_comm c -> 1 <= PPN c ->
  (forall l node, l ∈ locals -> node ∈ l -> 0 <= node < num_nodes c) ->
  (let hosts := decode_bitmap (allreduce Z.lor (bitmap_words c)
                                 (map fst (map (mark_nodes c) locals))) in
   let sizes := allreduce Z.add (length hosts)
                  (map (fun m : list Z * list Z =>
                          map (fun node => m.2 !!! Z.to_nat node) hosts)
                       (map (mark_nodes c) locals)) in
   sorted_by_volume sizes (sort sizes)) ->
  exists hosts fans,
    gather_off_node_nodes c sort locals [] = Some (hosts, fans) /\
    NoDup hosts /\
    (forall x, x ∈ hosts <-> exists l, l ∈ locals /\ x ∈ l) /\
    length fans = length hosts /\
    forall f, f ∈ fans -> 1 <= f <= Z.max (PPN c) (ideal_n_comm c).
Proof.
  intros He Hs Hi Hp Hrange Hsort.
  set (hosts := decode_bitmap (allreduce Z.lor (bitmap_words c)
                                 (map fst (map (mark_nodes c) locals)))) in *.
  set (sizes := allreduce Z.add (length hosts)
                  (map (fun m : list Z * list Z =>
                          map (fun node => m.2 !!! Z.to_nat node) hosts)
                       (map (mark_nodes c) locals))) in *.
  cbv zeta in Hsort.
  pose proof (strictly_increasing_NoDup hosts
                (decode_bitmap_increasing _)) as Hnd.
  pose proof (elem_of_decoded_hosts c locals Hrange) as Hmem. fold hosts in Hmem.
  destruct (decide (hosts = [])) as [Hnil|Hne].
  - exists [], []. split.
    { unfold gather_off_node_nodes. fold hosts. by rewrite Hnil. }
    rewrite <- Hnil. split; [done|]. split; [done|]. rewrite Hnil.
    split; [done|]. intros f Hf. by apply elem_of_nil in Hf.
  - assert (Hlen : length sizes = length hosts).
    { apply allreduce_lookup. intros v Hv. apply list_elem_of_In in Hv.
      apply in_map_iff in Hv as (m & <- & _). by rewrite length_map. }
    destruct (load_balance_correct c (sort sizes) hosts sizes Hlen Hsort)
      as [Hrun Hget].
    assert (Hperm : Permutation (seq 0 (length hosts)) (sort sizes)).
    { rewrite <- Hlen. by destruct Hsort as [Hperm _]. }
    pose proof (index_perm_length _ _ Hperm) as Hpl.
    eexists _, _. split.
    { rewrite (gather_off_node_nodes_balance c sort locals [] Hne).
      fold hosts. fold sizes. exact Hrun. }
    pose proof (sort_then_copy_permutation (sort sizes) hosts Hperm) as Hph.
    split; [by rewrite <- Hph|]. split.
    { intros x. by rewrite <- Hph. }
    split; [unfold sort_then_copy; by rewrite !length_map|].
    intros f Hf. apply list_elem_of_lookup_total in Hf as (k & Hk & <-).
    unfold sort_then_copy in Hk. rewrite length_map in Hk.
    destruct (Hget k ltac:(lia)) as [_ ->]. split.
    + by apply fanout_rule_positive.
    + by apply fanout_rule_upper.
Qed.

Lemma X8_gather_witness :
  exists hosts fans,
    gather_off_node_nodes (mkTAPConfig 1 4 8 1000 62 4)
      (fun _ => [2; 1; 0]%nat) [[1; 5; 5; 7]; [5; 7; 7; 7; 7]] []
    = Some (hosts, fans) /\
    NoDup hosts /\
    (forall x, x ∈ hosts <->
       exists l, l ∈ [[1; 5; 5; 7]; [5; 7; 7; 7; 7]] /\ x ∈ l) /\
    length fans = length hosts /\
    forall f, f ∈ fans -> 1 <= f <= Z.max 4 4.
Proof.
  apply (X8_gather_lists_marked_hosts_once (mkTAPConfig 1 4 8 1000 62 4)
           (fun _ => [2; 1; 0]%nat) [[1; 5; 5; 7]; [5; 7; 7; 7; 7]]).
  - simpl. lia.
  - simpl. lia.
  - simpl. lia.
  - simpl. lia.
  - intros l node Hl Hn.
    assert (H : Forall (Forall (fun node => 0 <= node < 8))
                       [[1; 5; 5; 7]; [5; 7; 7; 7; 7]])
      by (apply (bool_decide_unpack _); vm_compute; exact I).
    rewrite Forall_forall in H. specialize (H l Hl).
    rewrite Forall_forall in H. exact (H node Hn).
  - by apply sorted_by_volume_check.
Defined.

End HostDiscovery.

(** ** [find_global_comm_procs]: who asks which host *)
Module GlobalPeers.
Import Topology Buckets RStage.

(** The request posted with [MPI_Issend]: the host asked for and the rank
    it goes to, [get_global_proc(node, local_rank)]. *)
Definition request (c : TAPConfig) (rank local_rank node : Z) : Z * Z :=
  (node, (get_global_proc c rank node local_rank).1).

(** Body of the inner loop: the counter [ctr] goes up by one, and the turn
    is taken when the old counter is [local_rank] modulo [PPN].  The state
    is [ctr] and the requests posted so far; [n_recvs] is their number. *)
Definition claim (c : TAPConfig) (rank local_rank : Z)
    (st : Z * list (Z * Z)) (node : Z) : Z * list (Z * Z) :=
  (st.1 + 1,
   if Z.rem st.1 (PPN c) =? local_rank
   then st.2 ++ [request c rank local_rank node] else st.2).

(** Iteration [i] of the outer loop: [nodal_num_local[i]] turns for the
    host [recv_nodes[i]]. *)
Definition claim_node (c : TAPConfig) (rank local_rank : Z)
    (recv_nodes nodal_num_local : list Z)
    (st : Z * list (Z * Z)) (i : nat) : Z * list (Z * Z) :=
  fold_left (fun st' (_ : nat) =>
               claim c rank local_rank st' (recv_nodes !!! i))
            (seq 0 (Z.to_nat (nodal_num_local !!! i))) st.

(** The double loop that posts the requests of one process. *)
Definition post_requests (c : TAPConfig) (rank local_rank : Z)
    (recv_nodes nodal_num_local : list Z) : Z * list (Z * Z) :=
  fold_left (claim_node c rank local_rank recv_nodes nodal_num_local)
            (seq 0 (length recv_nodes)) (0, []).

(** Size given to the [requests] vector before the loop. *)
Definition requests_size (c : TAPConfig) (recv_nodes : list Z) : Z :=
  Z.quot (Z.of_nat (length recv_nodes)) (PPN c) + 1.

(** The turns of the first [m] hosts: every host as many times as its
    fan-out says, in the order of the host list. *)
Definition turns_upto (recv_nodes nodal_num_local : list Z) (m : nat)
  : list Z :=
  concat (map (fun i => replicate (Z.to_nat (nodal_num_local !!! i))
                                  (recv_nodes !!! i))
              (seq 0 m)).

Definition turns (recv_nodes nodal_num_local : list Z) : list Z :=
  turns_upto recv_nodes nodal_num_local (length recv_nodes).

(** The turns taken by [local_rank]. *)
Definition taken (c : TAPConfig) (local_rank : Z) (from : Z) (m : nat)
  : list nat :=
  filter (fun k => Z.rem (from + Z.of_nat k) (PPN c) = local_rank) (seq 0 m).

Lemma turns_upto_S recv_nodes fans m :
  turns_upto recv_nodes fans (S m)
  = turns_upto recv_nodes fans m
    ++ replicate (Z.to_nat (fans !!! m)) (recv_nodes !!! m).
Proof.
  unfold turns_upto. rewrite seq_S, map_app, concat_app. simpl.
  by rewrite app_nil_r.
Qed.

Lemma claim_replicate c rank lr node (m : nat) : forall st,
  fold_left (fun st' (_ : nat) => claim c rank lr st' node) (seq 0 m) st
  = fold_left (claim c rank lr) (replicate m node) st.
Proof.
  induction m as [|m IH]; intros st; [done|].
  by rewrite seq_S, fold_left_app, IH, replicate_S_end, fold_left_app.
Qed.

(** The double loop is one loop over the turns. *)
Lemma post_requests_turns c rank lr recv_nodes fans :
  post_requests c rank lr recv_nodes fans
  = fold_left (claim c rank lr) (turns recv_nodes fans) (0, []).
Proof.
  unfold post_requests, turns.
  induction (length recv_nodes) as [|m IH]; [done|].
  rewrite seq_S, fold_left_app, IH, turns_upto_S, fold_left_app. simpl.
  unfold claim_node. apply claim_replicate.
Qed.

Lemma taken_S c lr from m :
  taken c lr from (S m)
  = taken c lr from m
    ++ (if decide (Z.rem (from + Z.of_nat m) (PPN c) = lr) then [m] else []).
Proof.
  unfold taken. rewrite seq_S, filter_app, filter_cons, filter_nil.
  change (0 + m)%nat with m.
  by destruct (decide (Z.rem (from + Z.of_nat m) (PPN c) = lr)).
Qed.

Lemma taken_lt c lr from m k : k ∈ taken c lr from m -> (k < m)%nat.
Proof.
  unfold taken. intros [_ Hk%elem_of_seq]%list_elem_of_filter. lia.
Qed.

(** One loop over the turns [l]: the requests posted are those of the
    turns whose number is [local_rank] modulo [PPN]. *)
Lemma claims_taken c rank lr (l : list Z) (st : Z * list (Z * Z)) :
  fold_left (claim c rank lr) l st
  = (st.1 + Z.of_nat (length l),
     st.2 ++ map (fun k => request c rank lr (l !!! k))
                 (taken c lr st.1 (length l))).
Proof.
  induction l as [|x l IH] using rev_ind.
  - simpl. destruct st as [n posts]. simpl. f_equal; [lia|].
    by rewrite app_nil_r.
  - rewrite fold_left_app, IH, length_app. simpl.
    rewrite Nat.add_1_r, taken_S, map_app. unfold claim. simpl.
    f_equal; [lia|].
    assert (Hold : map (fun k => request c rank lr ((l ++ [x]) !!! k))
                       (taken c lr st.1 (length l))
                   = map (fun k => request c rank lr (l !!! k))
                         (taken c lr st.1 (length l))).
    { apply map_ext_in. intros k Hk%list_elem_of_In%taken_lt.
      by rewrite lookup_total_app_l. }
    rewrite Hold.
    destruct (decide (Z.rem (st.1 + Z.of_nat (length l)) (PPN c) = lr))
      as [Heq|Hne].
    + apply Z.eqb_eq in Heq as ->. simpl.
      rewrite lookup_total_app_r by lia. rewrite Nat.sub_diag. simpl.
      by rewrite app_assoc.
    + apply Z.eqb_neq in Hne as ->. simpl. by rewrite app_nil_r.
Qed.

Lemma post_requests_taken c rank lr recv_nodes fans :
  post_requests c rank lr recv_nodes fans
  = (Z.of_nat (length (turns recv_nodes fans)),
     map (fun k => request c rank lr (turns recv_nodes fans !!! k))
         (taken c lr 0 (length (turns recv_nodes fans)))).
Proof. by rewrite post_requests_turns, claims_taken. Qed.

(** Number of turns below [m] taken by [local_rank]. *)
Lemma length_taken c lr (m : nat) :
  0 < PPN c -> 0 <= lr < PPN c ->
  Z.of_nat (length (taken c lr 0 m))
  = (Z.of_nat m + PPN c - 1 - lr) / PPN c.
Proof.
  intros Hp Hlr. induction m as [|m IH].
  - simpl. symmetry. apply Z.div_small. lia.
  - rewrite taken_S, length_app, Nat2Z.inj_add, IH.
    rewrite Z.add_0_l, Z.rem_mod_nonneg by lia.
    pose proof (Z.div_mod (Z.of_nat m) (PPN c) ltac:(lia)) as Hdm.
    pose proof (Z.mod_pos_bound (Z.of_nat m) (PPN c) Hp) as Hr.
    set (q := Z.of_nat m / PPN c) in *.
    set (r := Z.of_nat m mod PPN c) in *.
    destruct (decide (r = lr)) as [Heq|Hne]; simpl.
    + rewrite <- (Z.div_unique_pos (Z.of_nat m + PPN c - 1 - lr) (PPN c)
                    q (PPN c - 1)) by lia.
      rewrite <- (Z.div_unique_pos (Z.of_nat (S m) + PPN c - 1 - lr) (PPN c)
                    (q + 1) 0) by lia.
      lia.
    + destruct (decide (r < lr)) as [Hlt|Hge].
      * rewrite <- (Z.div_unique_pos (Z.of_nat m + PPN c - 1 - lr) (PPN c)
                      q (r + PPN c - 1 - lr)) by lia.
        rewrite <- (Z.div_unique_pos (Z.of_nat (S m) + PPN c - 1 - lr)
                      (PPN c) q (r + PPN c - lr)) by lia.
        lia.
      * rewrite <- (Z.div_unique_pos (Z.of_nat m + PPN c - 1 - lr) (PPN c)
                      (q + 1) (r - 1 - lr)) by lia.
        rewrite <- (Z.div_unique_pos (Z.of_nat (S m) + PPN c - 1 - lr)
                      (PPN c) (q + 1) (r - lr)) by lia.
        lia.
Qed.

Lemma length_turns_upto recv_nodes fans (m : nat) :
  (m <= length fans)%nat -> (forall f, f ∈ fans -> 0 <= f) ->
  Z.of_nat (length (turns_upto recv_nodes fans m))
  = foldr Z.add 0 (take m fans).
Proof.
  intros Hm Hpos. induction m as [|m IH]; [done|].
  assert (Hf : fans !! m = Some (fans !!! m))
    by (apply list_lookup_lookup_total_lt; lia).
  pose proof (Hpos _ (list_elem_of_lookup_2 _ _ _ Hf)).
  rewrite turns_upto_S, length_app, length_replicate, Nat2Z.inj_add.
  rewrite IH, (take_S_r _ _ _ Hf), sum_snoc by lia. lia.
Qed.

Lemma length_turns recv_nodes fans :
  length fans = length recv_nodes -> (forall f, f ∈ fans -> 0 <= f) ->
  Z.of_nat (length (turns recv_nodes fans)) = foldr Z.add 0 fans.
Proof.
  intros Hlen Hpos. unfold turns.
  rewrite length_turns_upto by (done || lia).
  by rewrite <- Hlen, firstn_all.
Qed.







(** X11.  Once the fan-outs sum to more than
    [PPN * (n_recv_nodes / PPN + 1) + local_rank], the process posts more
    requests than the size given to the [requests] vector: the loop
    stores a request past the end of the vector. *)
Theorem X11_requests_outgrow_their_vector c rank lr
    (recv_nodes fans : list Z) :
  0 < PPN c -> 0 <= lr < PPN c ->
  length fans = length recv_nodes -> (forall f, f ∈ fans -> 0 <= f) ->
  PPN c * requests_size c recv_nodes + lr < foldr Z.add 0 fans ->
  requests_size c recv_nodes
  < Z.of_nat (length (post_requests c rank lr recv_nodes fans).2).
Proof.
  intros Hp Hlr Hlen Hpos Hsum.
  rewrite post_requests_taken. cbn [snd].
  rewrite length_map, length_taken, length_turns by done.
  assert (requests_size c recv_nodes + 1
          <= (foldr Z.add 0 fans + PPN c - 1 - lr) / PPN c); [|lia].
  apply Z.div_le_lower_bound; [done|]. lia.
Qed.

Lemma X11_requests_outgrow_witness :
  requests_size (mkTAPConfig 1 4 8 1000 62 4) [7; 5; 1]
  < Z.of_nat (length (post_requests (mkTAPConfig 1 4 8 1000 62 4) 0 0
                                    [7; 5; 1] [2; 2; 2]).2).
Proof.
  apply (X11_requests_outgrow_their_vector (mkTAPConfig 1 4 8 1000 62 4) 0 0
           [7; 5; 1] [2; 2; 2]).
  - simpl. lia.
  - simpl. lia.
  - reflexivity.
  - apply Forall_forall. apply (bool_decide_unpack _). vm_compute. exact I.
  - vm_compute. reflexivity.
Defined.



(** *** "Distribute send_procs across local procs" *)

(** The loop [for (i = local_rank; i < n_send_procs; i += PPN)], run in
    place on [send_procs]; the state is the vector and [n_sends], and
    [fuel] bounds the number of tests. *)
Fixpoint spread (fuel : nat) (ppn n_send_procs i : Z) (st : list Z * nat)
  : option (list Z * nat) :=
  match fuel with
  | O => None
  | S fuel' =>
    if i <? n_send_procs then
      spread fuel' ppn n_send_procs (i + ppn)
             (<[st.2 := st.1 !!! Z.to_nat i]> st.1, S st.2)
    else Some st
  end.

(** The loop followed by [resize(n_sends)], resp. [clear()]: the peers
    this local rank sends to. *)
Definition distribute_send_procs (c : TAPConfig) (local_rank : Z)
    (send_procs : list Z) : option (list Z) :=
  let n_send_procs := Z.of_nat (length send_procs) in
  match spread (S (length send_procs)) (PPN c) n_send_procs local_rank
               (send_procs, 0%nat) with
  | Some (v, n_sends) =>
    Some (if (n_sends =? 0)%nat then [] else take n_sends v)
  | None => None
  end.

(** The entries [local_rank], [local_rank + PPN], ... of the gathered
    list, [k] of them. *)
Definition strided (c : TAPConfig) (lr : Z) (v : list Z) (k : nat) : list Z :=
  map (fun t : nat => v !!! Z.to_nat (lr + Z.of_nat t * PPN c)) (seq 0 k).

(** Number of passes of the loop. *)
Definition passes (c : TAPConfig) (lr : Z) (v : list Z) : nat :=
  Z.to_nat ((Z.of_nat (length v) + PPN c - 1 - lr) / PPN c).

Lemma pass_test c lr (v : list Z) (k : nat) :
  0 < PPN c ->
  lr + Z.of_nat k * PPN c < Z.of_nat (length v) <-> (k < passes c lr v)%nat.
Proof.
  intros Hp. unfold passes. split.
  - intros Hlt.
    assert (Z.of_nat k + 1
            <= (Z.of_nat (length v) + PPN c - 1 - lr) / PPN c); [|lia].
    apply Z.div_le_lower_bound; [done|]. lia.
  - intros Hk.
    destruct (Z.lt_ge_cases (lr + Z.of_nat k * PPN c) (Z.of_nat (length v)))
      as [|Hge]; [done|].
    assert ((Z.of_nat (length v) + PPN c - 1 - lr) / PPN c
            < Z.of_nat k + 1); [|lia].
    apply Z.div_lt_upper_bound; [done|]. lia.
Qed.

Lemma strided_S c lr v k :
  strided c lr v (S k)
  = strided c lr v k ++ [v !!! Z.to_nat (lr + Z.of_nat k * PPN c)].
Proof. unfold strided. by rewrite seq_S, map_app. Qed.

Lemma length_strided c lr v k : length (strided c lr v k) = k.
Proof. unfold strided. by rewrite length_map, length_seq. Qed.

(** The in-place copy never reads a cell it has already overwritten:
    after [k] passes the vector holds the first [k] strided entries,
    followed by its own untouched tail. *)
Lemma spread_run c lr (v : list Z) :
  0 < PPN c -> 0 <= lr ->
  forall fuel k,
    (k <= passes c lr v)%nat -> (passes c lr v - k < fuel)%nat ->
    spread fuel (PPN c) (Z.of_nat (length v)) (lr + Z.of_nat k * PPN c)
           (strided c lr v k ++ drop k v, k)
    = Some (strided c lr v (passes c lr v) ++ drop (passes c lr v) v,
            passes c lr v).
Proof.
  intros Hp Hlr. induction fuel as [|fuel IH]; intros k Hk Hfuel; [lia|].
  cbn [spread fst snd].
  destruct (Z.ltb_spec (lr + Z.of_nat k * PPN c) (Z.of_nat (length v)))
    as [Hlt|Hge].
  - pose proof (proj1 (pass_test c lr v k Hp) Hlt) as Hpass.
    assert (Hkn : (k < length v)%nat) by nia.
    assert (Hread : (strided c lr v k ++ drop k v)
                      !!! Z.to_nat (lr + Z.of_nat k * PPN c)
                    = v !!! Z.to_nat (lr + Z.of_nat k * PPN c)).
    { rewrite lookup_total_app_r by (rewrite length_strided; nia).
      rewrite length_strided, lookup_total_drop. f_equal. nia. }
    assert (Hwrite :
      <[k := v !!! Z.to_nat (lr + Z.of_nat k * PPN c)]>
        (strided c lr v k ++ drop k v)
      = strided c lr v (S k) ++ drop (S k) v).
    { rewrite insert_app_r_alt by (rewrite length_strided; lia).
      rewrite length_strided, Nat.sub_diag, strided_S, <- app_assoc.
      f_equal. rewrite (drop_S v (v !!! k) k)
        by (by apply list_lookup_lookup_total_lt).
      done. }
    rewrite Hread, Hwrite.
    replace (lr + Z.of_nat k * PPN c + PPN c)
      with (lr + Z.of_nat (S k) * PPN c) by lia.
    apply IH; lia.
  - assert (Hend : ~ (k < passes c lr v)%nat).
    { intros Hlt%(pass_test c lr v k Hp). lia. }
    by assert (k = passes c lr v) as -> by lia.
Qed.

Lemma passes_le c lr (v : list Z) :
  0 < PPN c -> 0 <= lr -> (passes c lr v <= length v)%nat.
Proof.
  intros Hp Hlr. unfold passes.
  assert ((Z.of_nat (length v) + PPN c - 1 - lr) / PPN c
          < Z.of_nat (length v) + 1); [|lia].
  apply Z.div_lt_upper_bound; [done|]. nia.
Qed.

Lemma distribute_send_procs_strided c lr (v : list Z) :
  0 < PPN c -> 0 <= lr ->
  distribute_send_procs c lr v = Some (strided c lr v (passes c lr v)).
Proof.
  intros Hp Hlr. unfold distribute_send_procs.
  pose proof (passes_le c lr v Hp Hlr) as Hle.
  pose proof (spread_run c lr v Hp Hlr (S (length v)) 0
                ltac:(lia) ltac:(lia)) as Hrun.
  rewrite Z.mul_0_l, Z.add_0_r, drop_0 in Hrun.
  change (strided c lr v 0 ++ v) with v in Hrun.
  rewrite Hrun. f_equal.
  destruct (passes c lr v) as [|k] eqn:Hk; [done|].
  cbn [Nat.eqb].
  by rewrite take_app_length' by (by rewrite length_strided).
Qed.

(** The turns a local rank takes are its stride, in increasing order. *)
Lemma taken_stride c lr (m : nat) :
  0 < PPN c -> 0 <= lr < PPN c ->
  taken c lr 0 m
  = map (fun t : nat => Z.to_nat (lr + Z.of_nat t * PPN c))
        (seq 0 (length (taken c lr 0 m))).
Proof.
  intros Hp Hlr. induction m as [|m IH]; [done|].
  rewrite taken_S.
  destruct (decide (Z.rem (0 + Z.of_nat m) (PPN c) = lr)) as [Heq|Hne].
  - rewrite length_app. cbn [length]. rewrite Nat.add_1_r, seq_S, map_app.
    rewrite <- IH. f_equal. cbn [map]. f_equal.
    pose proof (length_taken c lr m Hp Hlr) as Hcount.
    rewrite Z.add_0_l, Z.rem_mod_nonneg in Heq by lia.
    pose proof (Z.div_mod (Z.of_nat m) (PPN c) ltac:(lia)) as Hdm.
    rewrite Heq in Hdm.
    rewrite <- (Z.div_unique_pos (Z.of_nat m + PPN c - 1 - lr) (PPN c)
                  (Z.of_nat m / PPN c) (PPN c - 1)) in Hcount by lia.
    cbn [Nat.add]. rewrite Hcount. lia.
  - by rewrite app_nil_r.
Qed.

Lemma strided_taken c lr (v : list Z) :
  0 < PPN c -> 0 <= lr < PPN c ->
  strided c lr v (passes c lr v)
  = map (fun k => v !!! k) (taken c lr 0 (length v)).
Proof.
  intros Hp Hlr.
  rewrite (taken_stride c lr (length v) Hp Hlr), map_map.
  unfold strided. f_equal. f_equal. unfold passes.
  rewrite <- (length_taken c lr (length v) Hp Hlr). lia.
Qed.

(** X13.  With [PPN] positive and a local rank that is not negative,
    the in-place loop ends and leaves, at position [t], the entry
    [local_rank + t * PPN] of the gathered list, for the
    [(n_send_procs + PPN - 1 - local_rank) / PPN] positions there are:
    no entry is overwritten before it is read. *)
Theorem X13_send_procs_are_the_stride_of_the_rank c lr (send_procs : list Z) :
  0 < PPN c -> 0 <= lr ->
  exists part,
    distribute_send_procs c lr send_procs = Some part /\
    Z.of_nat (length part)
    = Z.max 0 ((Z.of_nat (length send_procs) + PPN c - 1 - lr) / PPN c) /\
    forall t, (t < length part)%nat ->
      lr + Z.of_nat t * PPN c < Z.of_nat (length send_procs) /\
      part !!! t = send_procs !!! Z.to_nat (lr + Z.of_nat t * PPN c).
Proof.
  intros Hp Hlr. exists (strided c lr send_procs (passes c lr send_procs)).
  split; [by apply distribute_send_procs_strided|].
  rewrite length_strided. split; [unfold passes; lia|].
  intros t Ht. split.
  - by apply (pass_test c lr send_procs t Hp).
  - unfold strided. apply list_lookup_total_correct.
    change (map ?f ?l) with (f <$> l).
    by rewrite list_lookup_fmap, lookup_seq_lt.
Qed.

Lemma X13_send_procs_witness :
  exists part,
    distribute_send_procs (mkTAPConfig 1 4 8 1000 62 4) 1
                          [20; 21; 22; 23; 24; 25; 26; 27; 28; 29]
    = Some part /\
    part = [21; 25; 29].
Proof.
  destruct (X13_send_procs_are_the_stride_of_the_rank
              (mkTAPConfig 1 4 8 1000 62 4) 1
              [20; 21; 22; 23; 24; 25; 26; 27; 28; 29])
    as (part & Hrun & _ & _).
  - simpl. lia.
  - lia.
  - exists part. split; [exact Hrun|].
    vm_compute in Hrun. by injection Hrun as <-.
Defined.

(** X14.  With [PPN] positive, the lists the [PPN] local ranks of a host
    keep make up the gathered list: every peer that asked the host is
    kept by exactly one local rank. *)
Theorem X14_send_procs_split_among_local_ranks c (send_procs : list Z) :
  0 < PPN c ->
  Permutation
    (concat (map (fun lr : nat =>
                    default [] (distribute_send_procs c (Z.of_nat lr)
                                                      send_procs))
                 (seq 0 (Z.to_nat (PPN c)))))
    send_procs.
Proof.
  intros Hp.
  set (key := fun k : nat => Z.to_nat (Z.rem (Z.of_nat k) (PPN c))).
  assert (Hkey : forall k, (k < length send_procs)%nat ->
                           (key k < Z.to_nat (PPN c))%nat).
  { intros k _. unfold key.
    pose proof (Z.rem_bound_pos (Z.of_nat k) (PPN c) ltac:(lia) Hp). lia. }
  assert (Hparts :
    map (fun lr : nat =>
           default [] (distribute_send_procs c (Z.of_nat lr) send_procs))
        (seq 0 (Z.to_nat (PPN c)))
    = map (fun lr : nat =>
             map (fun k => send_procs !!! k)
                 (bucket key lr (length send_procs)))
          (seq 0 (Z.to_nat (PPN c)))).
  { apply map_ext_in. intros lr Hlr%in_seq.
    rewrite distribute_send_procs_strided by lia. cbn [from_option id].
    rewrite strided_taken by lia. f_equal.
    apply filter_ext_in. intros k _. unfold key. rewrite Z.add_0_l.
    pose proof (Z.rem_bound_pos (Z.of_nat k) (PPN c) ltac:(lia) Hp). lia. }
  rewrite Hparts.
  rewrite <- (map_map (fun lr => bucket key lr (length send_procs))
                      (map (fun k => send_procs !!! k))).
  rewrite <- concat_map.
  rewrite (buckets_partition (Z.to_nat (PPN c)) (length send_procs) key Hkey).
  by rewrite map_lookup_seq.
Qed.

Lemma X14_send_procs_split_witness :
  Permutation
    (concat (map (fun lr : nat =>
                    default [] (distribute_send_procs
                                  (mkTAPConfig 1 4 8 1000 62 4) (Z.of_nat lr)
                                  [20; 21; 22; 23; 24; 25; 26; 27; 28; 29]))
                 (seq 0 4)))
    [20; 21; 22; 23; 24; 25; 26; 27; 28; 29].
Proof.
  apply (X14_send_procs_split_among_local_ranks
           (mkTAPConfig 1 4 8 1000 62 4)
           [20; 21; 22; 23; 24; 25; 26; 27; 28; 29]).
  simpl. lia.
Defined.

End GlobalPeers.

(** ** [adjust_send_indices]: which position an identifier is given *)
Module IndexRewriteFacts.
Import Ledger IndexRewrite.

(** The map keeps, for every key, the last position that holds it. *)
Lemma index_buffer_last buffer key : forall size v,
  (size <= length buffer)%nat ->
  index_buffer size buffer !! key = Some v ->
  forall p, (Z.to_nat v < p < size)%nat -> buffer !!! p <> key.
Proof.
  induction size as [|size IH]; intros v Hsize Hv p Hp; [lia|].
  rewrite index_buffer_S in Hv.
  destruct (decide (buffer !!! size = key)) as [Heq|Hne].
  - rewrite Heq, lookup_insert_eq in Hv. injection Hv as <-. lia.
  - rewrite lookup_insert_ne in Hv by done.
    destruct (decide (p = size)) as [->|Hp']; [done|].
    apply (IH v); [lia|done|lia].
Qed.

(** An identifier that occurs in the buffer is rewritten to the last
    position holding it. *)
Lemma rewrite_indices_last (buffer : list Z) (d : CommData) i id p :
  length (indices d) = size_msgs d ->
  indices d !! i = Some id -> buffer !! p = Some id ->
  exists pos,
    indices (rewrite_indices (length buffer) buffer d) !! i = Some pos /\
    Z.of_nat p <= pos /\ buffer !! Z.to_nat pos = Some id /\
    forall q, buffer !! q = Some id -> Z.of_nat q <= pos.
Proof.
  intros Hlen Hid Hp.
  destruct (rewrite_indices_lookup buffer d i id Hlen Hid)
    as (pos & Hpos & _ & Hin).
  destruct (Hin (list_elem_of_lookup_2 _ _ _ Hp)) as [Hnonneg Hback].
  assert (Hlast : forall q, buffer !! q = Some id -> Z.of_nat q <= pos).
  { intros q Hq.
    destruct (Z.le_gt_cases (Z.of_nat q) pos) as [|Hgt]; [done|]. exfalso.
    unfold rewrite_indices in Hpos. simpl in Hpos.
    rewrite <- Hlen, firstn_all, drop_all, app_nil_r in Hpos.
    rewrite rewrite_entries_values in Hpos.
    change (map ?f ?l) with (f <$> l) in Hpos.
    rewrite list_lookup_fmap, Hid in Hpos. simpl in Hpos.
    injection Hpos as Hval. unfold value_at in Hval.
    destruct (index_buffer (length buffer) buffer !! id) as [v|] eqn:Hv.
    - simpl in Hval. subst v.
      apply (index_buffer_last buffer id (length buffer) pos
               ltac:(lia) Hv q).
      + apply lookup_lt_Some in Hq. lia.
      + by apply list_lookup_total_correct.
    - pose proof (index_buffer_lookup buffer id (length buffer) ltac:(lia))
        as Hnone.
      rewrite Hv, firstn_all in Hnone.
      by apply Hnone, list_elem_of_lookup_2 with q. }
  exists pos. split; [done|]. split; [by apply Hlast|]. by split.
Qed.

(** X15.  On sealed ledgers, an identifier recorded in the global-stage
    send ledger that occurs in the S-stage receive buffer is rewritten to
    the last position holding it there, and to its only position when
    the buffer has no repeats; likewise for the R-stage send ledger and
    the global-stage receive buffer. *)
Theorem X15_identifier_rewritten_to_its_last_position (first_local_row : Z)
    (t : TAPComm) :
  well_sealed (recv_data (local_S_par_comm t)) ->
  well_sealed (send_data (global_par_comm t)) ->
  well_sealed (recv_data (global_par_comm t)) ->
  well_sealed (send_data (local_R_par_comm t)) ->
  let t' := adjust_send_indices first_local_row t in
  let S_recv := indices (recv_data (local_S_par_comm t)) in
  let G_recv := indices (recv_data (global_par_comm t)) in
  (forall i id p,
     indices (send_data (global_par_comm t)) !! i = Some id ->
     S_recv !! p = Some id ->
     exists pos,
       indices (send_data (global_par_comm t')) !! i = Some pos /\
       S_recv !! Z.to_nat pos = Some id /\
       (forall q, S_recv !! q = Some id -> Z.of_nat q <= pos) /\
       (NoDup S_recv -> pos = Z.of_nat p)) /\
  (forall i id p,
     indices (send_data (local_R_par_comm t)) !! i = Some id ->
     G_recv !! p = Some id ->
     exists pos,
       indices (send_data (local_R_par_comm t')) !! i = Some pos /\
       G_recv !! Z.to_nat pos = Some id /\
       (forall q, G_recv !! q = Some id -> Z.of_nat q <= pos) /\
       (NoDup G_recv -> pos = Z.of_nat p)).
Proof.
  intros [_ HS] [_ HGs] [_ HG] [_ HR] t' S_recv G_recv. split.
  - intros i id p Hid Hp. subst t'. simpl. rewrite <- HS.
    destruct (rewrite_indices_last S_recv _ i id p HGs Hid Hp)
      as (pos & Hpos & Hle & Hback & Hlast).
    exists pos. split; [done|]. split; [done|]. split; [done|].
    intros Hnd.
    pose proof (NoDup_lookup S_recv _ _ id Hnd Hback Hp). lia.
  - intros i id p Hid Hp. subst t'. simpl. rewrite <- HG.
    destruct (rewrite_indices_last G_recv _ i id p HR Hid Hp)
      as (pos & Hpos & Hle & Hback & Hlast).
    exists pos. split; [done|]. split; [done|]. split; [done|].
    intros Hnd.
    pose proof (NoDup_lookup G_recv _ _ id Hnd Hback Hp). lia.
Qed.

(** The identifier 9 sits at the positions 0 and 2 of the S-stage
    receive buffer [9; 7; 9]; it is rewritten to 2. *)
Lemma X15_identifier_rewritten_witness :
  let sealed_with l n := mkCommData [mkMessage 0 l] true [0; n]%nat l in
  let t := mkTAPComm (mkParComm fresh fresh)
             (mkParComm (sealed_with [20; 21] 2%nat)
                        (sealed_with [9; 7; 9] 3%nat))
             (mkParComm (sealed_with [5; 6] 2%nat) (sealed_with [3; 5] 2%nat))
             (mkParComm (sealed_with [9; 7] 2%nat) (sealed_with [3; 5] 2%nat)) in
  indices (send_data (global_par_comm (adjust_send_indices 20 t))) !! 0%nat
  = Some 2.
Proof.
  intros sealed_with t.
  destruct (proj1 (X15_identifier_rewritten_to_its_last_position 20 t
                     ltac:(by split) ltac:(by split)
                     ltac:(by split) ltac:(by split))
                  0%nat 9 0%nat eq_refl eq_refl)
    as (pos & Hpos & _ & Hlast & _).
  rewrite Hpos. f_equal.
  pose proof (Hlast 2%nat eq_refl) as Hge.
  vm_compute in Hpos. injection Hpos as <-. reflexivity.
Defined.

End IndexRewriteFacts.

(** ** [form_local_L_par_comm]: one message per run of equal owners *)
Module LStage.

(** State of the loop over the on-node columns: the [add_msg] calls made
    so far on the recv ledger, each with its partner and its size, the
    current run and the flags [recv_procs]. *)
Record Runs := mkRuns {
  calls : list (Z * nat);
  prev_proc : Z;
  prev_idx : nat;
  recv_procs : list Z
}.

(** Iteration [i]: a column of another owner closes the current run. *)
Definition next_col (on_node_col_to_proc : list Z) (s : Runs) (i : nat)
  : Runs :=
  let proc := on_node_col_to_proc !!! i in
  if negb (proc =? prev_proc s) then
    mkRuns (calls s ++ [(prev_proc s, (i - prev_idx s)%nat)]) proc i
           (<[Z.to_nat proc := 1]> (recv_procs s))
  else s.

(** The recv half of [TAPComm::form_local_L_par_comm] up to the
    reduction: the [add_msg] calls in order and the flags. *)
Definition form_local_L_recv (c : TAPConfig) (on_node_col_to_proc : list Z)
  : list (Z * nat) * list Z :=
  let on_node_num_cols := length on_node_col_to_proc in
  let flags := replicate (Z.to_nat (PPN c)) 0 in
  if (on_node_num_cols =? 0)%nat then ([], flags)
  else
    let first := on_node_col_to_proc !!! 0%nat in
    let s := fold_left (next_col on_node_col_to_proc)
               (seq 1 (on_node_num_cols - 1))
               (mkRuns [] first 0 (<[Z.to_nat first := 1]> flags)) in
    (calls s ++ [(prev_proc s, (on_node_num_cols - prev_idx s)%nat)],
     recv_procs s).

(** The owners a list of calls stands for: every partner as many times
    as the size of its message. *)
Definition expand (l : list (Z * nat)) : list Z :=
  concat (map (fun cl : Z * nat => replicate cl.2 cl.1) l).

Definition adjacent_differ (l : list (Z * nat)) : Prop :=
  forall k a b, l !! k = Some a -> l !! S k = Some b -> a.1 <> b.1.

Lemma take_run (v : list Z) (x : Z) (a : nat) : forall m : nat,
  (a <= m <= length v)%nat ->
  (forall k, (a <= k < m)%nat -> v !!! k = x) ->
  take m v = take a v ++ replicate (m - a) x.
Proof.
  induction m as [|m IH]; intros Hm Hrun.
  - assert (a = 0)%nat as -> by lia. done.
  - destruct (decide (a = S m)) as [->|Hne].
    + by rewrite Nat.sub_diag, app_nil_r.
    + assert (Hcur : v !! m = Some x).
      { rewrite <- (Hrun m) by lia.
        apply list_lookup_lookup_total_lt. lia. }
      rewrite (take_S_r _ _ _ Hcur), IH
        by (lia || (intros k Hk; apply Hrun; lia)).
      replace (S m - a)%nat with (S (m - a)) by lia.
      by rewrite replicate_S_end, app_assoc.
Qed.

Lemma expand_snoc l p n : expand (l ++ [(p, n)]) = expand l ++ replicate n p.
Proof.
  unfold expand. rewrite map_app, concat_app. simpl. by rewrite app_nil_r.
Qed.

Section runs.

Variables (c : TAPConfig) (v : list Z).
Hypothesis owners_range : forall p, p ∈ v -> 0 <= p < PPN c.

(** State of the loop before the column [m]. *)
Definition scanned_to (m : nat) (s : Runs) : Prop :=
  (prev_idx s < m)%nat /\
  expand (calls s) = take (prev_idx s) v /\
  (forall k, (prev_idx s <= k < m)%nat -> v !!! k = prev_proc s) /\
  (forall cl, cl ∈ calls s -> (1 <= cl.2)%nat) /\
  adjacent_differ (calls s) /\
  (forall a, last (calls s) = Some a -> a.1 <> prev_proc s) /\
  length (recv_procs s) = Z.to_nat (PPN c) /\
  (forall p, 0 <= p < PPN c ->
     recv_procs s !!! Z.to_nat p = if decide (p ∈ take m v) then 1 else 0).

(** Closing the current run at [m] records it. *)
Lemma close_run m s :
  (m <= length v)%nat -> scanned_to m s ->
  let l := calls s ++ [(prev_proc s, (m - prev_idx s)%nat)] in
  expand l = take m v /\ (forall cl, cl ∈ l -> (1 <= cl.2)%nat) /\
  adjacent_differ l.
Proof.
  intros Hm (Hidx & Hexp & Hrun & Hsizes & Hadj & Hlast & _) l. split; [|split].
  - unfold l. rewrite expand_snoc, Hexp. symmetry.
    apply take_run; [lia|done].
  - intros cl [Hcl|Hcl%list_elem_of_singleton]%elem_of_app;
      [by apply Hsizes|]. subst cl. simpl. lia.
  - intros k a b Ha Hb. unfold l in *.
    destruct (decide (S k < length (calls s))%nat) as [Hin|Hout].
    + rewrite lookup_app_l in Ha, Hb by lia. by apply (Hadj k).
    + apply lookup_lt_Some in Hb as Hlen. rewrite length_app in Hlen.
      simpl in Hlen. assert (Hk : S k = length (calls s)) by lia.
      rewrite lookup_app_r in Hb by lia.
      rewrite Hk, Nat.sub_diag in Hb. injection Hb as <-. simpl.
      rewrite lookup_app_l in Ha by lia. apply Hlast.
      rewrite last_lookup. rewrite <- Hk. exact Ha.
Qed.

Lemma next_col_scanned m s :
  (m < length v)%nat -> scanned_to m s ->
  scanned_to (S m) (next_col v s m).
Proof.
  intros Hm Hs.
  destruct (close_run m s ltac:(lia) Hs) as (Hexp' & Hsizes' & Hadj').
  destruct Hs as (Hidx & Hexp & Hrun & Hsizes & Hadj & Hlast & Hlen & Hflags).
  assert (Hcur : v !! m = Some (v !!! m))
    by (by apply list_lookup_lookup_total_lt).
  pose proof (owners_range _ (list_elem_of_lookup_2 _ _ _ Hcur)) as Hr.
  unfold next_col. destruct (Z.eqb_spec (v !!! m) (prev_proc s)) as [Heq|Hne].
  - cbn [negb]. split; [lia|]. split; [done|]. split.
    { intros k Hk. destruct (decide (k = m)) as [->|]; [done|].
      apply Hrun. lia. }
    split; [done|]. split; [done|]. split; [done|]. split; [done|].
    intros p Hp. rewrite (Hflags p Hp), (take_S_r _ _ _ Hcur).
    assert (Hseen : v !!! m ∈ take m v).
    { rewrite Heq, <- (Hrun (prev_idx s)) by lia.
      apply list_elem_of_lookup. exists (prev_idx s).
      rewrite lookup_take_lt by lia.
      apply list_lookup_lookup_total_lt. lia. }
    destruct (decide (p ∈ take m v)) as [Hin|Hout].
    + rewrite decide_True; [done|]. apply elem_of_app. by left.
    + rewrite decide_False; [done|].
      intros [Hin|Hin%list_elem_of_singleton]%elem_of_app; [done|].
      by subst p.
  - unfold scanned_to. cbn [negb calls prev_proc prev_idx recv_procs].
    split; [lia|]. split; [done|]. split.
    { intros k Hk. by assert (k = m) as -> by lia. }
    split; [done|]. split; [done|]. split.
    { intros a Ha. rewrite last_snoc in Ha. injection Ha as <-. simpl.
      congruence. }
    rewrite length_insert. split; [done|].
    intros p Hp. rewrite (take_S_r _ _ _ Hcur).
    destruct (decide (p = v !!! m)) as [->|Hp'].
    + rewrite list_lookup_total_insert_eq by lia.
      rewrite decide_True; [done|].
      apply elem_of_app. right. by apply list_elem_of_singleton.
    + rewrite list_lookup_total_insert_ne by lia.
      rewrite (Hflags p Hp).
      destruct (decide (p ∈ take m v)) as [Hin|Hout].
      * rewrite decide_True; [done|]. apply elem_of_app. by left.
      * rewrite decide_False; [done|].
        by intros [Hin|Hin%list_elem_of_singleton]%elem_of_app.
Qed.

Lemma columns_scanned m :
  (m < length v)%nat ->
  scanned_to (S m)
    (fold_left (next_col v) (seq 1 m)
       (mkRuns [] (v !!! 0%nat) 0
          (<[Z.to_nat (v !!! 0%nat) := 1]>
             (replicate (Z.to_nat (PPN c)) 0)))).
Proof.
  induction m as [|m IH]; intros Hm.
  - assert (Hcur : v !! 0%nat = Some (v !!! 0%nat))
      by (by apply list_lookup_lookup_total_lt).
    pose proof (owners_range _ (list_elem_of_lookup_2 _ _ _ Hcur)) as Hr.
    cbn [seq fold_left]. unfold scanned_to.
    cbn [calls prev_proc prev_idx recv_procs].
    split; [lia|]. split; [done|]. split.
    { intros k Hk. by assert (k = 0)%nat as -> by lia. }
    split; [by intros cl ?%elem_of_nil|]. split; [by intros k a b ?|].
    split; [done|]. rewrite length_insert, length_replicate.
    split; [done|]. intros p Hp.
    rewrite (take_S_r _ _ _ Hcur), take_0, app_nil_l.
    destruct (decide (p = v !!! 0%nat)) as [->|Hp'].
    + rewrite list_lookup_total_insert_eq
        by (rewrite length_replicate; lia).
      rewrite decide_True; [done|]. by apply list_elem_of_singleton.
    + rewrite list_lookup_total_insert_ne by lia.
      rewrite lookup_total_replicate_2 by lia.
      rewrite decide_False; [done|]. by intros ?%list_elem_of_singleton.
  - rewrite seq_S, fold_left_app. cbn [fold_left].
    change (1 + m)%nat with (S m).
    apply next_col_scanned; [lia|]. apply IH. lia.
Qed.

End runs.

Lemma form_local_L_recv_runs c (v : list Z) :
  (forall p, p ∈ v -> 0 <= p < PPN c) ->
  expand (form_local_L_recv c v).1 = v /\
  (forall cl, cl ∈ (form_local_L_recv c v).1 -> (1 <= cl.2)%nat) /\
  adjacent_differ (form_local_L_recv c v).1 /\
  length (form_local_L_recv c v).2 = Z.to_nat (PPN c) /\
  forall p, 0 <= p < PPN c ->
    (form_local_L_recv c v).2 !!! Z.to_nat p
    = if decide (p ∈ v) then 1 else 0.
Proof.
  intros Hrange.
  destruct (decide (length v = 0)%nat) as [Hz|Hnz].
  - apply nil_length_inv in Hz. subst v.
    cbn [form_local_L_recv length Nat.eqb fst snd].
    split; [done|]. split; [by intros cl ?%elem_of_nil|].
    split; [by intros k a b ?|]. rewrite length_replicate. split; [done|].
    intros p Hp. rewrite lookup_total_replicate_2 by lia.
    rewrite decide_False; [done|]. by intros ?%elem_of_nil.
  - pose proof (columns_scanned c v Hrange (length v - 1) ltac:(lia)) as Hs.
    replace (S (length v - 1)) with (length v) in Hs by lia.
    destruct (close_run c v (length v) _ ltac:(lia) Hs)
      as (Hexp & Hsizes & Hadj).
    destruct Hs as (_ & _ & _ & _ & _ & _ & Hlen & Hflags).
    rewrite firstn_all in Hexp, Hflags.
    unfold form_local_L_recv.
    rewrite (proj2 (Nat.eqb_neq _ _) Hnz). cbn [fst snd]. done.
Qed.

Lemma elem_of_expand (l : list (Z * nat)) (x : Z) :
  (forall cl, cl ∈ l -> (1 <= cl.2)%nat) ->
  x ∈ expand l <-> x ∈ map fst l.
Proof.
  intros Hsizes. unfold expand.
  rewrite !list_elem_of_In, in_concat, in_map_iff. split.
  - intros (r & Hr & Hx). apply in_map_iff in Hr as (cl & <- & Hcl).
    exists cl. split; [|done].
    apply list_elem_of_In, elem_of_replicate in Hx as [-> _]. done.
  - intros (cl & <- & Hcl). exists (replicate cl.2 cl.1). split.
    + apply in_map_iff. by exists cl.
    + apply list_elem_of_In, elem_of_replicate. split; [done|].
      specialize (Hsizes cl ltac:(by apply list_elem_of_In)). lia.
Qed.

(** When the owners come in ascending order, so do the partners of the
    calls: no partner is named twice. *)
Lemma runs_increase (l : list (Z * nat)) :
  (forall cl, cl ∈ l -> (1 <= cl.2)%nat) -> adjacent_differ l ->
  StronglySorted Z.le (expand l) ->
  StronglySorted Z.lt (map fst l).
Proof.
  induction l as [|a l IH]; intros Hsizes Hadj Hs; [constructor|].
  assert (Hexp : expand (a :: l) = replicate a.2 a.1 ++ expand l) by done.
  rewrite Hexp in Hs. apply StronglySorted_app in Hs as (Hle & _ & Hrest).
  assert (Hsizes' : forall cl, cl ∈ l -> (1 <= cl.2)%nat)
    by (intros cl Hcl; by apply Hsizes, list_elem_of_further).
  assert (Hadj' : adjacent_differ l)
    by (intros k x y Hx Hy; by apply (Hadj (S k))).
  specialize (IH Hsizes' Hadj' Hrest).
  assert (Ha : a.1 ∈ replicate a.2 a.1).
  { apply elem_of_replicate. split; [done|].
    specialize (Hsizes a ltac:(apply list_elem_of_here)). lia. }
  cbn [map]. constructor; [done|].
  destruct l as [|b l]; [constructor|].
  assert (Hab : a.1 < b.1).
  { pose proof (Hadj 0%nat a b eq_refl eq_refl).
    assert (a.1 <= b.1); [|lia].
    apply Hle; [done|]. apply elem_of_expand; [done|].
    cbn [map]. apply list_elem_of_here. }
  cbn [map] in *. constructor; [done|].
  apply StronglySorted_inv in IH as [_ Hall].
  eapply Forall_impl; [exact Hall|]. intros x Hx. simpl in Hx. lia.
Qed.

Lemma count_partner (l : list (Z * nat)) (p : Z) :
  NoDup (map fst l) ->
  length (filter (fun cl : Z * nat => cl.1 = p) l)
  = if decide (p ∈ map fst l) then 1%nat else 0%nat.
Proof.
  induction l as [|a l IH]; intros Hnd.
  - rewrite filter_nil. rewrite decide_False; [done|]. by intros ?%elem_of_nil.
  - cbn [map] in *. apply NoDup_cons in Hnd as [Hfresh Hnd].
    rewrite filter_cons.
    destruct (decide (a.1 = p)) as [<-|Hne]; cbn [length]; rewrite (IH Hnd).
    + rewrite (decide_False (P := a.1 ∈ map fst l)) by done.
      rewrite decide_True by apply list_elem_of_here. done.
    + destruct (decide (p ∈ map fst l)) as [Hin|Hout].
      * rewrite decide_True by (by apply list_elem_of_further). done.
      * rewrite decide_False; [done|].
        intros [->|Hin]%elem_of_cons; done.
Qed.

(** X16.  With every owner a local rank below [PPN], the [add_msg]
    calls on the L-stage recv ledger are the run-length encoding of the
    owner list: read back, they give the owner of every on-node column
    in order; no call has size 0, two calls in a row never name the same
    partner, and a local rank is flagged exactly when it owns a column. *)
Theorem X16_recv_calls_are_the_runs_of_owners c (on_node_col_to_proc : list Z) :
  (forall p, p ∈ on_node_col_to_proc -> 0 <= p < PPN c) ->
  let r := form_local_L_recv c on_node_col_to_proc in
  expand r.1 = on_node_col_to_proc /\
  (forall cl, cl ∈ r.1 -> (1 <= cl.2)%nat) /\
  adjacent_differ r.1 /\
  length r.2 = Z.to_nat (PPN c) /\
  forall p, 0 <= p < PPN c ->
    r.2 !!! Z.to_nat p = if decide (p ∈ on_node_col_to_proc) then 1 else 0.
Proof.
  intros Hrange r.
  destruct (form_local_L_recv_runs c on_node_col_to_proc Hrange)
    as (Hexp & Hsizes & Hadj & Hlen & Hflags).
  subst r. split; [exact Hexp|]. split; [exact Hsizes|].
  split; [exact Hadj|]. split; [exact Hlen|exact Hflags].
Qed.

Lemma X16_recv_calls_witness :
  form_local_L_recv (mkTAPConfig 1 4 8 1000 62 4) [2; 2; 0; 0; 0; 3; 2]
  = ([(2, 2%nat); (0, 3%nat); (3, 1%nat); (2, 1%nat)], [1; 0; 1; 1]) /\
  expand (form_local_L_recv (mkTAPConfig 1 4 8 1000 62 4)
                            [2; 2; 0; 0; 0; 3; 2]).1
  = [2; 2; 0; 0; 0; 3; 2].
Proof.
  destruct (X16_recv_calls_are_the_runs_of_owners
              (mkTAPConfig 1 4 8 1000 62 4) [2; 2; 0; 0; 0; 3; 2])
    as (Hexp & _).
  - apply Forall_forall. apply (bool_decide_unpack _). vm_compute. exact I.
  - split; [reflexivity|exact Hexp].
Defined.

End LStage.

(** ** [form_local_S_par_comm]: where the values the host sends originate *)
Module SStage.
Import Ledger Buckets.

(** The search [while (proc + 1 < PPN && global_col >=
    local_col_starts[proc + 1]) proc++]; [fuel] bounds the number of
    tests. *)
Fixpoint find_owner (fuel : nat) (c : TAPConfig) (local_col_starts : list Z)
    (global_col proc : Z) : option Z :=
  match fuel with
  | O => None
  | S fuel' =>
    if (proc + 1 <? PPN c)
       && (global_col >=? local_col_starts !!! Z.to_nat (proc + 1))
    then find_owner fuel' c local_col_starts global_col (proc + 1)
    else Some proc
  end.

(** The vectors the search fills. *)
Record Origins := mkOrigins {
  orig_procs : list Z;
  proc_sizes : list nat;
  recv_procs : list Z
}.

(** The three assignments that follow the search, for position [j]. *)
Definition own (o : Origins) (j : nat) (proc : Z) : Origins :=
  mkOrigins (<[j := proc]> (orig_procs o))
            (<[Z.to_nat proc := S (proc_sizes o !!! Z.to_nat proc)]>
               (proc_sizes o))
            (<[Z.to_nat proc := 1]> (recv_procs o)).

(** The loop over the positions [js] of one message; [proc] is carried
    from one position to the next. *)
Fixpoint own_cols (c : TAPConfig) (local_col_starts G_indices : list Z)
    (js : list nat) (proc : Z) (o : Origins) : option Origins :=
  match js with
  | [] => Some o
  | j :: js' =>
    match find_owner (S (Z.to_nat (PPN c))) c local_col_starts
                     (G_indices !!! j) proc with
    | Some proc' =>
      own_cols c local_col_starts G_indices js' proc' (own o j proc')
    | None => None
    end
  end.

(** The loop over the messages of the global send ledger; the search
    starts again at [proc = 0] with every message. *)
Fixpoint own_msgs (c : TAPConfig) (local_col_starts : list Z)
    (G_send : CommData) (msgs : list nat) (o : Origins) : option Origins :=
  match msgs with
  | [] => Some o
  | i :: msgs' =>
    let start := indptr G_send !!! i in
    let stop := indptr G_send !!! S i in
    match own_cols c local_col_starts (indices G_send)
                   (seq start (stop - start)) 0 o with
    | Some o' => own_msgs c local_col_starts G_send msgs' o'
    | None => None
    end
  end.

(** "Find all column indices originating on local procs". *)
Definition find_origins (c : TAPConfig) (local_col_starts : list Z)
    (G_send : CommData) : option Origins :=
  let size := if (num_msgs G_send =? 0)%nat then 0%nat
              else size_msgs G_send in
  own_msgs c local_col_starts G_send (seq 0 (num_msgs G_send))
    (mkOrigins (replicate size 0)
               (replicate (Z.to_nat (PPN c)) 0%nat)
               (replicate (Z.to_nat (PPN c)) 0)).

(** The placement loop, iteration [i]; the state is ([proc_sizes],
    [proc_indices]). *)
Definition add_index (orig_procs : list Z) (proc_displs : list nat)
    (G_indices : list Z) (st : list nat * list Z) (i : nat)
  : list nat * list Z :=
  let proc := Z.to_nat (orig_procs !!! i) in
  let idx := (proc_displs !!! proc + st.1 !!! proc)%nat in
  (<[proc := S (st.1 !!! proc)]> st.1, <[idx := G_indices !!! i]> st.2).

(** The last loop, iteration [i] over the local ranks: sort the range of
    rank [i] in place, copy it without repeats, record the message.  The
    state is ([proc_indices], the ledger). *)
Definition add_origin (sort : list Z -> list Z) (proc_displs : list nat)
    (st : list Z * CommData) (i : nat) : list Z * CommData :=
  let start := proc_displs !!! i in
  let stop := proc_displs !!! S i in
  let size := (stop - start)%nat in
  if (size =? 0)%nat then st
  else
    let proc_indices :=
      take start st.1 ++ sort (slice st.1 start stop) ++ drop stop st.1 in
    let recv_buffer :=
      GlobalStage.unique_sorted (slice proc_indices start stop) in
    (proc_indices,
     add_msg st.2 (Z.of_nat i) (length recv_buffer) recv_buffer).

(** [TAPComm::form_local_S_par_comm] up to the [finalize] of the recv
    ledger [recv_data0].  [local_col_starts] is the gathered vector of
    first local columns, [G_send] the send ledger of the global stage and
    [sort] stands for [std::sort] on a range of [int].  The displacement
    loop is the one of the R stage. *)
Definition form_local_S_recv (c : TAPConfig) (sort : list Z -> list Z)
    (local_col_starts : list Z) (G_send recv_data0 : CommData)
  : option CommData :=
  match find_origins c local_col_starts G_send with
  | None => None
  | Some o =>
    let d := RStage.make_displs c (proc_sizes o) in
    let proc_displs := d.1 in
    let filled :=
      fold_left (add_index (orig_procs o) proc_displs (indices G_send))
        (seq 0 (size_msgs G_send))
        (d.2, replicate (size_msgs G_send) 0) in
    let r :=
      fold_left (add_origin sort proc_displs) (seq 0 (Z.to_nat (PPN c)))
        (filled.2, recv_data0) in
    finalize r.2
  end.

(** The local rank [p] owns the column [col]: the column is not below the
    first column of [p] and, unless [p] is the last rank, below the first
    column of the next rank. *)
Definition owned (c : TAPConfig) (local_col_starts : list Z) (col p : Z)
  : Prop :=
  0 <= p < PPN c /\
  local_col_starts !!! Z.to_nat p <= col /\
  (p + 1 < PPN c -> col < local_col_starts !!! Z.to_nat (p + 1)).

(** A ledger as [finalize] leaves it. *)
Definition sealed_form (d : CommData) : Prop :=
  indptr d = prefix_offsets 0 (map (fun m => length (positions m))
                                   (messages d)) /\
  indices d = concat (map positions (messages d)).

(** The message of local rank [d] in the words of a specification: the
    identifiers assigned to it, sorted and without repeats; none when
    nothing was assigned. *)
Definition origin_message (sort : list Z -> list Z) (d : nat) (g : list Z)
  : list Message :=
  match g with
  | [] => []
  | _ => [mkMessage (Z.of_nat d) (GlobalStage.unique_sorted (sort g))]
  end.

Lemma find_owner_spec c starts col : forall fuel proc,
  0 <= proc < PPN c -> PPN c - proc <= Z.of_nat fuel ->
  starts !!! Z.to_nat proc <= col ->
  exists p, find_owner fuel c starts col proc = Some p /\
            proc <= p /\ owned c starts col p.
Proof.
  induction fuel as [|fuel IH]; intros proc Hproc Hfuel Hle; [lia|].
  cbn [find_owner].
  destruct (Z.ltb_spec (proc + 1) (PPN c)) as [Hnext|Hlast];
    [destruct (Z.geb_spec col (starts !!! Z.to_nat (proc + 1)))
       as [Hge|Hlt]|]; cbn [andb].
  - destruct (IH (proc + 1)) as (p & Hp & Hpp & Hown); [lia|lia|lia|].
    exists p. split; [done|]. split; [lia|done].
  - exists proc. split; [done|]. split; [lia|]. split; [done|].
    split; [done|]. intros _. lia.
  - exists proc. split; [done|]. split; [lia|]. split; [done|].
    split; [done|]. intros Hn. lia.
Qed.

Lemma prefix_offsets_lookup (ms : list Message) : forall from i,
  (i <= length ms)%nat ->
  prefix_offsets from (map (fun m => length (positions m)) ms) !!! i
  = (from + length (concat (map positions (take i ms))))%nat.
Proof.
  induction ms as [|m ms IH]; intros from i Hi.
  - assert (i = 0)%nat as -> by (simpl in Hi; lia). simpl. lia.
  - destruct i as [|i]; [simpl; lia|].
    cbn [map prefix_offsets take concat]. rewrite length_app.
    change ((?x :: ?l) !!! S i) with (l !!! i).
    rewrite IH by (simpl in Hi; lia). lia.
Qed.

Lemma sorted_lookups (l : list Z) (t t' : nat) :
  Sorted Z.le l -> (t <= t' < length l)%nat -> l !!! t <= l !!! t'.
Proof.
  intros Hs%Sorted_StronglySorted; [|intros x y z; lia].
  revert t t'. induction Hs as [|a l Hs IH Hall]; intros t t' Ht;
    [simpl in Ht; lia|].
  destruct t' as [|t']; [assert (t = 0)%nat as -> by lia; done|].
  destruct t as [|t].
  - change ((a :: l) !!! 0%nat) with a.
    change ((a :: l) !!! S t') with (l !!! t').
    rewrite Forall_forall in Hall. apply Hall.
    apply list_elem_of_lookup_total_2. simpl in Ht. lia.
  - change ((a :: l) !!! S t) with (l !!! t).
    change ((a :: l) !!! S t') with (l !!! t').
    apply IH. simpl in Ht. lia.
Qed.

Section origins.

Variables (c : TAPConfig) (starts : list Z) (G : CommData).

Hypothesis PPN_pos : 0 < PPN c.
Hypothesis G_sealed : sealed_form G.
Hypothesis G_sorted : forall m, m ∈ messages G -> Sorted Z.le (positions m).
Hypothesis G_known : forall x, x ∈ indices G -> starts !!! 0%nat <= x.

(** Owner and value of the identifier at position [k]. *)
Definition key (o : Origins) (k : nat) : nat := Z.to_nat (orig_procs o !!! k).

Definition val (k : nat) : Z := indices G !!! k.

Lemma indices_length : length (indices G) = size_msgs G.
Proof. destruct G_sealed as [_ ->]. done. Qed.

Lemma indptr_lookup i :
  (i <= num_msgs G)%nat ->
  indptr G !!! i = length (concat (map positions (take i (messages G)))).
Proof.
  intros Hi. destruct G_sealed as [-> _].
  by rewrite prefix_offsets_lookup.
Qed.

(** The range of message [i] in the index array. *)
Lemma message_range i m :
  messages G !! i = Some m ->
  indptr G !!! S i = (indptr G !!! i + length (positions m))%nat /\
  (indptr G !!! S i <= size_msgs G)%nat /\
  forall t, (t < length (positions m))%nat ->
    indices G !!! (indptr G !!! i + t)%nat = positions m !!! t.
Proof.
  intros Hm. pose proof (lookup_lt_Some _ _ _ Hm) as Hi.
  rewrite !indptr_lookup by (unfold num_msgs; lia).
  rewrite (take_S_r _ _ _ Hm), map_app, concat_app, length_app.
  cbn [map concat]. rewrite app_nil_r.
  split; [done|].
  assert (Hsplit : indices G
                   = concat (map positions (take i (messages G)))
                     ++ positions m
                     ++ concat (map positions (drop (S i) (messages G)))).
  { destruct G_sealed as [_ ->].
    rewrite <- (take_drop_middle _ _ _ Hm) at 1.
    rewrite map_app, concat_app. by cbn [map concat]. }
  split.
  - unfold size_msgs. destruct G_sealed as [_ Hind].
    rewrite <- Hind, Hsplit, !length_app. lia.
  - intros t Ht. rewrite Hsplit.
    rewrite lookup_total_app_r by lia.
    rewrite lookup_total_app_l by lia. f_equal. lia.
Qed.

(** State of the search before the position [K]. *)
Definition searched (K : nat) (o : Origins) : Prop :=
  length (orig_procs o) = size_msgs G /\
  length (proc_sizes o) = Z.to_nat (PPN c) /\
  (forall k, (k < K)%nat ->
     owned c starts (indices G !!! k) (orig_procs o !!! k)) /\
  (forall p, (p < Z.to_nat (PPN c))%nat ->
     proc_sizes o !!! p = length (bucket (key o) p K)).

Lemma own_searched o s p :
  (s < size_msgs G)%nat -> searched s o ->
  owned c starts (indices G !!! s) p ->
  searched (S s) (own o s p).
Proof.
  intros Hs (Hlen & Hsizes & Hown & Hcount) Hp.
  assert (Hkeep : forall k, (k < s)%nat ->
                    orig_procs (own o s p) !!! k = orig_procs o !!! k).
  { intros k Hk. cbn [own orig_procs].
    by rewrite list_lookup_total_insert_ne by lia. }
  assert (Hnew : orig_procs (own o s p) !!! s = p).
  { cbn [own orig_procs]. apply list_lookup_total_insert_eq. lia. }
  split; [cbn [own orig_procs]; by rewrite length_insert|].
  split; [cbn [own proc_sizes]; by rewrite length_insert|]. split.
  - intros k Hk. destruct (decide (k = s)) as [->|Hne].
    + by rewrite Hnew.
    + rewrite Hkeep by lia. apply Hown. lia.
  - intros q Hq. rewrite bucket_S.
    assert (Hold : bucket (key (own o s p)) q s = bucket (key o) q s).
    { unfold bucket. apply filter_ext_in. intros k Hk%elem_of_seq.
      unfold key. by rewrite Hkeep by lia. }
    assert (Hkey : key (own o s p) s = Z.to_nat p)
      by (unfold key; by rewrite Hnew).
    rewrite Hold, length_app, Hkey.
    destruct Hp as (Hrange & _). cbn [own proc_sizes].
    destruct (decide (Z.to_nat p = q)) as [<-|Hne].
    + rewrite list_lookup_total_insert_eq by lia.
      rewrite Hcount by lia. simpl. lia.
    + rewrite list_lookup_total_insert_ne by done.
      rewrite Hcount by lia. simpl. lia.
Qed.

Lemma own_cols_searched : forall len s proc o,
  (s + len <= size_msgs G)%nat -> searched s o ->
  0 <= proc < PPN c ->
  (forall t, (s <= t < s + len)%nat ->
     starts !!! Z.to_nat proc <= indices G !!! t) ->
  (forall t t', (s <= t <= t')%nat -> (t' < s + len)%nat ->
     indices G !!! t <= indices G !!! t') ->
  exists o', own_cols c starts (indices G) (seq s len) proc o = Some o' /\
             searched (s + len) o'.
Proof.
  induction len as [|len IH]; intros s proc o Hlen Hs Hproc Hlow Hsorted.
  - exists o. rewrite Nat.add_0_r. done.
  - cbn [seq own_cols].
    destruct (find_owner_spec c starts (indices G !!! s)
                (S (Z.to_nat (PPN c))) proc Hproc ltac:(lia)
                ltac:(apply Hlow; lia)) as (p & -> & Hpp & Hown).
    destruct (IH (S s) p (own o s p)) as (o' & Hrun & Ho').
    + lia.
    + apply own_searched; [lia|done|done].
    + by destruct Hown.
    + intros t Ht. destruct Hown as (_ & Hle & _).
      pose proof (Hsorted s t ltac:(lia) ltac:(lia)). lia.
    + intros t t' Ht Ht'. apply Hsorted; lia.
    + exists o'. split; [done|].
      by replace (s + S len)%nat with (S s + len)%nat by lia.
Qed.

Lemma own_msgs_searched : forall cnt i o,
  (i + cnt = num_msgs G)%nat -> searched (indptr G !!! i) o ->
  exists o', own_msgs c starts G (seq i cnt) o = Some o' /\
             searched (size_msgs G) o'.
Proof.
  induction cnt as [|cnt IH]; intros i o Hi Hs.
  - exists o. split; [done|].
    rewrite indptr_lookup in Hs by lia.
    rewrite Nat.add_0_r in Hi. unfold num_msgs in Hi.
    by rewrite Hi, firstn_all in Hs.
  - cbn [seq own_msgs].
    destruct (lookup_lt_is_Some_2 (messages G) i) as [m Hm];
      [unfold num_msgs in Hi; lia|].
    destruct (message_range i m Hm) as (Hstop & Hend & Hget).
    rewrite Hstop.
    replace (indptr G !!! i + length (positions m) - indptr G !!! i)%nat
      with (length (positions m)) by lia.
    destruct (own_cols_searched (length (positions m)) (indptr G !!! i) 0 o)
      as (o' & -> & Ho').
    + lia.
    + done.
    + lia.
    + intros t Ht. apply G_known.
      apply list_elem_of_lookup_total_2. rewrite indices_length. lia.
    + intros t t' Ht Ht'.
      replace t with (indptr G !!! i + (t - indptr G !!! i))%nat by lia.
      replace t' with (indptr G !!! i + (t' - indptr G !!! i))%nat by lia.
      rewrite !Hget by lia.
      apply sorted_lookups; [|lia].
      apply G_sorted. by apply list_elem_of_lookup_2 with i.
    + rewrite <- Hstop in Ho'. apply (IH (S i) o'); [lia|done].
Qed.

Lemma find_origins_searched :
  exists o, find_origins c starts G = Some o /\ searched (size_msgs G) o.
Proof.
  unfold find_origins.
  assert (Hsize : (if (num_msgs G =? 0)%nat then 0%nat else size_msgs G)
                  = size_msgs G).
  { destruct (Nat.eqb_spec (num_msgs G) 0) as [Hz|]; [|done].
    unfold num_msgs in Hz. apply nil_length_inv in Hz.
    unfold size_msgs. by rewrite Hz. }
  rewrite Hsize. apply own_msgs_searched; [done|].
  rewrite indptr_lookup by lia. rewrite take_0. cbn [map concat length].
  unfold searched. cbn [orig_procs proc_sizes].
  rewrite !length_replicate. split; [done|]. split; [done|].
  split; [intros k Hk; lia|].
  intros p Hp. by rewrite lookup_total_replicate_2.
Qed.

End origins.

(** The displacement loop, for any way [key] of sorting [n] entries
    into [PPN] buckets. *)
Lemma displs_offsets c (n : nat) (key : nat -> nat) (sizes : list nat) :
  length sizes = Z.to_nat (PPN c) ->
  (forall d, (d < Z.to_nat (PPN c))%nat ->
     sizes !!! d = length (bucket key d n)) ->
  let d := RStage.make_displs c sizes in
  length d.2 = Z.to_nat (PPN c) /\
  (forall b, (b <= Z.to_nat (PPN c))%nat -> d.1 !!! b = offset n key b) /\
  (forall b, (b < Z.to_nat (PPN c))%nat -> d.2 !!! b = 0%nat).
Proof.
  intros Hlen Hcount. unfold RStage.make_displs.
  assert (Hall : forall m, (m <= Z.to_nat (PPN c))%nat ->
    let st := fold_left RStage.displs_step (seq 0 m)
                (replicate (S (Z.to_nat (PPN c))) 0%nat, sizes) in
    length st.1 = S (Z.to_nat (PPN c)) /\
    length st.2 = Z.to_nat (PPN c) /\
    (forall b, (b <= m)%nat -> st.1 !!! b = offset n key b) /\
    (forall b, (b < m)%nat -> st.2 !!! b = 0%nat) /\
    (forall b, (m <= b < Z.to_nat (PPN c))%nat ->
       st.2 !!! b = length (bucket key b n))).
  { induction m as [|m IH]; intros Hm.
    - cbn [fold_left seq fst snd]. rewrite length_replicate.
      split; [done|]. split; [done|]. split; [|split].
      + intros b Hb. assert (b = 0)%nat as -> by lia. done.
      + intros b Hb. lia.
      + intros b Hb. apply Hcount. lia.
    - cbv zeta. rewrite seq_S, fold_left_app.
      destruct (IH ltac:(lia)) as (Hd & Hs & Hoff & Hzero & Hrest).
      set (st := fold_left RStage.displs_step (seq 0 m) _) in *.
      unfold RStage.displs_step. cbn [fold_left fst snd].
      change (0 + m)%nat with m. rewrite !length_insert.
      split; [done|]. split; [done|]. split; [|split].
      + intros b Hb. destruct (decide (b = S m)) as [->|Hne].
        * rewrite list_lookup_total_insert_eq by lia.
          rewrite Hoff, Hrest, offset_S by lia. done.
        * rewrite list_lookup_total_insert_ne by done. apply Hoff. lia.
      + intros b Hb. destruct (decide (b = m)) as [->|Hne].
        * by rewrite list_lookup_total_insert_eq by lia.
        * rewrite list_lookup_total_insert_ne by done. apply Hzero. lia.
      + intros b Hb. rewrite list_lookup_total_insert_ne by lia.
        apply Hrest. lia. }
  destruct (Hall (Z.to_nat (PPN c)) ltac:(lia)) as (_ & Hs & Hoff & Hz & _).
  done.
Qed.

(** Two local ranks cannot both own a column when the first columns are
    in ascending order. *)
Lemma owned_unique c (starts : list Z) (col p q : Z) :
  length starts = Z.to_nat (PPN c) -> Sorted Z.le starts ->
  owned c starts col p -> owned c starts col q -> p = q.
Proof.
  intros Hlen Hs (Hp & Hpl & Hpu) (Hq & Hql & Hqu).
  destruct (Z.lt_trichotomy p q) as [Hlt|[Heq|Hgt]]; [|done|].
  - pose proof (sorted_lookups starts (Z.to_nat (p + 1)) (Z.to_nat q) Hs
                  ltac:(lia)). lia.
  - pose proof (sorted_lookups starts (Z.to_nat (q + 1)) (Z.to_nat p) Hs
                  ltac:(lia)). lia.
Qed.

Lemma partners_increase (f : nat -> list Message) : forall n a,
  (forall d m, m ∈ f d -> partner m = Z.of_nat d) ->
  (forall d, (length (f d) <= 1)%nat) ->
  StronglySorted Z.lt (map partner (concat (map f (seq a n)))) /\
  forall m, m ∈ concat (map f (seq a n)) -> Z.of_nat a <= partner m.
Proof.
  intros n a Hpartner Hone. revert a.
  induction n as [|n IH]; intros a.
  - split; [constructor|]. by intros m ?%elem_of_nil.
  - cbn [seq map concat]. destruct (IH (S a)) as [IHs IHlow].
    split.
    + rewrite map_app. specialize (Hone a).
      destruct (f a) as [|m [|m' l]] eqn:Hf; [done| |simpl in Hone; lia].
      cbn [map app]. constructor; [done|].
      apply Forall_forall. intros x Hx%list_elem_of_In.
      apply in_map_iff in Hx as (m' & <- & Hm'%list_elem_of_In).
      specialize (IHlow m' Hm').
      rewrite (Hpartner a m) by (rewrite Hf; apply list_elem_of_here). lia.
    + intros m [Hm|Hm]%elem_of_app.
      * rewrite (Hpartner a m Hm). lia.
      * specialize (IHlow m Hm). lia.
Qed.

(** Messages with increasing partners, each without repeats, that share
    no identifier unless they share the partner: no repeats at all. *)
Lemma positions_NoDup (ms : list Message) :
  StronglySorted Z.lt (map partner ms) ->
  (forall m, m ∈ ms -> NoDup (positions m)) ->
  (forall m m' x, m ∈ ms -> m' ∈ ms -> x ∈ positions m -> x ∈ positions m' ->
     partner m = partner m') ->
  NoDup (concat (map positions ms)).
Proof.
  induction ms as [|m ms IH]; intros Hs Hnd Hshare; [constructor|].
  cbn [map concat] in *. apply StronglySorted_inv in Hs as [Hs Hall].
  rewrite Forall_forall in Hall.
  apply NoDup_app. split; [|split].
  - apply Hnd, list_elem_of_here.
  - intros x Hx Hin. apply list_elem_of_In, in_concat in Hin as (l & Hl & Hin).
    apply in_map_iff in Hl as (m' & <- & Hm'%list_elem_of_In).
    pose proof (Hshare m m' x ltac:(apply list_elem_of_here)
                  ltac:(by apply list_elem_of_further) Hx
                  ltac:(by apply list_elem_of_In)) as Heq.
    assert (Hlt : partner m < partner m').
    { apply Hall, list_elem_of_In, in_map_iff. exists m'.
      split; [done|by apply list_elem_of_In]. }
    lia.
  - apply IH; [done| |].
    + intros m' Hm'. by apply Hnd, list_elem_of_further.
    + intros m1 m2 x H1 H2. apply Hshare; by apply list_elem_of_further.
Qed.

Section s_ledger.

Variables (c : TAPConfig) (sort : list Z -> list Z).
Variables (starts : list Z) (G : CommData) (o : Origins).

Hypothesis PPN_pos : 0 < PPN c.
Hypothesis sort_perm : forall l, Permutation (sort l) l.
Hypothesis sort_sorted : forall l, Sorted Z.le (sort l).
Hypothesis o_searched : searched c starts G (size_msgs G) o.
Hypothesis G_length : length (indices G) = size_msgs G.

(** The identifiers given to the local rank [d], repeats included. *)
Definition assigned (d : nat) : list Z :=
  map (val G) (bucket (key o) d (size_msgs G)).

Lemma origin_key_lt k :
  (k < size_msgs G)%nat -> (key o k < Z.to_nat (PPN c))%nat.
Proof.
  intros Hk. destruct o_searched as (_ & _ & Hown & _).
  destruct (Hown k Hk) as (Hr & _). unfold key. lia.
Qed.

(** The last loop after the ranks [b < m]: their messages are recorded,
    the ranges of the other ranks are as the placement left them. *)
Lemma add_origin_messages displs (buf0 : list Z) (d0 : CommData) :
  (forall b, (b <= Z.to_nat (PPN c))%nat ->
     displs !!! b = offset (size_msgs G) (key o) b) ->
  length buf0 = size_msgs G ->
  (forall b, (b < Z.to_nat (PPN c))%nat ->
     slice buf0 (displs !!! b) (displs !!! S b) = assigned b) ->
  forall m, (m <= Z.to_nat (PPN c))%nat ->
    let st := fold_left (add_origin sort displs) (seq 0 m) (buf0, d0) in
    length st.1 = size_msgs G /\
    (forall b, (m <= b < Z.to_nat (PPN c))%nat ->
       slice st.1 (displs !!! b) (displs !!! S b) = assigned b) /\
    messages st.2
    = messages d0
      ++ concat (map (fun b => origin_message sort b (assigned b))
                     (seq 0 m)) /\
    sealed st.2 = sealed d0.
Proof.
  intros Hdispls Hlen0 Hslices0. induction m as [|m IH]; intros Hm.
  - cbn [fold_left seq map concat fst snd]. rewrite app_nil_r.
    split; [done|]. split; [|done]. intros b Hb. apply Hslices0. lia.
  - destruct (IH ltac:(lia)) as (Hlen & Hslices & Hmsgs & Hsealed).
    cbv zeta. rewrite seq_S, fold_left_app, map_app, concat_app.
    cbn [fold_left map concat]. change (0 + m)%nat with m.
    set (st := fold_left (add_origin sort displs) (seq 0 m) (buf0, d0)) in *.
    pose proof (Hslices m ltac:(lia)) as Hslice.
    pose proof (offset_S (size_msgs G) (key o) m) as HoffS.
    pose proof (offset_mono (size_msgs G) (key o) (S m) (Z.to_nat (PPN c))
                  ltac:(lia)) as Hend.
    rewrite (offset_end (Z.to_nat (PPN c)) (size_msgs G) (key o)
               origin_key_lt) in Hend.
    rewrite !Hdispls in Hslice by lia. rewrite HoffS in Hslice, Hend.
    set (start := offset (size_msgs G) (key o) m) in *.
    assert (HG : length (assigned m)
                 = length (bucket (key o) m (size_msgs G)))
      by (unfold assigned; by rewrite length_map).
    rewrite <- HG in Hslice, Hend.
    assert (Hstep :
      let st' := add_origin sort displs st m in
      length st'.1 = size_msgs G /\
      (forall s e, (start + length (assigned m) <= s)%nat ->
         slice st'.1 s e = slice st.1 s e) /\
      messages st'.2
      = messages st.2 ++ origin_message sort m (assigned m) /\
      sealed st'.2 = sealed st.2).
    { unfold add_origin. rewrite !Hdispls by lia. rewrite HoffS, <- HG.
      fold start.
      replace (start + length (assigned m) - start)%nat
        with (length (assigned m)) by lia.
      destruct (Nat.eqb_spec (length (assigned m)) 0) as [Hz|Hnz].
      - apply nil_length_inv in Hz. rewrite Hz. simpl.
        by rewrite app_nil_r.
      - destruct (GlobalStage.sort_range_in_place sort st.1 start
                    (start + length (assigned m))
                    sort_perm ltac:(lia)) as (Hl' & Hs' & Hother).
        cbn [fst snd add_msg messages sealed].
        split; [lia|]. split; [done|]. split; [|done].
        rewrite Hs', Hslice, firstn_all.
        f_equal. destruct (assigned m); [done|]. done. }
    destruct Hstep as (Hl' & Hother & Hm' & Hs').
    split; [done|]. split; [|split].
    + intros b Hb'.
      pose proof (offset_mono (size_msgs G) (key o) (S m) b ltac:(lia)).
      rewrite Hother by (rewrite Hdispls by lia; lia).
      apply Hslices. lia.
    + by rewrite Hm', Hmsgs, app_nil_r, app_assoc.
    + by rewrite Hs'.
Qed.

Lemma elem_of_assigned d x :
  x ∈ assigned d
  <-> exists k, (k < size_msgs G)%nat /\ key o k = d /\ x = indices G !!! k.
Proof.
  unfold assigned, bucket. rewrite list_elem_of_In, in_map_iff. split.
  - intros (k & <- & Hk%list_elem_of_In%list_elem_of_filter).
    destruct Hk as [Hkey Hk%elem_of_seq]. exists k.
    split; [lia|]. done.
  - intros (k & Hk & Hkey & ->). exists k. split; [done|].
    apply list_elem_of_In, list_elem_of_filter. split; [done|].
    apply elem_of_seq. lia.
Qed.

Lemma origin_message_spec d m :
  m ∈ origin_message sort d (assigned d) ->
  partner m = Z.of_nat d /\ StronglySorted Z.lt (positions m) /\
  forall x, x ∈ positions m <-> x ∈ assigned d.
Proof.
  unfold origin_message.
  destruct (assigned d) as [|a g] eqn:Hg; [by intros ?%elem_of_nil|].
  intros ->%list_elem_of_singleton. simpl.
  destruct (GlobalStage.unique_sorted_spec (sort (a :: g)) (sort_sorted _))
    as [Hsorted Helems].
  split; [done|]. split; [done|]. intros x.
  rewrite Helems. by rewrite (sort_perm (a :: g)).
Qed.

(** What the part of the function after the search records. *)
Lemma ledger_of_origins :
  let d := RStage.make_displs c (proc_sizes o) in
  let filled :=
    fold_left (add_index (orig_procs o) d.1 (indices G))
      (seq 0 (size_msgs G)) (d.2, replicate (size_msgs G) 0) in
  let r :=
    fold_left (add_origin sort d.1) (seq 0 (Z.to_nat (PPN c)))
      (filled.2, fresh) in
  messages r.2
  = concat (map (fun b => origin_message sort b (assigned b))
                (seq 0 (Z.to_nat (PPN c)))) /\
  sealed r.2 = false.
Proof.
  destruct o_searched as (_ & Hsizes & _ & Hcount).
  destruct (displs_offsets c (size_msgs G) (key o) (proc_sizes o)
              Hsizes Hcount) as (Hzl & Hoff & Hzero).
  set (d := RStage.make_displs c (proc_sizes o)) in *.
  cbv zeta.
  rewrite (fold_left_ext_in
             (add_index (orig_procs o) d.1 (indices G))
             (place (key o) (val G) d.1)) by done.
  destruct (placement_slices (Z.to_nat (PPN c)) (size_msgs G) (key o) (val G)
              d.1 origin_key_lt Hoff d.2 (replicate (size_msgs G) 0)
              ltac:(lia) Hzero ltac:(apply length_replicate))
    as [Hlen Hslices].
  set (buf := (fold_left (place (key o) (val G) d.1) _ _).2) in *.
  destruct (add_origin_messages d.1 buf fresh Hoff Hlen Hslices
              (Z.to_nat (PPN c)) ltac:(lia))
    as (_ & _ & Hmsgs & Hsealed).
  split; [by rewrite Hmsgs|done].
Qed.

End s_ledger.

(** A local rank is flagged exactly when something was counted for it. *)
Definition flagged (o : Origins) : Prop :=
  length (recv_procs o) = length (proc_sizes o) /\
  forall q : nat, (q < length (proc_sizes o))%nat ->
    recv_procs o !!! q = if decide (proc_sizes o !!! q = 0%nat) then 0 else 1.

Lemma own_flagged o j p : flagged o -> flagged (own o j p).
Proof.
  intros [Hlen Hflags]. split; cbn [own recv_procs proc_sizes];
    [by rewrite !length_insert|].
  rewrite length_insert. intros q Hq.
  destruct (decide (q = Z.to_nat p)) as [->|Hne].
  - rewrite !list_lookup_total_insert_eq by lia. done.
  - rewrite !list_lookup_total_insert_ne by done. by apply Hflags.
Qed.

Lemma own_cols_flagged c starts inds : forall js proc o o',
  own_cols c starts inds js proc o = Some o' -> flagged o -> flagged o'.
Proof.
  induction js as [|j js IH]; intros proc o o' Hrun Ho.
  - injection Hrun as <-. done.
  - cbn [own_cols] in Hrun.
    destruct (find_owner _ c starts (inds !!! j) proc) as [p|]; [|done].
    apply (IH p (own o j p) o' Hrun). by apply own_flagged.
Qed.

Lemma own_msgs_flagged c starts G : forall msgs o o',
  own_msgs c starts G msgs o = Some o' -> flagged o -> flagged o'.
Proof.
  induction msgs as [|i msgs IH]; intros o o' Hrun Ho.
  - injection Hrun as <-. done.
  - cbn [own_msgs] in Hrun.
    destruct (own_cols c starts (indices G) _ 0 o) as [o1|] eqn:Hcols;
      [|done].
    apply (IH o1 o' Hrun). by apply (own_cols_flagged _ _ _ _ _ _ _ Hcols).
Qed.

Lemma find_origins_flagged c starts G o :
  find_origins c starts G = Some o -> flagged o.
Proof.
  intros Hrun. apply (own_msgs_flagged _ _ _ _ _ _ Hrun).
  split; cbn [recv_procs proc_sizes]; [by rewrite !length_replicate|].
  rewrite length_replicate. intros q Hq.
  by rewrite !lookup_total_replicate_2.
Qed.

(** The flags of the search mark the partners of the recv ledger. *)
Lemma form_local_S_recv_flags c (sort : list Z -> list Z)
    (starts : list Z) (G : CommData) :
  0 < PPN c ->
  (forall l, Permutation (sort l) l) ->
  sealed_form G ->
  (forall m, m ∈ messages G -> Sorted Z.le (positions m)) ->
  (forall x, x ∈ indices G -> starts !!! 0%nat <= x) ->
  exists o ledger,
    find_origins c starts G = Some o /\
    form_local_S_recv c sort starts G fresh = Some ledger /\
    length (recv_procs o) = Z.to_nat (PPN c) /\
    forall d, (d < Z.to_nat (PPN c))%nat ->
      recv_procs o !!! d = if decide (Z.of_nat d ∈ procs ledger) then 1 else 0.
Proof.
  intros Hp Hperm Hsealed Hmsgs Hknown.
  destruct (find_origins_searched c starts G Hp Hsealed Hmsgs Hknown)
    as (o & Hrun & Ho).
  pose proof (indices_length G Hsealed) as Hind.
  destruct (ledger_of_origins c sort starts G o Hp Hperm Ho Hind)
    as [Hledger Hopen].
  destruct (find_origins_flagged c starts G o Hrun) as [Hlen Hflags].
  destruct Ho as (_ & Hsizes & _ & Hcount).
  exists o. unfold form_local_S_recv. rewrite Hrun.
  cbv zeta in Hledger, Hopen |- *.
  set (r := fold_left (add_origin sort _) _ _) in *.
  unfold finalize. rewrite Hopen.
  eexists. split; [done|]. split; [reflexivity|].
  split; [lia|]. intros d Hd.
  unfold procs. cbn [messages]. rewrite Hledger, Hflags, (Hcount d Hd) by lia.
  assert (Hiff : Z.of_nat d
                 ∈ map partner
                     (concat (map (fun b => origin_message sort b
                                              (assigned G o b))
                                  (seq 0 (Z.to_nat (PPN c)))))
                 <-> bucket (key o) d (size_msgs G) <> []).
  { rewrite list_elem_of_In, in_map_iff. split.
    - intros (m & Hpartner & Hm). apply in_concat in Hm as (l & Hl & Hm).
      apply in_map_iff in Hl as (b & <- & _).
      unfold origin_message in Hm.
      destruct (assigned G o b) as [|a g] eqn:Hg; [done|].
      destruct Hm as [<-|[]]. cbn [partner] in Hpartner.
      assert (b = d) as -> by lia.
      intros Hnil. unfold assigned in Hg. by rewrite Hnil in Hg.
    - intros Hne.
      exists (mkMessage (Z.of_nat d)
                (GlobalStage.unique_sorted (sort (assigned G o d)))).
      split; [done|]. apply in_concat.
      exists (origin_message sort d (assigned G o d)). split.
      + apply in_map_iff. exists d. split; [done|]. apply in_seq. lia.
      + unfold origin_message, assigned.
        destruct (bucket (key o) d (size_msgs G)); [done|]. by left. }
  destruct (decide (length (bucket (key o) d (size_msgs G)) = 0%nat))
    as [Hz|Hnz].
  - apply nil_length_inv in Hz. rewrite decide_False; [done|].
    rewrite Hiff. by intros ?.
  - rewrite decide_True; [done|]. apply Hiff. intros Hnil.
    by rewrite Hnil in Hnz.
Qed.

(** X17.  With [PPN] positive, one first column per local rank, a sealed
    global send ledger whose messages each list their identifiers in
    ascending order, and no identifier below the first column of local
    rank 0, the search ends and gives
    every identifier a local rank that owns it: the identifier is not
    below the first column of that rank and, unless the rank is the last
    one, below the first column of the next rank. *)
Theorem X17_search_finds_an_owner c (local_col_starts : list Z)
    (G_send : CommData) :
  0 < PPN c -> length local_col_starts = Z.to_nat (PPN c) ->
  sealed_form G_send ->
  (forall m, m ∈ messages G_send -> Sorted Z.le (positions m)) ->
  (forall x, x ∈ indices G_send -> local_col_starts !!! 0%nat <= x) ->
  exists o,
    find_origins c local_col_starts G_send = Some o /\
    length (orig_procs o) = size_msgs G_send /\
    forall k, (k < size_msgs G_send)%nat ->
      owned c local_col_starts (indices G_send !!! k) (orig_procs o !!! k).
Proof.
  intros Hp _ Hsealed Hsorted Hknown.
  destruct (find_origins_searched c local_col_starts G_send
              Hp Hsealed Hsorted Hknown) as (o & Hrun & Hlen & _ & Hown & _).
  exists o. split; [done|]. split; [done|]. exact Hown.
Qed.

Lemma X17_search_witness :
  exists o,
    find_origins (mkTAPConfig 1 4 8 1000 62 4) [0; 10; 20; 30]
      (mkCommData [mkMessage 9 [3; 12; 12; 31]; mkMessage 21 [5; 25]] true
                  [0; 4; 6]%nat [3; 12; 12; 31; 5; 25])
    = Some o /\
    orig_procs o = [0; 1; 1; 3; 0; 2].
Proof.
  destruct (X17_search_finds_an_owner (mkTAPConfig 1 4 8 1000 62 4)
              [0; 10; 20; 30]
              (mkCommData [mkMessage 9 [3; 12; 12; 31]; mkMessage 21 [5; 25]]
                          true [0; 4; 6]%nat [3; 12; 12; 31; 5; 25]))
    as (o & Hrun & _).
  - simpl. lia.
  - reflexivity.
  - by split.
  - apply Forall_forall. apply (bool_decide_unpack _). vm_compute. exact I.
  - apply Forall_forall. apply (bool_decide_unpack _). vm_compute. exact I.
  - exists o. split; [exact Hrun|].
    vm_compute in Hrun. by injection Hrun as <-.
Defined.

(** X18.  With a sort meeting the contract of [std::sort], the first
    columns of the [PPN] local ranks in ascending order, and a sealed
    global send ledger with ascending messages and no identifier below
    the first column of rank 0, [form_local_S_par_comm] seals a recv
    ledger with at most one message per local rank, in increasing order
    of the rank; the message of a rank lists, strictly increasing, exactly
    the identifiers of the global send ledger that the rank owns,
    every identifier of that ledger is asked from some rank, and the
    index array of the sealed ledger holds no identifier twice. *)
Theorem X18_S_recv_ledger_asks_the_owners c (sort : list Z -> list Z)
    (local_col_starts : list Z) (G_send : CommData) :
  0 < PPN c ->
  (forall l, Permutation (sort l) l) -> (forall l, Sorted Z.le (sort l)) ->
  length local_col_starts = Z.to_nat (PPN c) ->
  Sorted Z.le local_col_starts ->
  sealed_form G_send ->
  (forall m, m ∈ messages G_send -> Sorted Z.le (positions m)) ->
  (forall x, x ∈ indices G_send -> local_col_starts !!! 0%nat <= x) ->
  exists ledger,
    form_local_S_recv c sort local_col_starts G_send fresh = Some ledger /\
    sealed_form ledger /\
    StronglySorted Z.lt (map partner (messages ledger)) /\
    (forall m, m ∈ messages ledger ->
       StronglySorted Z.lt (positions m) /\
       forall x, x ∈ positions m
                 <-> x ∈ indices G_send
                     /\ owned c local_col_starts x (partner m)) /\
    (forall x, x ∈ indices G_send ->
       exists m, m ∈ messages ledger /\ x ∈ positions m) /\
    NoDup (indices ledger).
Proof.
  intros Hp Hperm Hsorted Hlen Hstarts Hsealed Hmsgs Hknown.
  destruct (find_origins_searched c local_col_starts G_send
              Hp Hsealed Hmsgs Hknown) as (o & Hrun & Ho).
  pose proof (indices_length G_send Hsealed) as Hind.
  destruct (ledger_of_origins c sort local_col_starts G_send o
              Hp Hperm Ho Hind) as [Hledger Hopen].
  unfold form_local_S_recv. rewrite Hrun.
  cbv zeta in Hledger, Hopen |- *.
  set (r := fold_left (add_origin sort _) _ _) in *.
  unfold finalize. rewrite Hopen.
  eexists. split; [reflexivity|]. split; [by split|].
  cbn [messages indices]. rewrite Hledger.
  set (f := fun b => origin_message sort b
                       (assigned G_send o b)).
  assert (Hf : forall d m, m ∈ f d ->
    partner m = Z.of_nat d /\ StronglySorted Z.lt (positions m) /\
    forall x, x ∈ positions m <-> x ∈ assigned G_send o d).
  { intros d m Hm. by apply (origin_message_spec sort G_send o Hperm Hsorted). }
  assert (Hmem : forall m, m ∈ concat (map f (seq 0 (Z.to_nat (PPN c)))) ->
                 exists d, m ∈ f d).
  { intros m Hm. apply list_elem_of_In, in_concat in Hm as (l & Hl & Hm).
    apply in_map_iff in Hl as (d & <- & _). exists d.
    by apply list_elem_of_In. }
  destruct Ho as (_ & _ & Hown & _).
  assert (Hpartners :
    StronglySorted Z.lt
      (map partner (concat (map f (seq 0 (Z.to_nat (PPN c))))))).
  { apply (partners_increase f).
    + intros d m Hm. by apply Hf.
    + intros d. unfold f, origin_message.
      destruct (assigned G_send o d); simpl; lia. }
  assert (Hasked : forall m,
    m ∈ concat (map f (seq 0 (Z.to_nat (PPN c)))) ->
    StronglySorted Z.lt (positions m) /\
    forall x, x ∈ positions m
              <-> x ∈ indices G_send
                  /\ owned c local_col_starts x (partner m));
    [|split; [done|]; split; [done|]; split].
  - intros m Hm. destruct (Hmem m Hm) as (d & Hd).
    destruct (Hf d m Hd) as (Hpartner & Hs & Helems).
    split; [done|]. intros x.
    rewrite Helems, (elem_of_assigned G_send o Hind), Hpartner. split.
    + intros (k & Hk & Hkey & ->). split.
      * apply list_elem_of_lookup_total_2. lia.
      * specialize (Hown k Hk). unfold key in Hkey.
        destruct Hown as (Hr & Hrest).
        replace (Z.of_nat d) with (orig_procs o !!! k) by lia.
        by split.
    + intros [Hx Hd']. apply list_elem_of_lookup_total in Hx as (k & Hk & <-).
      exists k. split; [lia|]. split; [|done].
      pose proof (owned_unique c local_col_starts _ _ _ Hlen Hstarts
                    (Hown k ltac:(lia)) Hd') as Heq.
      unfold key. lia.
  - intros x Hx. apply list_elem_of_lookup_total in Hx as (k & Hk & <-).
    rewrite Hind in Hk.
    set (d := key o k).
    assert (Hin : indices G_send !!! k ∈ assigned G_send o d).
    { apply (elem_of_assigned G_send o Hind). by exists k. }
    exists (mkMessage (Z.of_nat d)
              (GlobalStage.unique_sorted (sort (assigned G_send o d)))).
    assert (Hmsg : mkMessage (Z.of_nat d)
                     (GlobalStage.unique_sorted (sort (assigned G_send o d)))
                   ∈ f d).
    { unfold f, origin_message.
      destruct (assigned G_send o d); [by apply elem_of_nil in Hin|].
      apply list_elem_of_here. }
    split.
    + apply list_elem_of_In, in_concat. exists (f d). split.
      * apply in_map_iff. exists d. split; [done|].
        apply in_seq. destruct (Hown k Hk) as (Hr & _).
        unfold d, key. lia.
      * by apply list_elem_of_In.
    + destruct (Hf d _ Hmsg) as (_ & _ & Helems). by apply Helems.
  - apply positions_NoDup; [done| |].
    + intros m Hm. destruct (Hasked m Hm) as [Hs _].
      by apply HostDiscovery.strictly_increasing_NoDup.
    + intros m m' x Hm Hm' Hx Hx'.
      destruct (proj1 (proj2 (Hasked m Hm) x) Hx) as [_ Ho1].
      destruct (proj1 (proj2 (Hasked m' Hm') x) Hx') as [_ Ho2].
      by apply (owned_unique c local_col_starts x).
Qed.

Lemma X18_S_recv_ledger_witness :
  form_local_S_recv (mkTAPConfig 1 4 8 1000 62 4) (merge_sort Z.le)
    [0; 10; 20; 30]
    (mkCommData [mkMessage 9 [3; 12; 12; 31]; mkMessage 21 [5; 12; 25]] true
                [0; 4; 7]%nat [3; 12; 12; 31; 5; 12; 25])
    fresh
  = Some (mkCommData [mkMessage 0 [3; 5]; mkMessage 1 [12];
                      mkMessage 2 [25]; mkMessage 3 [31]]
                     true [0; 2; 3; 4; 5]%nat [3; 5; 12; 25; 31]).
Proof.
  destruct (X18_S_recv_ledger_asks_the_owners
              (mkTAPConfig 1 4 8 1000 62 4) (merge_sort Z.le)
              [0; 10; 20; 30]
              (mkCommData [mkMessage 9 [3; 12; 12; 31];
                           mkMessage 21 [5; 12; 25]] true
                          [0; 4; 7]%nat [3; 12; 12; 31; 5; 12; 25]))
    as (ledger & Hrun & _).
  - simpl. lia.
  - intros l. apply merge_sort_Permutation.
  - intros l. apply (Sorted_merge_sort Z.le).
  - reflexivity.
  - apply (bool_decide_unpack _). vm_compute. exact I.
  - by split.
  - apply Forall_forall. apply (bool_decide_unpack _). vm_compute. exact I.
  - apply Forall_forall. apply (bool_decide_unpack _). vm_compute. exact I.
  - rewrite Hrun. vm_compute in Hrun. by injection Hrun as <-.
Defined.

End SStage.

(** ** [form_local_R_par_comm]: columns sent with their origin hosts *)
Module RPacking.
Import Ledger Buckets.

(** State of the packing loop: the buffer, the write position [ctr], the
    start [start_ctr] of the message being packed, and the messages
    handed to [MPI_Isend], each with its destination, its start in the
    buffer and its length. *)
Record Pack := mkPack {
  send_buffer : list Z;
  ctr : nat;
  start_ctr : nat;
  sends : list (Z * nat * nat)
}.

(** Body of the two inner loops: [send_buffer[ctr++] = src[idx]] with
    [idx = local_recv_indices[j]]. *)
Definition pack_one (src local_recv_indices : list Z)
    (st : list Z * nat) (j : nat) : list Z * nat :=
  let idx := Z.to_nat (local_recv_indices !!! j) in
  (<[st.2 := src !!! idx]> st.1, S st.2).

(** Iteration [i] over the messages of the R-stage recv ledger. *)
Definition pack_msg (off_node_column_map off_node_col_to_node : list Z)
    (local_recv_indices : list Z) (R_recv : CommData)
    (s : Pack) (i : nat) : Pack :=
  let recv_proc := procs R_recv !!! i in
  let recv_start := indptr R_recv !!! i in
  let recv_end := indptr R_recv !!! S i in
  let js := seq recv_start (recv_end - recv_start) in
  let cols := fold_left (pack_one off_node_column_map local_recv_indices) js
                        (send_buffer s, ctr s) in
  let nodes := fold_left (pack_one off_node_col_to_node local_recv_indices) js
                         cols in
  mkPack nodes.1 nodes.2 nodes.2
         (sends s ++ [(recv_proc, start_ctr s,
                       (2 * (recv_end - recv_start))%nat)]).

(** "Send recv_indices to each recv_proc along with their origin node". *)
Definition pack_all (off_node_column_map off_node_col_to_node : list Z)
    (local_recv_indices : list Z) (R_recv : CommData) : Pack :=
  fold_left (pack_msg off_node_column_map off_node_col_to_node
                      local_recv_indices R_recv)
            (seq 0 (num_msgs R_recv))
            (mkPack (replicate (2 * size_msgs R_recv) 0) 0 0 []).

(** What the messages carry once they are sent: the destination and the
    range of the buffer. *)
Definition payloads (s : Pack) : list (Z * list Z) :=
  map (fun m : Z * nat * nat =>
         (m.1.1, slice (send_buffer s) m.1.2 (m.1.2 + m.2)))
      (sends s).

(** Receiving side, one arriving message [(proc, recvbuf)]: the first
    half is recorded in the send ledger, the second half is appended to
    [orig_nodes]. *)
Definition unpack_msg (st : CommData * list Z) (arrival : Z * list Z)
  : CommData * list Z :=
  let count := length arrival.2 in
  (add_msg st.1 arrival.1 (count / 2)%nat arrival.2,
   st.2 ++ drop (count / 2)%nat arrival.2).

(** "Recv messages from local processes and add to send_data", for the
    messages in their order of arrival, up to the [finalize]. *)
Definition form_local_R_send (arrivals : list (Z * list Z))
    (send_data0 : CommData) (orig_nodes0 : list Z)
  : option (CommData * list Z) :=
  let r := fold_left unpack_msg arrivals (send_data0, orig_nodes0) in
  match finalize r.1 with
  | Some ledger => Some (ledger, r.2)
  | None => None
  end.

(** The buffer of message [i] in the words of a specification: the
    columns of the message, then the host of each of them. *)
Definition packed (off_node_column_map off_node_col_to_node : list Z)
    (local_recv_indices : list Z) (R_recv : CommData) (i : nat) : list Z :=
  let range := slice local_recv_indices (indptr R_recv !!! i)
                                        (indptr R_recv !!! S i) in
  map (fun idx => off_node_column_map !!! Z.to_nat idx) range
  ++ map (fun idx => off_node_col_to_node !!! Z.to_nat idx) range.

(** One inner loop writes its values one after the other and touches
    nothing else. *)
Lemma pack_one_run (src lri : list Z) (s : nat) : forall len buf pos,
  (pos + len <= length buf)%nat ->
  fold_left (pack_one src lri) (seq s len) (buf, pos)
  = (take pos buf
     ++ map (fun j => src !!! Z.to_nat (lri !!! j)) (seq s len)
     ++ drop (pos + len) buf,
     (pos + len)%nat).
Proof.
  induction len as [|len IH]; intros buf pos Hlen.
  - cbn [seq fold_left map app]. by rewrite Nat.add_0_r, take_drop.
  - rewrite seq_S, fold_left_app, IH by lia. cbn [fold_left].
    unfold pack_one. cbn [fst snd]. f_equal; [|lia].
    rewrite map_app. cbn [map].
    rewrite app_assoc, insert_app_r_alt
      by (rewrite length_app, length_take, length_map, length_seq; lia).
    rewrite length_app, length_take, length_map, length_seq.
    replace (pos + len - (pos `min` length buf + len))%nat with 0%nat by lia.
    rewrite <- !app_assoc. f_equal. f_equal.
    destruct (drop (pos + len) buf) as [|x rest] eqn:Hd.
    + apply (f_equal length) in Hd. rewrite length_drop in Hd.
      simpl in Hd. lia.
    + cbn [insert list_insert app]. f_equal.
      replace (pos + S len)%nat with (pos + len + 1)%nat by lia.
      by rewrite <- drop_drop, Hd.
Qed.

Lemma pack_one_fresh (src lri pre : list Z) (s len k : nat) :
  (len <= k)%nat ->
  fold_left (pack_one src lri) (seq s len)
            (pre ++ replicate k 0, length pre)
  = (pre ++ map (fun j => src !!! Z.to_nat (lri !!! j)) (seq s len)
         ++ replicate (k - len) 0,
     (length pre + len)%nat).
Proof.
  intros Hk.
  rewrite pack_one_run by (rewrite length_app, length_replicate; lia).
  f_equal. rewrite take_app_length. f_equal. f_equal.
  rewrite drop_app_ge by lia.
  replace (length pre + len - length pre)%nat with len by lia.
  by rewrite drop_replicate.
Qed.

Lemma slice_seq (src lri : list Z) (s len : nat) :
  (s + len <= length lri)%nat ->
  map (fun j => src !!! Z.to_nat (lri !!! j)) (seq s len)
  = map (fun idx => src !!! Z.to_nat idx) (slice lri s (s + len)).
Proof.
  intros Hlen. unfold slice.
  replace (s + len - s)%nat with len by lia.
  rewrite <- (map_map (fun j => lri !!! j)
                      (fun idx => src !!! Z.to_nat idx)).
  f_equal. apply (list_eq_same_length _ _ len).
  - rewrite length_take, length_drop. lia.
  - by rewrite length_map, length_seq.
  - intros t x y Ht Hx Hy.
    change (map ?f ?l) with (f <$> l) in Hx.
    rewrite list_lookup_fmap, lookup_seq_lt in Hx by done.
    rewrite lookup_take_lt, lookup_drop in Hy by done.
    apply list_lookup_total_correct in Hy. simpl in Hx. congruence.
Qed.

Lemma concat_slice {A} (f : nat -> list A) (tail : list A) (n i : nat) :
  (i < n)%nat ->
  slice (concat (map f (seq 0 n)) ++ tail)
        (length (concat (map f (seq 0 i))))
        (length (concat (map f (seq 0 i))) + length (f i))
  = f i.
Proof.
  intros Hi.
  replace n with (i + S (n - S i))%nat by lia.
  rewrite seq_app, map_app, concat_app. cbn [seq map concat Nat.add].
  unfold slice. rewrite <- !app_assoc, drop_app_length.
  replace (length (concat (map f (seq 0 i))) + length (f i)
           - length (concat (map f (seq 0 i))))%nat
    with (length (f i)) by lia.
  by rewrite take_app_length.
Qed.

Section packing.

Variables (off_node_column_map off_node_col_to_node : list Z).
Variables (local_recv_indices : list Z) (R_recv : CommData).

Hypothesis R_sealed : SStage.sealed_form R_recv.
Hypothesis indices_all :
  length local_recv_indices = size_msgs R_recv.

Definition buffer_of (i : nat) : list Z :=
  packed off_node_column_map off_node_col_to_node local_recv_indices
         R_recv i.

Lemma indptr_step i :
  (i < num_msgs R_recv)%nat ->
  (indptr R_recv !!! i <= indptr R_recv !!! S i)%nat /\
  (indptr R_recv !!! S i <= size_msgs R_recv)%nat.
Proof.
  intros Hi.
  destruct (lookup_lt_is_Some_2 (messages R_recv) i) as [m Hm]; [done|].
  destruct (SStage.message_range R_recv R_sealed i m Hm) as (-> & Hle & _).
  lia.
Qed.

Lemma length_buffer_of i :
  (i < num_msgs R_recv)%nat ->
  length (buffer_of i)
  = (2 * (indptr R_recv !!! S i - indptr R_recv !!! i))%nat.
Proof.
  intros Hi. destruct (indptr_step i Hi) as [Hle Hend].
  unfold buffer_of, packed, slice.
  rewrite length_app, !length_map, length_take, length_drop. lia.
Qed.

(** State of the packing loop before the message [m]. *)
Definition packed_to (m : nat) (s : Pack) : Prop :=
  send_buffer s
  = concat (map buffer_of (seq 0 m))
    ++ replicate (2 * (size_msgs R_recv - indptr R_recv !!! m)) 0 /\
  length (concat (map buffer_of (seq 0 m)))
  = (2 * indptr R_recv !!! m)%nat /\
  ctr s = (2 * indptr R_recv !!! m)%nat /\
  start_ctr s = (2 * indptr R_recv !!! m)%nat /\
  sends s
  = map (fun i => (procs R_recv !!! i,
                   length (concat (map buffer_of (seq 0 i))),
                   length (buffer_of i)))
        (seq 0 m).

Lemma pack_msg_packed m s :
  (m < num_msgs R_recv)%nat -> packed_to m s ->
  packed_to (S m)
    (pack_msg off_node_column_map off_node_col_to_node local_recv_indices
              R_recv s m).
Proof.
  intros Hm (Hbuf & Hlen & Hctr & Hstart & Hsends).
  destruct (indptr_step m Hm) as [Hle Hend].
  pose proof (length_buffer_of m Hm) as Hlm.
  set (start := indptr R_recv !!! m) in *.
  set (stop := indptr R_recv !!! S m) in *.
  set (pre := concat (map buffer_of (seq 0 m))) in *.
  assert (Hnew : concat (map buffer_of (seq 0 (S m))) = pre ++ buffer_of m).
  { rewrite seq_S, map_app, concat_app. cbn [map concat].
    by rewrite app_nil_r. }
  unfold pack_msg. fold start stop.
  rewrite Hbuf, Hctr, <- Hlen.
  rewrite pack_one_fresh by lia.
  set (cols := map (fun j => off_node_column_map
                               !!! Z.to_nat (local_recv_indices !!! j))
                   (seq start (stop - start))).
  assert (Hcols : length cols = (stop - start)%nat)
    by (unfold cols; by rewrite length_map, length_seq).
  replace (length pre + (stop - start))%nat
    with (length (pre ++ cols)) by (rewrite length_app; lia).
  rewrite (app_assoc pre cols).
  rewrite pack_one_fresh by lia.
  set (nodes := map (fun j => off_node_col_to_node
                                !!! Z.to_nat (local_recv_indices !!! j))
                    (seq start (stop - start))).
  assert (Hnodes : length nodes = (stop - start)%nat)
    by (unfold nodes; by rewrite length_map, length_seq).
  assert (Hpacked : buffer_of m = cols ++ nodes).
  { unfold buffer_of, packed, cols, nodes. fold start stop.
    replace stop with (start + (stop - start))%nat at 1 2 by lia.
    by rewrite <- !slice_seq by lia. }
  unfold packed_to. cbn [send_buffer ctr start_ctr sends fst snd].
  rewrite Hnew, Hpacked, !length_app, Hcols, Hnodes.
  split; [|split; [lia|split; [lia|split; [lia|]]]].
  - rewrite <- !app_assoc. do 3 f_equal. f_equal. lia.
  - rewrite seq_S, map_app, Hsends, Hstart. cbn [map].
    change (0 + m)%nat with m. fold pre. rewrite Hlm, Hlen. done.
Qed.

Lemma pack_all_packed :
  packed_to (num_msgs R_recv)
    (pack_all off_node_column_map off_node_col_to_node local_recv_indices
              R_recv).
Proof.
  unfold pack_all.
  assert (Hall : forall m, (m <= num_msgs R_recv)%nat ->
    packed_to m
      (fold_left (pack_msg off_node_column_map off_node_col_to_node
                           local_recv_indices R_recv)
                 (seq 0 m)
                 (mkPack (replicate (2 * size_msgs R_recv) 0) 0 0 [])));
    [|by apply Hall].
  induction m as [|m IH]; intros Hm.
  - assert (Hzero : indptr R_recv !!! 0%nat = 0%nat).
    { destruct R_sealed as [-> _]. by destruct (messages R_recv). }
    unfold packed_to. cbn [seq map concat fold_left app length
                           send_buffer ctr start_ctr sends].
    rewrite Hzero, Nat.sub_0_r. done.
  - rewrite seq_S, fold_left_app. cbn [fold_left].
    apply pack_msg_packed; [lia|]. apply IH. lia.
Qed.

End packing.

(** X19.  With a sealed R-stage recv ledger, [local_recv_indices] as
    long as the ledger and holding positions of the two column vectors,
    the packing loop hands one message per ledger
    message to [MPI_Isend], in ledger order and for the ledger's partner;
    its buffer range holds the columns of the message, then, in the same
    order, the host of each of them.  No range overlaps another. *)
Theorem X19_packed_buffers_pair_columns_with_hosts
    (off_node_column_map off_node_col_to_node local_recv_indices : list Z)
    (R_recv : CommData) :
  SStage.sealed_form R_recv ->
  length local_recv_indices = size_msgs R_recv ->
  length off_node_col_to_node = length off_node_column_map ->
  (forall idx, idx ∈ local_recv_indices ->
     0 <= idx < Z.of_nat (length off_node_column_map)) ->
  payloads (pack_all off_node_column_map off_node_col_to_node
                     local_recv_indices R_recv)
  = map (fun i => (procs R_recv !!! i,
                   packed off_node_column_map off_node_col_to_node
                          local_recv_indices R_recv i))
        (seq 0 (num_msgs R_recv)).
Proof.
  intros Hsealed Hlen _ _.
  destruct (pack_all_packed off_node_column_map off_node_col_to_node
              local_recv_indices R_recv Hsealed Hlen)
    as (Hbuf & _ & _ & _ & Hsends).
  unfold payloads. rewrite Hsends, Hbuf, map_map.
  apply map_ext_in. intros i Hi%in_seq. cbn [fst snd]. f_equal.
  apply (concat_slice
           (buffer_of off_node_column_map off_node_col_to_node
                      local_recv_indices R_recv)). lia.
Qed.

Lemma X19_packed_buffers_witness :
  payloads (pack_all [100; 101; 102; 103; 104] [7; 5; 7; 1; 5]
                     [1; 4; 0; 2; 3]
                     (mkCommData [mkMessage 0 [1; 4]; mkMessage 2 [0; 2; 3]]
                                 true [0; 2; 5]%nat [1; 4; 0; 2; 3]))
  = [(0, [101; 104; 5; 5]); (2, [100; 102; 103; 7; 7; 1])].
Proof.
  rewrite (X19_packed_buffers_pair_columns_with_hosts
             [100; 101; 102; 103; 104] [7; 5; 7; 1; 5] [1; 4; 0; 2; 3]).
  - reflexivity.
  - by split.
  - reflexivity.
  - reflexivity.
  - apply Forall_forall. apply (bool_decide_unpack _). vm_compute. exact I.
Defined.

(** What [unpack_msg] makes of arrivals that were packed as above. *)
Lemma unpack_packed (pairs : list (Z * list Z * list Z)) :
  Forall (fun a : Z * list Z * list Z => length a.1.2 = length a.2) pairs ->
  forall d0 orig0,
    let r := fold_left unpack_msg
               (map (fun a : Z * list Z * list Z => (a.1.1, a.1.2 ++ a.2))
                    pairs)
               (d0, orig0) in
    messages r.1
    = messages d0
      ++ map (fun a : Z * list Z * list Z => mkMessage a.1.1 a.1.2) pairs /\
    sealed r.1 = sealed d0 /\
    r.2 = orig0 ++ concat (map snd pairs).
Proof.
  induction 1 as [|[[proc cols] nodes] pairs Hlen _ IH]; intros d0 orig0.
  - cbn [map fold_left fst snd concat]. by rewrite !app_nil_r.
  - cbn [map fold_left fst snd concat] in *.
    destruct (IH (add_msg d0 proc (length (cols ++ nodes) / 2)%nat
                          (cols ++ nodes))
                 (orig0 ++ drop (length (cols ++ nodes) / 2)%nat
                                (cols ++ nodes)))
      as (Hm & Hs & Ho).
    unfold unpack_msg at 2 4 6. cbn [fst snd].
    rewrite Hm, Hs, Ho. cbn [add_msg messages sealed].
    assert (Hhalf : (length (cols ++ nodes) / 2)%nat = length cols).
    { rewrite length_app, <- Hlen.
      replace (length cols + length cols)%nat with (length cols * 2)%nat
        by lia.
      by rewrite Nat.div_mul. }
    rewrite Hhalf, take_app_length, drop_app_length.
    by rewrite <- !app_assoc.
Qed.

(** X20.  When every arriving buffer holds a list of columns followed by
    as many hosts, the receiving loop seals a send ledger with one
    message of columns per arrival, in the order of arrival, and leaves
    in [orig_nodes] the hosts in the same order: [orig_nodes] is as long
    as the ledger, and entry [k] of [orig_nodes] arrived paired with
    entry [k] of the index array. *)
Theorem X20_orig_nodes_run_along_the_send_ledger
    (pairs : list (Z * list Z * list Z)) :
  Forall (fun a : Z * list Z * list Z => length a.1.2 = length a.2) pairs ->
  exists ledger orig_nodes,
    form_local_R_send
      (map (fun a : Z * list Z * list Z => (a.1.1, a.1.2 ++ a.2)) pairs)
      fresh []
    = Some (ledger, orig_nodes) /\
    messages ledger
    = map (fun a : Z * list Z * list Z => mkMessage a.1.1 a.1.2) pairs /\
    length orig_nodes = size_msgs ledger /\
    length (indices ledger) = size_msgs ledger /\
    zip (indices ledger) orig_nodes
    = concat (map (fun a : Z * list Z * list Z => zip a.1.2 a.2) pairs).
Proof.
  intros Hpairs.
  destruct (unpack_packed pairs Hpairs fresh []) as (Hm & Hs & Ho).
  unfold form_local_R_send, finalize. rewrite Hs. cbn [sealed fresh].
  eexists _, _. split; [reflexivity|].
  unfold size_msgs. cbn [messages indices].
  rewrite Hm, Ho. cbn [messages fresh app]. rewrite map_map. cbn [positions].
  split; [done|].
  assert (Hzip : forall l : list (Z * list Z * list Z),
    Forall (fun a : Z * list Z * list Z => length a.1.2 = length a.2) l ->
    length (concat (map snd l))
    = length (concat (map (fun a : Z * list Z * list Z => a.1.2) l)) /\
    zip (concat (map (fun a : Z * list Z * list Z => a.1.2) l))
        (concat (map snd l))
    = concat (map (fun a : Z * list Z * list Z => zip a.1.2 a.2) l)).
  { induction 1 as [|a l Ha _ IHl]; [done|].
    cbn [map concat]. destruct IHl as [IHlen IHzip].
    rewrite !length_app, IHlen. split; [lia|].
    by rewrite zip_with_app, IHzip by done. }
  destruct (Hzip pairs Hpairs) as [Hlen Hz]. done.
Qed.

Lemma X20_orig_nodes_witness :
  form_local_R_send [(1, [101; 104; 5; 5]); (3, [100; 102; 103; 7; 7; 1])]
                    fresh []
  = Some (mkCommData [mkMessage 1 [101; 104]; mkMessage 3 [100; 102; 103]]
                     true [0; 2; 5]%nat [101; 104; 100; 102; 103],
          [5; 5; 7; 7; 1]).
Proof.
  destruct (X20_orig_nodes_run_along_the_send_ledger
              [(1, [101; 104], [5; 5]); (3, [100; 102; 103], [7; 7; 1])])
    as (ledger & orig_nodes & Hrun & _).
  - apply (bool_decide_unpack _). vm_compute. exact I.
  - cbn [map fst snd app] in Hrun. rewrite Hrun.
    vm_compute in Hrun. by injection Hrun as <- <-.
Defined.

End RPacking.

(** ** How many messages a local rank waits for *)
Module Handshake.
Import Ledger LoadBalancer RStage.

(** Summing flags that are 1 where [P] holds and 0 elsewhere counts the
    entries where [P] holds. *)
Lemma sum_flags {A} (P : A -> Prop) `{!forall a, Decision (P a)}
    (f : A -> Z) (l : list A) : forall acc,
  (forall a, a ∈ l -> f a = if decide (P a) then 1 else 0) ->
  fold_left Z.add (map f l) acc = acc + Z.of_nat (length (filter P l)).
Proof.
  induction l as [|a l IH]; intros acc Hf; [simpl; lia|].
  cbn [map fold_left].
  rewrite IH by (intros b Hb; apply Hf; by apply list_elem_of_further).
  rewrite (Hf a) by apply list_elem_of_here.
  rewrite filter_cons. destruct (decide (P a)); simpl; lia.
Qed.

(** The loop "Add recv_data for local_R_par_comm" flags exactly the
    ranks it records a message for. *)
Lemma add_recv_flags (displs : list nat) (buf : list Z) : forall m d0 flags0,
  (m <= length flags0)%nat ->
  let st := fold_left (add_recv displs buf) (seq 0 m) (d0, flags0) in
  length st.2 = length flags0 /\
  sealed st.1 = sealed d0 /\
  procs st.1
  = procs d0
    ++ map Z.of_nat
         (filter (fun i => (displs !!! S i - displs !!! i)%nat <> 0%nat)
                 (seq 0 m)) /\
  (forall i, (i < m)%nat ->
     st.2 !!! i
     = if decide ((displs !!! S i - displs !!! i)%nat = 0%nat)
       then flags0 !!! i else 1) /\
  (forall i, (m <= i)%nat -> st.2 !!! i = flags0 !!! i).
Proof.
  induction m as [|m IH]; intros d0 flags0 Hm.
  - cbn [seq fold_left fst snd filter map]. rewrite filter_nil.
    cbn [map]. rewrite app_nil_r.
    split; [done|]. split; [done|]. split; [done|].
    split; [intros i Hi; lia|done].
  - destruct (IH d0 flags0 ltac:(lia)) as (Hlen & Hsealed & Hprocs & Hin & Hout).
    cbv zeta. rewrite seq_S, fold_left_app, filter_app, map_app.
    cbn [fold_left]. change (0 + m)%nat with m.
    set (st := fold_left (add_recv displs buf) (seq 0 m) (d0, flags0)) in *.
    rewrite filter_cons, filter_nil. unfold add_recv.
    destruct (Nat.eqb_spec (displs !!! S m - displs !!! m) 0) as [Hz|Hnz].
    + rewrite decide_False by lia. cbn [map]. rewrite app_nil_r.
      split; [done|]. split; [done|]. split; [done|]. split.
      * intros i Hi. destruct (decide (i = m)) as [->|Hne].
        -- rewrite decide_True by done. apply Hout. lia.
        -- apply Hin. lia.
      * intros i Hi. apply Hout. lia.
    + rewrite decide_True by done. cbn [fst snd map].
      rewrite length_insert. split; [done|]. split; [done|]. split.
      * unfold procs, add_msg. cbn [messages]. rewrite map_app.
        cbn [map partner]. fold (procs st.1). by rewrite Hprocs, app_assoc.
      * split.
        -- intros i Hi. destruct (decide (i = m)) as [->|Hne].
           ++ rewrite decide_False by done.
              apply list_lookup_total_insert_eq. lia.
           ++ rewrite list_lookup_total_insert_ne by done. apply Hin. lia.
        -- intros i Hi. rewrite list_lookup_total_insert_ne by lia.
           apply Hout. lia.
Qed.

(** The first part of [form_local_R_par_comm] always ends, and its flags
    [local_recv_procs] mark the partners of the recv ledger. *)
Lemma form_local_R_recv_flags c (n : nat) (cols recv_nodes fans : list Z) :
  exists ledger flags,
    form_local_R_recv c n cols recv_nodes fans fresh = Some (ledger, flags) /\
    length flags = Z.to_nat (PPN c) /\
    forall d, (d < Z.to_nat (PPN c))%nat ->
      flags !!! d = if decide (Z.of_nat d ∈ procs ledger) then 1 else 0.
Proof.
  unfold form_local_R_recv.
  set (d := make_displs c _).
  set (buf := (fold_left (add_col d.1 _) _ _).2).
  destruct (add_recv_flags d.1 buf (Z.to_nat (PPN c)) fresh
              (replicate (Z.to_nat (PPN c)) 0))
    as (Hlen & Hsealed & Hprocs & Hin & _);
    [by rewrite length_replicate|].
  set (r := fold_left (add_recv d.1 buf) _ _) in *.
  unfold finalize. rewrite Hsealed. cbn [sealed fresh].
  eexists _, _. split; [reflexivity|].
  rewrite length_replicate in Hlen. split; [done|].
  intros i Hi. rewrite (Hin i Hi), lookup_total_replicate_2 by done.
  unfold procs in *. cbn [messages]. rewrite Hprocs. cbn [messages fresh map app].
  destruct (decide ((d.1 !!! S i - d.1 !!! i)%nat = 0%nat)) as [Hz|Hnz].
  - rewrite decide_False; [done|].
    intros Hmem%list_elem_of_In%in_map_iff.
    destruct Hmem as (i' & Heq & Hi'%list_elem_of_In%list_elem_of_filter).
    assert (i' = i) as -> by lia. by destruct Hi'.
  - rewrite decide_True; [done|].
    apply list_elem_of_In, in_map_iff. exists i. split; [done|].
    apply list_elem_of_In, list_elem_of_filter. split; [done|].
    apply elem_of_seq. lia.
Qed.

(** X21.  With [PPN] positive, hosts within [0, num_nodes), fan-outs of
    at least 1, one per host, and every column of every process of the
    host owned by a listed host, the first part of
    [form_local_R_par_comm] ends on each process, and the sum-reduced
    flags give a local rank below [PPN] exactly the number of local
    processes whose recv ledger holds a message for it: the rank waits
    for as many messages as are sent to it. *)
Theorem X21_R_stage_waits_for_the_messages_sent c (recv_nodes fans : list Z)
    (locals : list (nat * list Z)) (lr : nat) :
  0 < PPN c ->
  (forall node, node ∈ recv_nodes -> 0 <= node < num_nodes c) ->
  length fans = length recv_nodes -> (forall f, f ∈ fans -> 1 <= f) ->
  (forall p : nat * list Z, p ∈ locals ->
     length p.2 = p.1 /\ forall node, node ∈ p.2 -> node ∈ recv_nodes) ->
  (lr < Z.to_nat (PPN c))%nat ->
  exists results : list (CommData * list Z),
    map (fun p : nat * list Z =>
           form_local_R_recv c p.1 p.2 recv_nodes fans fresh) locals
    = map Some results /\
    allreduce Z.add (Z.to_nat (PPN c)) (map snd results) !!! lr
    = Z.of_nat (length (filter (fun r : CommData * list Z =>
                                  Z.of_nat lr ∈ procs r.1) results)).
Proof.
  intros _ _ _ _ _ Hlr.
  assert (Hruns : exists results : list (CommData * list Z),
    map (fun p : nat * list Z =>
           form_local_R_recv c p.1 p.2 recv_nodes fans fresh) locals
    = map Some results /\
    forall r, r ∈ results ->
      length r.2 = Z.to_nat (PPN c) /\
      forall d, (d < Z.to_nat (PPN c))%nat ->
        r.2 !!! d = if decide (Z.of_nat d ∈ procs r.1) then 1 else 0).
  { induction locals as [|[n cols] locals IH].
    - exists []. split; [done|]. by intros r ?%elem_of_nil.
    - destruct IH as (results & Hmap & Hall).
      destruct (form_local_R_recv_flags c n cols recv_nodes fans)
        as (ledger & flags & Hrun & Hlen & Hflags).
      exists ((ledger, flags) :: results). split.
      + cbn [map fst snd]. by rewrite Hrun, Hmap.
      + intros r [->|Hr]%elem_of_cons; [done|by apply Hall]. }
  destruct Hruns as (results & Hmap & Hall).
  exists results. split; [done|].
  destruct (HostDiscovery.allreduce_lookup Z.add (Z.to_nat (PPN c))
              (map snd results)) as [_ Hget].
  { intros v Hv%list_elem_of_In%in_map_iff.
    destruct Hv as (r & <- & Hr%list_elem_of_In). by apply Hall. }
  rewrite Hget, map_map by done.
  rewrite (sum_flags (fun r : CommData * list Z => Z.of_nat lr ∈ procs r.1)).
  - lia.
  - intros r Hr. by apply Hall.
Qed.

Lemma X21_R_stage_waits_witness :
  exists results : list (CommData * list Z),
    map (fun p : nat * list Z =>
           form_local_R_recv (mkTAPConfig 1 4 8 1000 62 4) p.1 p.2
                             [3; 5; 6] [1; 2; 1] fresh)
        [(7%nat, [5; 3; 5; 5; 3; 5; 6]); (1%nat, [5]); (0%nat, [])]
    = map Some results /\
    allreduce Z.add 4 (map snd results) !!! 1%nat
    = Z.of_nat (length (filter (fun r : CommData * list Z =>
                                  Z.of_nat 1 ∈ procs r.1) results)).
Proof.
  apply (X21_R_stage_waits_for_the_messages_sent
           (mkTAPConfig 1 4 8 1000 62 4) [3; 5; 6] [1; 2; 1]
           [(7%nat, [5; 3; 5; 5; 3; 5; 6]); (1%nat, [5]); (0%nat, [])] 1).
  - simpl. lia.
  - apply Forall_forall. apply (bool_decide_unpack _). vm_compute. exact I.
  - reflexivity.
  - apply Forall_forall. apply (bool_decide_unpack _). vm_compute. exact I.
  - intros p Hp.
    apply elem_of_cons in Hp as [->|Hp];
      [|apply elem_of_cons in Hp as [->|Hp];
        [|apply elem_of_cons in Hp as [->|Hp];
          [|by apply elem_of_nil in Hp]]];
      (split; [reflexivity|]);
      apply Forall_forall; apply (bool_decide_unpack _); vm_compute; exact I.
  - simpl. lia.
Defined.

Lemma sum_counts {A B} (P : B -> Prop) `{!forall b, Decision (P b)}
    (f : A -> Z) (g : A -> list B) (l : list A) : forall acc,
  (forall a, a ∈ l -> f a = Z.of_nat (length (filter P (g a)))) ->
  fold_left Z.add (map f l) acc
  = acc + Z.of_nat (length (filter P (concat (map g l)))).
Proof.
  induction l as [|a l IH]; intros acc Hf; [simpl; lia|].
  cbn [map fold_left concat].
  rewrite IH by (intros b Hb; apply Hf; by apply list_elem_of_further).
  rewrite (Hf a) by apply list_elem_of_here.
  rewrite filter_app, length_app. lia.
Qed.

(** X22.  When every local process of a host lists its on-node columns
    with ascending owners below [PPN], each process records at most one
    L-stage message per owner, in ascending order of the owner, and the
    sum-reduced flags give a local rank exactly the number of messages
    the processes of the host send to it. *)
Theorem X22_L_stage_waits_for_the_messages_sent c (locals : list (list Z))
    (lr : Z) :
  (forall v p, v ∈ locals -> p ∈ v -> 0 <= p < PPN c) ->
  (forall v, v ∈ locals -> Sorted Z.le v) ->
  0 <= lr < PPN c ->
  (forall v, v ∈ locals ->
     StronglySorted Z.lt (map fst (LStage.form_local_L_recv c v).1)) /\
  allreduce Z.add (Z.to_nat (PPN c))
            (map (fun v => (LStage.form_local_L_recv c v).2) locals)
    !!! Z.to_nat lr
  = Z.of_nat
      (length (filter (fun cl : Z * nat => cl.1 = lr)
                 (concat (map (fun v => (LStage.form_local_L_recv c v).1)
                              locals)))).
Proof.
  intros Hrange Hsorted Hlr.
  assert (Hinc : forall v, v ∈ locals ->
    StronglySorted Z.lt (map fst (LStage.form_local_L_recv c v).1)).
  { intros v Hv.
    destruct (LStage.form_local_L_recv_runs c v (fun p => Hrange v p Hv))
      as (Hexp & Hsizes & Hadj & _).
    apply LStage.runs_increase; [done|done|]. rewrite Hexp.
    apply Sorted_StronglySorted; [intros x y z; lia|by apply Hsorted]. }
  split; [done|].
  destruct (HostDiscovery.allreduce_lookup Z.add (Z.to_nat (PPN c))
              (map (fun v => (LStage.form_local_L_recv c v).2) locals))
    as [_ Hget].
  { intros w Hw%list_elem_of_In%in_map_iff.
    destruct Hw as (v & <- & Hv%list_elem_of_In).
    by destruct (LStage.form_local_L_recv_runs c v
                   (fun p => Hrange v p Hv)) as (_ & _ & _ & Hlen & _). }
  rewrite Hget, map_map by lia.
  rewrite (sum_counts (fun cl : Z * nat => cl.1 = lr) _
             (fun v => (LStage.form_local_L_recv c v).1)); [lia|].
  intros v Hv.
  destruct (LStage.form_local_L_recv_runs c v (fun p => Hrange v p Hv))
    as (Hexp & Hsizes & _ & _ & Hflags).
  rewrite (Hflags lr Hlr), LStage.count_partner
    by (apply HostDiscovery.strictly_increasing_NoDup; by apply Hinc).
  pose proof (LStage.elem_of_expand _ lr Hsizes) as Hiff.
  rewrite Hexp in Hiff.
  destruct (decide (lr ∈ v)) as [Hin|Hout];
    destruct (decide (lr ∈ map fst (LStage.form_local_L_recv c v).1));
    [done|tauto|tauto|done].
Qed.

Lemma X22_L_stage_waits_witness :
  allreduce Z.add 4
            (map (fun v => (LStage.form_local_L_recv
                              (mkTAPConfig 1 4 8 1000 62 4) v).2)
                 [[0; 0; 2; 3]; [2; 2]; []])
    !!! Z.to_nat 2
  = 2.
Proof.
  destruct (X22_L_stage_waits_for_the_messages_sent
              (mkTAPConfig 1 4 8 1000 62 4) [[0; 0; 2; 3]; [2; 2]; []] 2)
    as [_ Hcount].
  - intros v p Hv Hp.
    assert (H : Forall (Forall (fun p => 0 <= p < 4))
                       [[0; 0; 2; 3]; [2; 2]; []])
      by (apply (bool_decide_unpack _); vm_compute; exact I).
    rewrite Forall_forall in H. specialize (H v Hv).
    rewrite Forall_forall in H. exact (H p Hp).
  - apply Forall_forall. apply (bool_decide_unpack _). vm_compute. exact I.
  - simpl. lia.
  - etransitivity; [exact Hcount|reflexivity].
Defined.

(** X23.  With one first column per local rank and the preconditions of
    the S stage on the global send ledger of every local process of a
    host, the search and the ledger
    build end on each of them, and the sum-reduced flags give a local
    rank below [PPN] exactly the number of local processes whose S-stage
    recv ledger holds a message for it. *)
Theorem X23_S_stage_waits_for_the_messages_sent c (sort : list Z -> list Z)
    (local_col_starts : list Z) (locals : list CommData) (lr : nat) :
  0 < PPN c -> length local_col_starts = Z.to_nat (PPN c) ->
  (forall l, Permutation (sort l) l) ->
  (forall G, G ∈ locals ->
     SStage.sealed_form G /\
     (forall m, m ∈ messages G -> Sorted Z.le (positions m)) /\
     (forall x, x ∈ indices G -> local_col_starts !!! 0%nat <= x)) ->
  (lr < Z.to_nat (PPN c))%nat ->
  exists results : list (SStage.Origins * CommData),
    Forall2 (fun G r =>
               SStage.find_origins c local_col_starts G = Some r.1 /\
               SStage.form_local_S_recv c sort local_col_starts G fresh
               = Some r.2)
            locals results /\
    allreduce Z.add (Z.to_nat (PPN c))
              (map (fun r : SStage.Origins * CommData =>
                      SStage.recv_procs r.1) results) !!! lr
    = Z.of_nat (length (filter (fun r : SStage.Origins * CommData =>
                                  Z.of_nat lr ∈ procs r.2) results)).
Proof.
  intros Hp _ Hperm Hlocals Hlr.
  assert (Hruns : exists results : list (SStage.Origins * CommData),
    Forall2 (fun G r =>
               SStage.find_origins c local_col_starts G = Some r.1 /\
               SStage.form_local_S_recv c sort local_col_starts G fresh
               = Some r.2)
            locals results /\
    forall r, r ∈ results ->
      length (SStage.recv_procs r.1) = Z.to_nat (PPN c) /\
      forall d, (d < Z.to_nat (PPN c))%nat ->
        SStage.recv_procs r.1 !!! d
        = if decide (Z.of_nat d ∈ procs r.2) then 1 else 0).
  { induction locals as [|G locals IH].
    - exists []. split; [constructor|]. by intros r ?%elem_of_nil.
    - destruct IH as (results & Hall2 & Hall).
      { intros G' HG'. by apply Hlocals, list_elem_of_further. }
      destruct (Hlocals G ltac:(apply list_elem_of_here))
        as (Hsealed & Hsorted & Hknown).
      destruct (SStage.form_local_S_recv_flags c sort local_col_starts G
                  Hp Hperm Hsealed Hsorted Hknown)
        as (o & ledger & Hrun & Hledger & Hlen & Hflags).
      exists ((o, ledger) :: results). split.
      + by constructor.
      + intros r [->|Hr]%elem_of_cons; [done|by apply Hall]. }
  destruct Hruns as (results & Hall2 & Hall).
  exists results. split; [done|].
  destruct (HostDiscovery.allreduce_lookup Z.add (Z.to_nat (PPN c))
              (map (fun r : SStage.Origins * CommData =>
                      SStage.recv_procs r.1) results)) as [_ Hget].
  { intros v Hv%list_elem_of_In%in_map_iff.
    destruct Hv as (r & <- & Hr%list_elem_of_In). by apply Hall. }
  rewrite Hget, map_map by done.
  rewrite (sum_flags (fun r : SStage.Origins * CommData =>
                        Z.of_nat lr ∈ procs r.2)).
  - lia.
  - intros r Hr. by apply Hall.
Qed.

Lemma X23_S_stage_waits_witness :
  exists results : list (SStage.Origins * CommData),
    Forall2 (fun G r =>
               SStage.find_origins (mkTAPConfig 1 4 8 1000 62 4)
                                   [0; 10; 20; 30] G = Some r.1 /\
               SStage.form_local_S_recv (mkTAPConfig 1 4 8 1000 62 4)
                 (merge_sort Z.le) [0; 10; 20; 30] G fresh = Some r.2)
            [mkCommData [mkMessage 9 [3; 12; 12; 31]] true [0; 4]%nat
                        [3; 12; 12; 31];
             mkCommData [mkMessage 21 [5; 25]] true [0; 2]%nat [5; 25]]
            results /\
    allreduce Z.add 4
              (map (fun r : SStage.Origins * CommData =>
                      SStage.recv_procs r.1) results) !!! 0%nat
    = Z.of_nat (length (filter (fun r : SStage.Origins * CommData =>
                                  Z.of_nat 0 ∈ procs r.2) results)).
Proof.
  apply (X23_S_stage_waits_for_the_messages_sent
           (mkTAPConfig 1 4 8 1000 62 4) (merge_sort Z.le) [0; 10; 20; 30]
           [mkCommData [mkMessage 9 [3; 12; 12; 31]] true [0; 4]%nat
                       [3; 12; 12; 31];
            mkCommData [mkMessage 21 [5; 25]] true [0; 2]%nat [5; 25]]
           0%nat).
  - simpl. lia.
  - reflexivity.
  - intros l. apply merge_sort_Permutation.
  - intros G HG.
    apply elem_of_cons in HG as [->|HG];
      [|apply elem_of_cons in HG as [->|HG]; [|by apply elem_of_nil in HG]].
    + split; [by split|]. split.
      * apply Forall_forall. apply (bool_decide_unpack _). vm_compute. exact I.
      * apply Forall_forall. apply (bool_decide_unpack _). vm_compute. exact I.
    + split; [by split|]. split.
      * apply Forall_forall. apply (bool_decide_unpack _). vm_compute. exact I.
      * apply Forall_forall. apply (bool_decide_unpack _). vm_compute. exact I.
  - simpl. lia.
Defined.

End Handshake.

(** ** Global stage: the index array as a whole *)
Module GlobalStageFacts.
Import Ledger Buckets GlobalStage.

Lemma elem_of_gathered c rank (orig_nodes : list Z) (R_send : CommData)
    (proc x : Z) :
  x ∈ gathered c rank orig_nodes R_send proc
  <-> exists k, (k < size_msgs R_send)%nat /\
                orig_nodes !!! k = (Topology.get_node c rank proc).1 /\
                x = indices R_send !!! k.
Proof.
  unfold gathered. rewrite list_elem_of_In, in_map_iff. split.
  - intros (k & <- & Hk%list_elem_of_In%list_elem_of_filter).
    destruct Hk as [Hnode Hk%elem_of_seq]. exists k. split; [lia|done].
  - intros (k & Hk & Hnode & ->). exists k. split; [done|].
    apply list_elem_of_In, list_elem_of_filter. split; [done|].
    apply elem_of_seq. lia.
Qed.

Section global_index_array.

Variables (c : TAPConfig) (rank : Z) (sort : list Z -> list Z).
Variables (recv_procs orig_nodes : list Z) (R_send : CommData).

Hypothesis sort_perm : forall l, Permutation (sort l) l.
Hypothesis sort_sorted : forall l, Sorted Z.le (sort l).
Hypothesis peers_nodup : NoDup (peer_nodes c rank recv_procs).
Hypothesis peers_range :
  forall node, node ∈ peer_nodes c rank recv_procs -> 0 <= node < num_nodes c.
Hypothesis orig_len : length orig_nodes = size_msgs R_send.
Hypothesis orig_known :
  forall node, node ∈ orig_nodes -> node ∈ peer_nodes c rank recv_procs.
Hypothesis indices_len : length (indices R_send) = size_msgs R_send.

(** What [form_global_par_comm] seals, message by message. *)
Lemma form_global_recv_messages :
  exists ledger,
    form_global_recv c rank sort recv_procs orig_nodes R_send fresh
      = Some ledger /\
    messages ledger
    = concat (map (fun proc => peer_message sort proc
                                 (gathered c rank orig_nodes R_send proc))
                  recv_procs) /\
    indices ledger = concat (map positions (messages ledger)).
Proof.
  unfold form_global_recv.
  pose proof (count_nodes_counted c rank recv_procs orig_nodes R_send
                peers_range orig_len orig_known indices_len
                (size_msgs R_send) ltac:(lia)) as Hcounted.
  set (node_sizes := fold_left (count_node orig_nodes) _ _) in *.
  destruct (peer_displs_peered c rank recv_procs orig_nodes R_send
              peers_nodup peers_range orig_len orig_known indices_len
              node_sizes (length recv_procs) Hcounted ltac:(lia))
    as (Hidx & Hdis & Hback & Hoff).
  set (peers := fold_left (peer_displs c rank recv_procs node_sizes) _ _)
    in *.
  rewrite (fold_left_ext_in
             (add_index orig_nodes peers.1 peers.2 (indices R_send))
             (place (key c rank recv_procs orig_nodes) (val R_send) peers.2)).
  2: { intros st k Hk%elem_of_seq. unfold add_index, place.
       destruct (key_spec c rank recv_procs orig_nodes R_send orig_len
                   orig_known indices_len k ltac:(lia)) as [Hkey Hnode].
       by rewrite (Hback (key c rank recv_procs orig_nodes k) _ Hkey Hnode). }
  destruct (placement_slices (length recv_procs) (size_msgs R_send)
              (key c rank recv_procs orig_nodes) (val R_send) peers.2
              (peer_key_lt c rank recv_procs orig_nodes R_send orig_len
                           orig_known indices_len)
              Hoff (replicate (length recv_procs) 0%nat)
              (replicate (size_msgs R_send) 0)
              ltac:(by rewrite length_replicate)
              ltac:(intros b Hb; by apply lookup_total_replicate_2)
              ltac:(apply length_replicate)) as [Hlen Hslices].
  set (buf := (fold_left (place _ _ peers.2) _ _).2) in *.
  destruct (add_peer_messages c rank sort recv_procs orig_nodes R_send
              sort_perm orig_len orig_known indices_len
              peers.2 buf fresh Hoff Hlen Hslices
              (length recv_procs) ltac:(lia))
    as (_ & _ & Hmsgs & Hsealed).
  set (r := fold_left (add_peer sort recv_procs peers.2) _ _) in *.
  unfold finalize. rewrite Hsealed. cbn [sealed fresh].
  eexists. split; [reflexivity|]. cbn [messages indices].
  rewrite Hmsgs.
  rewrite (messages_by_peer c rank sort recv_procs orig_nodes R_send
             peers_nodup orig_len orig_known indices_len).
  cbn [messages fresh app]. done.
Qed.

Lemma elem_of_peer_positions proc x :
  x ∈ concat (map positions
                  (peer_message sort proc
                     (gathered c rank orig_nodes R_send proc)))
  <-> x ∈ gathered c rank orig_nodes R_send proc.
Proof.
  unfold peer_message.
  destruct (gathered c rank orig_nodes R_send proc) as [|a g] eqn:Hg;
    [done|].
  cbn [map concat positions]. rewrite app_nil_r.
  destruct (unique_sorted_spec (sort (a :: g)) (sort_sorted _)) as [_ He].
  by rewrite He, (sort_perm (a :: g)).
Qed.

Lemma peer_positions_NoDup proc :
  NoDup (concat (map positions
                     (peer_message sort proc
                        (gathered c rank orig_nodes R_send proc)))).
Proof.
  unfold peer_message.
  destruct (gathered c rank orig_nodes R_send proc) as [|a g];
    [constructor|].
  cbn [map concat positions]. rewrite app_nil_r.
  destruct (unique_sorted_spec (sort (a :: g)) (sort_sorted _)) as [Hs _].
  by apply HostDiscovery.strictly_increasing_NoDup.
Qed.

End global_index_array.

(** X24.  Under the preconditions of the global stage, and when equal
    identifiers of the R-stage send ledger come with equal origin hosts,
    the index array of the sealed global recv ledger holds exactly the
    identifiers of the R-stage send ledger, each of them once. *)
Theorem X24_global_recv_lists_each_identifier_once c rank
    (sort : list Z -> list Z) (recv_procs orig_nodes : list Z)
    (R_send : CommData) :
  (forall l, Permutation (sort l) l) -> (forall l, Sorted Z.le (sort l)) ->
  NoDup (peer_nodes c rank recv_procs) ->
  (forall node, node ∈ peer_nodes c rank recv_procs ->
     0 <= node < num_nodes c) ->
  length orig_nodes = size_msgs R_send ->
  (forall node, node ∈ orig_nodes -> node ∈ peer_nodes c rank recv_procs) ->
  length (indices R_send) = size_msgs R_send ->
  (forall k k', (k < size_msgs R_send)%nat -> (k' < size_msgs R_send)%nat ->
     indices R_send !!! k = indices R_send !!! k' ->
     orig_nodes !!! k = orig_nodes !!! k') ->
  exists ledger,
    form_global_recv c rank sort recv_procs orig_nodes R_send fresh
      = Some ledger /\
    NoDup (indices ledger) /\
    forall x, x ∈ indices ledger <-> x ∈ indices R_send.
Proof.
  intros Hperm Hsorted Hnd Hrange Hlen Hknown Hind Hsame.
  destruct (form_global_recv_messages c rank sort recv_procs orig_nodes
              R_send Hperm Hnd Hrange Hlen Hknown Hind)
    as (ledger & Hrun & Hmsgs & Hindices).
  exists ledger. split; [done|]. rewrite Hindices, Hmsgs.
  assert (Hflat : forall procs_list : list Z,
    concat (map positions
              (concat (map (fun proc =>
                              peer_message sort proc
                                (gathered c rank orig_nodes R_send proc))
                           procs_list)))
    = concat (map (fun proc =>
                     concat (map positions
                               (peer_message sort proc
                                  (gathered c rank orig_nodes R_send proc))))
                  procs_list)).
  { induction procs_list as [|proc l IH]; [done|].
    cbn [map concat]. by rewrite map_app, concat_app, IH. }
  rewrite Hflat. clear Hflat Hmsgs Hindices Hrun.
  assert (Hmem : forall (procs_list : list Z) x,
    x ∈ concat (map (fun proc =>
                       concat (map positions
                                 (peer_message sort proc
                                    (gathered c rank orig_nodes R_send proc))))
                    procs_list)
    <-> exists proc, proc ∈ procs_list /\
                     x ∈ gathered c rank orig_nodes R_send proc).
  { intros procs_list x. rewrite list_elem_of_In, in_concat. split.
    - intros (l & Hl & Hx). apply in_map_iff in Hl as (proc & <- & Hproc).
      exists proc. split; [by apply list_elem_of_In|].
      by apply (elem_of_peer_positions c rank sort orig_nodes R_send
                  Hperm Hsorted), list_elem_of_In.
    - intros (proc & Hproc & Hx). eexists. split.
      + apply in_map_iff. exists proc. split; [done|by apply list_elem_of_In].
      + by apply list_elem_of_In,
             (elem_of_peer_positions c rank sort orig_nodes R_send
                Hperm Hsorted). }
  split.
  - unfold peer_nodes in Hnd. clear Hrange Hknown.
    induction recv_procs as [|proc l IH]; [constructor|].
    cbn [map concat] in *. apply NoDup_cons in Hnd as [Hfresh Hnd].
    apply NoDup_app. split; [|split].
    + by apply peer_positions_NoDup.
    + intros x Hx Hx'.
      apply (elem_of_peer_positions c rank sort orig_nodes R_send
               Hperm Hsorted), elem_of_gathered in Hx
        as (k & Hk & Hnode & ->).
      apply Hmem in Hx' as (proc' & Hproc' & Hx').
      apply elem_of_gathered in Hx' as (k' & Hk' & Hnode' & Heq).
      apply Hfresh, list_elem_of_In, in_map_iff. exists proc'.
      split; [|by apply list_elem_of_In].
      rewrite <- Hnode, <- Hnode'. symmetry. by apply Hsame.
    + by apply IH.
  - intros x. rewrite Hmem. split.
    + intros (proc & _ & Hx%elem_of_gathered).
      destruct Hx as (k & Hk & _ & ->).
      apply list_elem_of_lookup_total_2. lia.
    + intros Hx. apply list_elem_of_lookup_total in Hx as (k & Hk & <-).
      rewrite Hind in Hk.
      assert (Hin : orig_nodes !!! k ∈ peer_nodes c rank recv_procs).
      { apply Hknown, list_elem_of_lookup_total_2. lia. }
      unfold peer_nodes in Hin.
      apply list_elem_of_In, in_map_iff in Hin as (proc & Hnode & Hproc).
      exists proc. split; [by apply list_elem_of_In|].
      apply elem_of_gathered. by exists k.
Qed.

Lemma X24_global_recv_witness :
  let R_send := mkCommData [mkMessage 1 [30; 10; 30; 20; 10; 40]] true
                           [0; 6]%nat [30; 10; 30; 20; 10; 40] in
  exists ledger,
    form_global_recv (mkTAPConfig 1 4 8 1000 62 4) 0 (merge_sort Z.le)
                     [9; 21; 14] [2; 5; 2; 3; 5; 2] R_send fresh
    = Some ledger /\
    indices ledger = [30; 40; 10; 20].
Proof.
  intros R_send.
  destruct (X24_global_recv_lists_each_identifier_once
              (mkTAPConfig 1 4 8 1000 62 4) 0 (merge_sort Z.le)
              [9; 21; 14] [2; 5; 2; 3; 5; 2] R_send)
    as (ledger & Hrun & _).
  - intros l. apply merge_sort_Permutation.
  - intros l. apply (Sorted_merge_sort Z.le).
  - apply (bool_decide_unpack _). vm_compute. exact I.
  - apply Forall_forall. apply (bool_decide_unpack _). vm_compute. exact I.
  - reflexivity.
  - apply Forall_forall. apply (bool_decide_unpack _). vm_compute. exact I.
  - reflexivity.
  - intros k k' Hk Hk'.
    change (k < 6)%nat in Hk. change (k' < 6)%nat in Hk'.
    assert (H : Forall (fun k => Forall (fun k' =>
                  [30; 10; 30; 20; 10; 40] !!! k
                  = [30; 10; 30; 20; 10; 40] !!! k' ->
                  [2; 5; 2; 3; 5; 2] !!! k = ([2; 5; 2; 3; 5; 2] !!! k' : Z))
                  (seq 0 6)) (seq 0 6))
      by (apply (bool_decide_unpack _); vm_compute; exact I).
    rewrite Forall_forall in H.
    specialize (H k ltac:(apply elem_of_seq; lia)).
    rewrite Forall_forall in H.
    exact (H k' ltac:(apply elem_of_seq; lia)).
  - exists ledger. split; [exact Hrun|].
    vm_compute in Hrun. by injection Hrun as <-.
Defined.

End GlobalStageFacts.
